(** * Rias: a shallow embedding of the queue, node, player and cluster code

    The development follows the TypeScript sources:
    - [Queue]   : [src/Queue.ts]  (loop modes, [poll], [smartShuffle], [toggleLoop]);
    - [Node]    : the Lavalink node session (REST guards, close handling, back-off);
    - [Player]  : the per-guild player (voice handshake, destroy latch);
    - [Rias]    : the cluster (player registry, node selection).

    JavaScript values are modelled as follows.  [string | null] and optional
    strings are [option string]; a JavaScript truthiness test on such a value
    is [truthy], which is false on [None] and on the empty string.  Arrays are
    lists, indexed with stdpp's lookup and insert.  A [Map] whose iteration
    order matters is an association list in insertion order.  The numbers
    of the node statistics and the priority of a node, which the node
    selection multiplies and subtracts, are IEEE 754 binary64 values
    ([Double.t]), with the arithmetic of the Standard Library's
    [SpecFloat].  The other numbers are integers or exact rationals ([Q]):
    the code compares them, or computes with them where rounding does not
    change what is stated. *)

From Stdlib Require Import Ascii String QArith Qminmax Qpower SpecFloat ZifyNat.
From stdpp Require Import base list strings gmap pretty.

Close Scope Q_scope.
Open Scope nat_scope.

(** ** JavaScript helpers *)

(** [!!s] for [s : string | null | undefined]. *)
Definition truthy (s : option string) : bool :=
  match s with
  | Some EmptyString => false
  | Some _ => true
  | None => false
  end.

(** [x === y] on [string | null | undefined] values. *)
Definition optStrEq (a b : option string) : bool :=
  match a, b with
  | Some x, Some y => String.eqb x y
  | None, None => true
  | _, _ => false
  end.

(** White space removed by [String.prototype.trim], on the ASCII range. *)
Definition isWhiteSpace (c : ascii) : bool :=
  let n := nat_of_ascii c in
  Nat.eqb n 32 || (Nat.leb 9 n && Nat.leb n 13).

Fixpoint trimStartChars (s : list ascii) : list ascii :=
  match s with
  | c :: r => if isWhiteSpace c then trimStartChars r else s
  | [] => []
  end.

(** [s.trim()] *)
Definition trim (s : string) : string :=
  string_of_list_ascii
    (rev (trimStartChars (rev (trimStartChars (list_ascii_of_string s))))).

Definition lowerChar (c : ascii) : ascii :=
  let n := nat_of_ascii c in
  if Nat.leb 65 n && Nat.leb n 90 then ascii_of_nat (n + 32) else c.

(** [s.toLowerCase()], on the ASCII range. *)
Fixpoint toLowerCase (s : string) : string :=
  match s with
  | EmptyString => EmptyString
  | String c r => String (lowerChar c) (toLowerCase r)
  end.

(** [Math.random()] is an oracle: the [k]-th call of a run is described by
    [oracle k].  [Math.floor(Math.random() * bound)] can be any index below
    [bound]; it is [oracle k mod bound], so that every outcome of the
    generator is covered by some oracle. *)
Record Rng := { oracle : nat -> nat; calls : nat }.

Definition randomIndex (bound : nat) (r : Rng) : nat * Rng :=
  (oracle r (calls r) mod bound, {| oracle := oracle r; calls := S (calls r) |}).

(** [[a[i], a[j]] = [a[j], a[i]]]: both reads happen first, then [a[i]] and
    [a[j]] are written in that order.  All uses are in range. *)
Definition swap {A} (l : list A) (i j : nat) : list A :=
  match l !! i, l !! j with
  | Some x, Some y => <[j:=x]> (<[i:=y]> l)
  | _, _ => l
  end.

(** ** Numbers

    A JavaScript number is an IEEE 754 binary64 value.  [SpecFloat] gives
    these values and their arithmetic, rounded to nearest, ties to even. *)
Module Double.

Definition t := spec_float.

Definition prec : Z := 53.
Definition emax : Z := 1024.

(** [x + y], [x - y], [x * y], [x / y] *)
Definition add : t -> t -> t := SFadd prec emax.
Definition sub : t -> t -> t := SFsub prec emax.
Definition mul : t -> t -> t := SFmul prec emax.
Definition div : t -> t -> t := SFdiv prec emax.

(** The number that an integer of the JSON text or of the code is read as. *)
Definition ofZ (z : Z) : t := binary_normalize prec emax z 0 false.

(** The literal [0.1]: [0x3FB999999999999A]. *)
Definition tenth : t := S754_finite false 7205759403792794 (-56).

(** [x > 0]; false on NaN. *)
Definition positive (x : t) : bool := SFltb (S754_zero false) x.

(** The value is one of binary64: its mantissa and its exponent are in
    range and in canonical form. *)
Definition isDouble (x : t) : bool := valid_binary prec emax x.

(** [Number.isFinite(x)] *)
Definition isFinite (x : t) : bool :=
  match x with
  | S754_zero _ | S754_finite _ _ _ => true
  | _ => false
  end.

(** The rational that a finite number is. *)
Definition value (x : t) : Q :=
  match x with
  | S754_finite s m e => (inject_Z (cond_Zopp s (Zpos m)) * 2 ^ e)%Q
  | _ => 0%Q
  end.

End Double.

(** ** Tracks *)

Record TrackInfo := {
  identifier : string;
  isSeekable : bool;
  author : string;
  length_ms : nat;
  isStream : bool;
  position_ms : nat;
  title : string;
  sourceName : string;
  uri : option string
}.

Record Track := { encoded : string; info : TrackInfo }.

Module Queue.

Inductive LoopMode := LoopNone | LoopTrack | LoopQueue.

Record t := {
  tracks : list Track;
  current : option Track;
  previous : option Track;
  loopMode : LoopMode
}.

Definition empty : t :=
  {| tracks := []; current := None; previous := None; loopMode := LoopNone |}.

Definition add (track : Track) (q : t) : t :=
  {| tracks := tracks q ++ [track]; current := current q;
     previous := previous q; loopMode := loopMode q |}.

Definition addMany (ts : list Track) (q : t) : t :=
  {| tracks := tracks q ++ ts; current := current q;
     previous := previous q; loopMode := loopMode q |}.

Definition clear (q : t) : t :=
  {| tracks := []; current := current q;
     previous := previous q; loopMode := loopMode q |}.

Definition size (q : t) : nat := length (tracks q).
Definition isEmpty (q : t) : bool := Nat.eqb (length (tracks q)) 0.

(** [remove(index)], for an integer index. *)
Definition remove (index : Z) (q : t) : option Track * t :=
  if Z.ltb index 0 || Z.leb (Z.of_nat (length (tracks q))) index then (None, q)
  else (tracks q !! Z.to_nat index,
        {| tracks := delete (Z.to_nat index) (tracks q); current := current q;
           previous := previous q; loopMode := loopMode q |}).

Definition setLoopMode (mode : LoopMode) (q : t) : t :=
  {| tracks := tracks q; current := current q;
     previous := previous q; loopMode := mode |}.

(** [poll()]: the returned track and the queue after the call. *)
Definition poll (q : t) : option Track * t :=
  match loopMode q, current q with
  | LoopTrack, Some c => (Some c, q)
  | _, _ =>
      let previous' := current q in
      let current' := head (tracks q) in      (* this.tracks.shift() ?? null *)
      let shifted := tail (tracks q) in
      let tracks' :=
        match loopMode q, current', previous' with
        | LoopQueue, Some _, Some p => shifted ++ [p]
        | _, _, _ => shifted
        end in
      (current',
       {| tracks := tracks'; current := current';
          previous := previous'; loopMode := loopMode q |})
  end.

(** [n] consecutive calls of [poll]: the tracks returned, and the queue. *)
Fixpoint pollMany (n : nat) (q : t) : list (option Track) * t :=
  match n with
  | 0 => ([], q)
  | S n' =>
      let '(r, q1) := poll q in
      let '(rs, q2) := pollMany n' q1 in
      (r :: rs, q2)
  end.

(** [toggleLoop()]: the returned mode and the queue after the call. *)
Definition toggleLoop (q : t) : LoopMode * t :=
  let mode :=
    match loopMode q with
    | LoopNone => LoopQueue
    | _ => LoopNone
    end in
  (mode, setLoopMode mode q).

(** *** smartShuffle *)

(** [track.info.author.trim().toLowerCase()] *)
Definition artistKey (track : Track) : string :=
  toLowerCase (trim (author (info track))).

Record ArtistBucket := { key : string; btracks : list Track }.

(** [artistGroups : Map<string, Track[]>], in insertion order. *)
Definition Groups := list (string * list Track).

Fixpoint mapHas (g : Groups) (k : string) : bool :=
  match g with
  | [] => false
  | (k', _) :: rest => if String.eqb k' k then true else mapHas rest k
  end.

(** [artistGroups.get(k)!.push(track)] *)
Fixpoint mapGetPush (g : Groups) (k : string) (track : Track) : Groups :=
  match g with
  | [] => []
  | (k', ts) :: rest =>
      if String.eqb k' k then (k', ts ++ [track]) :: rest
      else (k', ts) :: mapGetPush rest k track
  end.

(** One round of the grouping loop. *)
Definition groupStep (g : Groups) (track : Track) : Groups :=
  let artistKey := artistKey track in
  let g1 := if mapHas g artistKey then g else g ++ [(artistKey, [])] in
  mapGetPush g1 artistKey track.

Definition groupTracks (ts : list Track) : Groups := foldl groupStep [] ts.

(** The Fisher-Yates loop, [for (i = len - 1; i > 0; i--)], entered at [i]. *)
Fixpoint fisherYates (i : nat) (r : Rng) (ts : list Track) : list Track * Rng :=
  match i with
  | 0 => (ts, r)
  | S i' =>
      let '(j, r1) := randomIndex (i + 1) r in
      fisherYates i' r1 (swap ts i j)
  end.

(** [shuffle()] *)
Definition shuffle (r : Rng) (q : t) : t * Rng :=
  let '(ts, r') := fisherYates (length (tracks q) - 1) r (tracks q) in
  ({| tracks := ts; current := current q; previous := previous q;
      loopMode := loopMode q |}, r').

(** The loop that shuffles every group and collects the buckets. *)
Fixpoint makeBuckets (g : Groups) (r : Rng) : list ArtistBucket * Rng :=
  match g with
  | [] => ([], r)
  | (k, ts) :: rest =>
      let '(ts', r1) := fisherYates (length ts - 1) r ts in
      let '(bs, r2) := makeBuckets rest r1 in
      ({| key := k; btracks := ts' |} :: bs, r2)
  end.

(** [heap[i].tracks.length]; every index used below is in range. *)
Definition blen (b : ArtistBucket) : nat := length (btracks b).
Definition hlen (heap : list ArtistBucket) (i : nat) : nat :=
  from_option blen 0 (heap !! i).

(** The [while (index > 0)] loop of [pushHeap].  The index strictly
    decreases, so [fuel = index] rounds are enough (see [siftUp_fuel]). *)
Fixpoint siftUp (fuel : nat) (heap : list ArtistBucket) (index : nat)
  : list ArtistBucket :=
  match fuel with
  | 0 => heap
  | S fuel' =>
      if Nat.eqb index 0 then heap
      else
        let parent := (index - 1) / 2 in
        if Nat.leb (hlen heap index) (hlen heap parent) then heap
        else siftUp fuel' (swap heap parent index) parent
  end.

Definition pushHeap (heap : list ArtistBucket) (bucket : ArtistBucket)
  : list ArtistBucket :=
  let heap1 := heap ++ [bucket] in
  siftUp (length heap1 - 1) heap1 (length heap1 - 1).

(** The [while (true)] loop of [popHeap].  The index strictly increases and
    stays below the length, so [length heap] rounds are enough. *)
Fixpoint siftDown (fuel : nat) (heap : list ArtistBucket) (index : nat)
  : list ArtistBucket :=
  match fuel with
  | 0 => heap
  | S fuel' =>
      let left := 2 * index + 1 in
      let right := 2 * index + 2 in
      let largest := index in
      let largest :=
        if Nat.ltb left (length heap) && Nat.ltb (hlen heap largest) (hlen heap left)
        then left else largest in
      let largest :=
        if Nat.ltb right (length heap) && Nat.ltb (hlen heap largest) (hlen heap right)
        then right else largest in
      if Nat.eqb largest index then heap
      else siftDown fuel' (swap heap index largest) largest
  end.

(** [popHeap()]: the bucket returned ([None] for [undefined]) and the heap. *)
Definition popHeap (heap : list ArtistBucket)
  : option ArtistBucket * list ArtistBucket :=
  match heap with
  | [] => (None, [])
  | top :: _ =>
      let last := List.last heap top in       (* heap.pop()! *)
      let heap1 := removelast heap in
      match heap1 with
      | [] => (Some top, [])
      | _ :: rest =>
          let heap2 := last :: rest in          (* heap[0] = last *)
          (Some top, siftDown (length heap2) heap2 0)
      end
  end.

(** The head of a round of the main loop: [let bucket = popHeap()!] and the
    test [if (bucket.key === lastArtistKey)].  The bucket to emit from and the
    heap left; [None] when the heap is empty. *)
Definition pickBucket (heap : list ArtistBucket) (lastArtistKey : option string)
  : option (ArtistBucket * list ArtistBucket) :=
  match popHeap heap with
  | (None, _) => None
  | (Some bucket, heap1) =>
      if optStrEq (Some (key bucket)) lastArtistKey then
        match popHeap heap1 with
        | (Some alternate, heap1') => Some (alternate, pushHeap heap1' bucket)
        | (None, _) => Some (bucket, heap1)
        end
      else Some (bucket, heap1)
  end.

(** The main loop, [while (heap.length > 0)].  [None] means that the fuel ran
    out before the heap was empty; [drain_total] shows that the fuel given by
    [smartShuffle] is enough. *)
Fixpoint drain (fuel : nat) (heap : list ArtistBucket)
    (lastArtistKey : option string) (shuffled : list Track)
  : option (list Track) :=
  match pickBucket heap lastArtistKey with
  | None => Some shuffled
  | Some (bucket, heap2) =>
      match fuel with
      | 0 => None
      | S fuel' =>
          match btracks bucket with
          | [] => drain fuel' heap2 lastArtistKey shuffled      (* continue *)
          | nextTrack :: rest =>
              let bucket' := {| key := key bucket; btracks := rest |} in
              let heap3 :=
                match rest with
                | [] => heap2
                | _ :: _ => pushHeap heap2 bucket'
                end in
              drain fuel' heap3 (Some (key bucket)) (shuffled ++ [nextTrack])
          end
      end
  end.

(** [buckets.forEach((bucket) => pushHeap(bucket))] *)
Definition buildHeap (buckets : list ArtistBucket) : list ArtistBucket :=
  foldl pushHeap [] buckets.

(** [smartShuffle()]: the queue after the call. *)
Definition smartShuffle (r : Rng) (q : t) : option t :=
  if Nat.leb (length (tracks q)) 1 then Some q
  else
    let artistGroups := groupTracks (tracks q) in
    let '(buckets, _) := makeBuckets artistGroups r in
    let heap := buildHeap buckets in
    match drain (2 * length (tracks q)) heap None [] with
    | Some shuffled =>
        Some {| tracks := shuffled; current := current q;
                previous := previous q; loopMode := loopMode q |}
    | None => None
    end.

End Queue.

(** ** Errors, payloads and the network *)

Inductive RiasErrorCode :=
  | NODE_NOT_CONNECTED | NODE_NOT_READY | NO_AVAILABLE_NODES | PLAYER_NOT_FOUND
  | NO_TRACK_PLAYING | INVALID_VOLUME | INVALID_POSITION | INVALID_CHANNEL
  | TRACK_LOAD_FAILED | TIMEOUT | WEBSOCKET_ERROR | REST_ERROR.

(** A thrown value: [new Error(message)], or an error made by [createError],
    which carries a code. *)
Inductive JsError :=
  | PlainError (message : string)
  | RiasError (code : RiasErrorCode) (message : string).

Definition errorMessage (e : JsError) : string :=
  match e with
  | PlainError m => m
  | RiasError _ m => m
  end.

(** The outcome of a call that may throw. *)
Inductive Result (A : Type) :=
  | Ok (a : A)
  | Err (e : JsError).
Arguments Ok {A} a.
Arguments Err {A} e.

(** The one-character string holding a double quote. *)
Definition dquote : string := String (ascii_of_nat 34) EmptyString.

(** [haystack.includes(needle)] *)
Definition includes (haystack needle : string) : bool :=
  match String.index 0 needle haystack with
  | Some _ => true
  | None => false
  end.

(** [Number.isInteger(x)] on a number modelled as a rational. *)
Definition isInteger (x : Q) : bool := Pos.eqb (Qden (Qred x)) 1.

Record VoiceState := { token : string; endpoint : string; sessionId_v : string }.

(** A filter record: the named numeric parameters that were supplied. *)
Definition FilterParams := list (string * Q).

Record FilterOptions := {
  f_volume : option Q;
  f_equalizer : option (list (Z * Q));
  (* each of these is absent, null or a record *)
  f_karaoke : option (option FilterParams);
  f_timescale : option (option FilterParams);
  f_tremolo : option (option FilterParams);
  f_vibrato : option (option FilterParams);
  f_rotation : option (option FilterParams);
  f_distortion : option (option FilterParams);
  f_channelMix : option (option FilterParams);
  f_lowPass : option (option FilterParams)
}.

Definition EMPTY_FILTERS : FilterOptions :=
  {| f_volume := Some 1%Q; f_equalizer := Some [];
     f_karaoke := Some None; f_timescale := Some None; f_tremolo := Some None;
     f_vibrato := Some None; f_rotation := Some None; f_distortion := Some None;
     f_channelMix := Some None; f_lowPass := Some None |}.

(** [UpdatePlayerPayload]: every field is optional; [encodedTrack] may also be
    present and null. *)
Record UpdatePlayerPayload := {
  p_encodedTrack : option (option string);
  p_identifier : option string;
  p_position : option Q;
  p_endTime : option Q;
  p_volume : option Q;
  p_paused : option bool;
  p_filters : option FilterOptions;
  p_voice : option VoiceState
}.

Definition emptyPayload : UpdatePlayerPayload :=
  {| p_encodedTrack := None; p_identifier := None; p_position := None;
     p_endTime := None; p_volume := None; p_paused := None;
     p_filters := None; p_voice := None |}.

Record PluginInfo := { pl_name : string; pl_version : string }.

(** The object of the [/info] endpoint, as the code reads it.  [pluginList]
    is its [plugins]: [None] when the object has no array of plugins; an
    element of the array is [None] when it is [null]. *)
Record LavalinkInfo := {
  semver : string;
  sourceManagers : list string;
  filters : list string;
  pluginList : option (list (option PluginInfo))
}.

(** The plugins of [info.plugins]. *)
Definition plugins (info : LavalinkInfo) : list PluginInfo :=
  omap id (default [] (pluginList info)).

(** The plugins that a loop over an array reads before it ends, or comes
    to a [null]. *)
Fixpoint pluginsBefore (l : list (option PluginInfo)) : list PluginInfo :=
  match l with
  | Some p :: rest => p :: pluginsBefore rest
  | _ => []
  end.

Fixpoint hasNull (l : list (option PluginInfo)) : bool :=
  match l with
  | [] => false
  | Some _ :: rest => hasNull rest
  | None :: _ => true
  end.

(** What the loop [for (const plugin of info.plugins)] of [getInfo] reads
    before it ends or throws, and the [TypeError] that it throws: when
    [info.plugins] is not an array, and when it reads the [name] of a
    [null]. *)
Definition pluginsRead (info : LavalinkInfo) : list PluginInfo :=
  pluginsBefore (default [] (pluginList info)).

Definition pluginsError (info : LavalinkInfo) : option JsError :=
  match pluginList info with
  | None => Some (PlainError "info.plugins is not iterable")
  | Some l =>
      if hasNull l then Some (PlainError "Cannot read properties of null (reading 'name')")
      else None
  end.

Inductive RequestBody :=
  | BodyPayload (payload : UpdatePlayerPayload)      (* JSON.stringify(payload) *)
  | BodyEncoded (encoded : list string)             (* JSON.stringify(encoded) *)
  | BodyText (text : string).

(** One call of [fetch]. *)
Record Request := {
  method : string;
  url : string;
  authorization : string;
  body : option RequestBody;
  timeout : N
}.

(** What [await response.json()] gives where the caller reads the body of
    an error: the promise rejects, the body is [null], or it is another
    value, with the text of its [message] if it has one. *)
Inductive ErrorBody :=
  | ErrorNotJson
  | ErrorNull
  | ErrorObject (message : option string).

(** What [await response.json()] gives where the caller reads a
    [LavalinkInfo]: the promise rejects, the body is [null], or it is an
    object. *)
Inductive InfoBody :=
  | InfoNotJson
  | InfoNull
  | InfoObject (info : LavalinkInfo).

(** A [Response].  The three [json*] fields are what [await response.json()]
    gives to the caller that reads an error body, a [LavalinkInfo], or any
    other data (kept as text, [None] when [json()] rejects). *)
Record Response := {
  status : nat;
  statusText : string;
  contentType : option string;
  jsonMessage : ErrorBody;
  jsonInfo : InfoBody;
  jsonData : option string
}.

(** [response.ok] *)
Definition ok (r : Response) : bool := Nat.leb 200 (status r) && Nat.leb (status r) 299.

(** What the network does with a request: a response, an abort by the
    timeout, or another failure of [fetch]. *)
Inductive FetchOutcome :=
  | Responded (r : Response)
  | AbortError
  | NetworkError (message : string).

Definition Net := Request -> FetchOutcome.

(** ** The other methods of the queue

    They are in a module of their own, which is not imported: [insert],
    [filter], [find], [swap] and [reverse] would otherwise hide the list
    functions of these names.  An index is an integer. *)
Module QueueOps.

(** The queue whose array has become [ts]. *)
Definition withTracks (ts : list Track) (q : Queue.t) : Queue.t :=
  {| Queue.tracks := ts; Queue.current := Queue.current q;
     Queue.previous := Queue.previous q; Queue.loopMode := Queue.loopMode q |}.

(** [index < 0 || index >= this.tracks.length] *)
Definition outOfRange (index : Z) (q : Queue.t) : bool :=
  Z.ltb index 0 || Z.leb (Z.of_nat (length (Queue.tracks q))) index.

(** [insert(index, track)]: the value returned and the queue after the call. *)
Definition insert (index : Z) (track : Track) (q : Queue.t) : bool * Queue.t :=
  if Z.ltb index 0 || Z.ltb (Z.of_nat (length (Queue.tracks q))) index then (false, q)
  else
    (true,
     withTracks (take (Z.to_nat index) (Queue.tracks q)
                 ++ track :: drop (Z.to_nat index) (Queue.tracks q)) q).

(** [peek()] *)
Definition peek (q : Queue.t) : option Track :=
  match Queue.loopMode q, Queue.current q with
  | Queue.LoopTrack, Some c => Some c
  | _, _ => head (Queue.tracks q)
  end.

(** [get all()] *)
Definition all (q : Queue.t) : list Track := Queue.tracks q.

(** [skipTo(index)] *)
Definition skipTo (index : Z) (q : Queue.t) : option Track * Queue.t :=
  if outOfRange index q then (None, q)
  else Queue.poll (withTracks (drop (Z.to_nat index) (Queue.tracks q)) q).

(** [at(index)]; [at] is a reserved word here. *)
Definition at_ (index : Z) (q : Queue.t) : option Track :=
  if Z.ltb index 0 then None else Queue.tracks q !! Z.to_nat index.

(** [move(from, to)]; within the guard [splice(from, 1)[0]] is a track. *)
Definition move (from to : Z) (q : Queue.t) : bool * Queue.t :=
  if outOfRange from q || outOfRange to q then (false, q)
  else
    match Queue.tracks q !! Z.to_nat from with
    | Some track =>
        let rest := delete (Z.to_nat from) (Queue.tracks q) in
        (true, withTracks (take (Z.to_nat to) rest ++ track :: drop (Z.to_nat to) rest) q)
    | None => (false, q)
    end.

(** [swap(index1, index2)]; the right-hand [swap] is the swap of two cells
    of an array defined above. *)
Definition swap (index1 index2 : Z) (q : Queue.t) : bool * Queue.t :=
  if outOfRange index1 q || outOfRange index2 q then (false, q)
  else (true, withTracks (swap (Queue.tracks q) (Z.to_nat index1) (Z.to_nat index2)) q).

(** [find(predicate)] *)
Definition find (predicate : Track -> bool) (q : Queue.t) : option Track :=
  List.find predicate (Queue.tracks q).

(** [filter(predicate)] *)
Definition filter (predicate : Track -> bool) (q : Queue.t) : list Track :=
  List.filter predicate (Queue.tracks q).

(** [removeDuplicates()]: the callback of [filter], run over the array with
    the set [seen]. *)
Fixpoint keepUnseen (seen : gset string) (ts : list Track) : list Track :=
  match ts with
  | [] => []
  | track :: rest =>
      if bool_decide (identifier (info track) ∈ seen) then keepUnseen seen rest
      else track :: keepUnseen ({[identifier (info track)]} ∪ seen) rest
  end.

Definition removeDuplicates (q : Queue.t) : nat * Queue.t :=
  let original := length (Queue.tracks q) in
  let q' := withTracks (keepUnseen ∅ (Queue.tracks q)) q in
  (original - length (Queue.tracks q'), q').

(** [filterByAuthor(author)] *)
Definition filterByAuthor (name : string) (q : Queue.t) : list Track :=
  let authorLower := toLowerCase name in
  List.filter (fun t => includes (toLowerCase (author (info t))) authorLower)
    (Queue.tracks q).

(** [filterBySource(sourceName)] *)
Definition filterBySource (name : string) (q : Queue.t) : list Track :=
  let sourceLower := toLowerCase name in
  List.filter (fun t => String.eqb (toLowerCase (sourceName (info t))) sourceLower)
    (Queue.tracks q).

(** [removeByAuthor(author)] *)
Definition removeByAuthor (name : string) (q : Queue.t) : nat * Queue.t :=
  let authorLower := toLowerCase name in
  let original := length (Queue.tracks q) in
  let q' :=
    withTracks
      (List.filter (fun t => negb (includes (toLowerCase (author (info t))) authorLower))
         (Queue.tracks q)) q in
  (original - length (Queue.tracks q'), q').

(** [reverse()] *)
Definition reverse (q : Queue.t) : Queue.t := withTracks (rev (Queue.tracks q)) q.

End QueueOps.

Module Node.

Inductive ConnectionState := DISCONNECTED | CONNECTING | CONNECTED | RECONNECTING.

Definition stateName (s : ConnectionState) : string :=
  match s with
  | DISCONNECTED => "DISCONNECTED"
  | CONNECTING => "CONNECTING"
  | CONNECTED => "CONNECTED"
  | RECONNECTING => "RECONNECTING"
  end.

(** The statistics of a [stats] frame: numbers of the JSON text. *)
Record CpuStats := { cores : Double.t; systemLoad : Double.t; lavalinkLoad : Double.t }.

Record NodeStats := {
  players : Double.t;
  playingPlayers : Double.t;
  uptime : Double.t;
  cpu : CpuStats
}.

Definition initialStats : NodeStats :=
  {| players := Double.ofZ 0; playingPlayers := Double.ofZ 0; uptime := Double.ofZ 0;
     cpu := {| cores := Double.ofZ 0; systemLoad := Double.ofZ 0;
               lavalinkLoad := Double.ofZ 0 |} |}.

(** [ws.readyState] of the socket the node holds. *)
Inductive ReadyState := WS_CONNECTING | WS_OPEN | WS_CLOSING | WS_CLOSED.

Record t := {
  id : string;
  region : option string;
  priority : Double.t;
  host : string;
  port : nat;
  password : string;
  secure : bool;
  resumeKey : option string;
  resumeTimeout : nat;
  maxReconnectAttempts : nat;
  reconnectDelay : Q;
  userAgent : string;
  ws : option ReadyState;               (* WebSocket | null *)
  reconnectTimeout : option Q;          (* the pending timer and its delay *)
  reconnectAttempts : nat;
  sessionId : option string;
  clientId : option string;
  connectionState : ConnectionState;
  connected : bool;
  stats : NodeStats;
  lavalinkInfo : option LavalinkInfo;
  pluginCache : gmap string PluginInfo;
  infoFetchTime : N
}.

(** [NodeOptions] and the constructor [new Node(options, userAgent)]. *)
Record NodeOptions := {
  opt_id : string;
  opt_host : string;
  opt_port : nat;
  opt_password : string;
  opt_secure : option bool;
  opt_region : option string;
  opt_priority : option Double.t;
  opt_resumeKey : option string;
  opt_resumeTimeout : option nat;
  opt_maxReconnectAttempts : option nat;
  opt_reconnectDelay : option Q
}.

Definition create (options : NodeOptions) (agent : string) : t :=
  {| id := opt_id options; region := opt_region options;
     priority := default (Double.ofZ 0) (opt_priority options);
     host := opt_host options; port := opt_port options;
     password := opt_password options;
     secure := default false (opt_secure options);
     resumeKey := opt_resumeKey options;
     resumeTimeout := default 60 (opt_resumeTimeout options);
     maxReconnectAttempts := default 5 (opt_maxReconnectAttempts options);
     reconnectDelay := default 3000%Q (opt_reconnectDelay options);
     userAgent := agent; ws := None; reconnectTimeout := None;
     reconnectAttempts := 0; sessionId := None; clientId := None;
     connectionState := DISCONNECTED; connected := false;
     stats := initialStats; lavalinkInfo := None; pluginCache := ∅;
     infoFetchTime := 0 |}.

(** Assignments to the fields of the node. *)
Definition set_ws (v : option ReadyState) (n : t) : t :=
  {| id := id n; region := region n; priority := priority n; host := host n;
     port := port n; password := password n; secure := secure n; resumeKey
     := resumeKey n; resumeTimeout := resumeTimeout n; maxReconnectAttempts
     := maxReconnectAttempts n; reconnectDelay := reconnectDelay n;
     userAgent := userAgent n; ws := v; reconnectTimeout := reconnectTimeout
     n; reconnectAttempts := reconnectAttempts n; sessionId := sessionId n;
     clientId := clientId n; connectionState := connectionState n; connected
     := connected n; stats := stats n; lavalinkInfo := lavalinkInfo n;
     pluginCache := pluginCache n; infoFetchTime := infoFetchTime n |}.

Definition set_reconnectTimeout (v : option Q) (n : t) : t :=
  {| id := id n; region := region n; priority := priority n; host := host n;
     port := port n; password := password n; secure := secure n; resumeKey
     := resumeKey n; resumeTimeout := resumeTimeout n; maxReconnectAttempts
     := maxReconnectAttempts n; reconnectDelay := reconnectDelay n;
     userAgent := userAgent n; ws := ws n; reconnectTimeout := v;
     reconnectAttempts := reconnectAttempts n; sessionId := sessionId n;
     clientId := clientId n; connectionState := connectionState n; connected
     := connected n; stats := stats n; lavalinkInfo := lavalinkInfo n;
     pluginCache := pluginCache n; infoFetchTime := infoFetchTime n |}.

Definition set_reconnectAttempts (v : nat) (n : t) : t :=
  {| id := id n; region := region n; priority := priority n; host := host n;
     port := port n; password := password n; secure := secure n; resumeKey
     := resumeKey n; resumeTimeout := resumeTimeout n; maxReconnectAttempts
     := maxReconnectAttempts n; reconnectDelay := reconnectDelay n;
     userAgent := userAgent n; ws := ws n; reconnectTimeout :=
     reconnectTimeout n; reconnectAttempts := v; sessionId := sessionId n;
     clientId := clientId n; connectionState := connectionState n; connected
     := connected n; stats := stats n; lavalinkInfo := lavalinkInfo n;
     pluginCache := pluginCache n; infoFetchTime := infoFetchTime n |}.

Definition set_sessionId (v : option string) (n : t) : t :=
  {| id := id n; region := region n; priority := priority n; host := host n;
     port := port n; password := password n; secure := secure n; resumeKey
     := resumeKey n; resumeTimeout := resumeTimeout n; maxReconnectAttempts
     := maxReconnectAttempts n; reconnectDelay := reconnectDelay n;
     userAgent := userAgent n; ws := ws n; reconnectTimeout :=
     reconnectTimeout n; reconnectAttempts := reconnectAttempts n; sessionId
     := v; clientId := clientId n; connectionState := connectionState n;
     connected := connected n; stats := stats n; lavalinkInfo :=
     lavalinkInfo n; pluginCache := pluginCache n; infoFetchTime :=
     infoFetchTime n |}.

Definition set_clientId (v : option string) (n : t) : t :=
  {| id := id n; region := region n; priority := priority n; host := host n;
     port := port n; password := password n; secure := secure n; resumeKey
     := resumeKey n; resumeTimeout := resumeTimeout n; maxReconnectAttempts
     := maxReconnectAttempts n; reconnectDelay := reconnectDelay n;
     userAgent := userAgent n; ws := ws n; reconnectTimeout :=
     reconnectTimeout n; reconnectAttempts := reconnectAttempts n; sessionId
     := sessionId n; clientId := v; connectionState := connectionState n;
     connected := connected n; stats := stats n; lavalinkInfo :=
     lavalinkInfo n; pluginCache := pluginCache n; infoFetchTime :=
     infoFetchTime n |}.

Definition set_connectionState (v : ConnectionState) (n : t) : t :=
  {| id := id n; region := region n; priority := priority n; host := host n;
     port := port n; password := password n; secure := secure n; resumeKey
     := resumeKey n; resumeTimeout := resumeTimeout n; maxReconnectAttempts
     := maxReconnectAttempts n; reconnectDelay := reconnectDelay n;
     userAgent := userAgent n; ws := ws n; reconnectTimeout :=
     reconnectTimeout n; reconnectAttempts := reconnectAttempts n; sessionId
     := sessionId n; clientId := clientId n; connectionState := v; connected
     := connected n; stats := stats n; lavalinkInfo := lavalinkInfo n;
     pluginCache := pluginCache n; infoFetchTime := infoFetchTime n |}.

Definition set_connected (v : bool) (n : t) : t :=
  {| id := id n; region := region n; priority := priority n; host := host n;
     port := port n; password := password n; secure := secure n; resumeKey
     := resumeKey n; resumeTimeout := resumeTimeout n; maxReconnectAttempts
     := maxReconnectAttempts n; reconnectDelay := reconnectDelay n;
     userAgent := userAgent n; ws := ws n; reconnectTimeout :=
     reconnectTimeout n; reconnectAttempts := reconnectAttempts n; sessionId
     := sessionId n; clientId := clientId n; connectionState :=
     connectionState n; connected := v; stats := stats n; lavalinkInfo :=
     lavalinkInfo n; pluginCache := pluginCache n; infoFetchTime :=
     infoFetchTime n |}.

Definition set_stats (v : NodeStats) (n : t) : t :=
  {| id := id n; region := region n; priority := priority n; host := host n;
     port := port n; password := password n; secure := secure n; resumeKey
     := resumeKey n; resumeTimeout := resumeTimeout n; maxReconnectAttempts
     := maxReconnectAttempts n; reconnectDelay := reconnectDelay n;
     userAgent := userAgent n; ws := ws n; reconnectTimeout :=
     reconnectTimeout n; reconnectAttempts := reconnectAttempts n; sessionId
     := sessionId n; clientId := clientId n; connectionState :=
     connectionState n; connected := connected n; stats := v; lavalinkInfo
     := lavalinkInfo n; pluginCache := pluginCache n; infoFetchTime :=
     infoFetchTime n |}.

Definition INFO_CACHE_TTL : N := 300000.

(** Everything a node does that can be seen from outside. *)
Inductive Event :=
  | EvConnect (nodeId : string)
  | EvReady (sessionId : string) (resumed : bool)
  | EvStats (s : NodeStats)
  | EvDisconnect (nodeId reason : string) (code : nat)
  | EvReconnect (nodeId : string) (attempt : nat) (delay : Q)
  | EvError (nodeId : string) (e : JsError)
  | EvInfoUpdate (nodeId : string) (i : LavalinkInfo)
  | EvPluginLoaded (nodeId : string) (p : PluginInfo)
  | EvVoiceUpdate (guild_id : string) (channel_id : option string)
      (self_mute self_deaf : bool)
  | EvOther (name : string).

Inductive Effect :=
  | Emit (ev : Event)                               (* this.emit(...) *)
  | Fetch (req : Request)                           (* network I/O *)
  | WsNew (url : string) (sessionHeader : option string)
  | WsSend (payload : string)
  | WsClose (code : nat) (reason : string)
  | SetTimeout (delay : Q)
  | ClearTimeout
  | ConsoleError (e : JsError).

Definition isFetch (e : Effect) : bool :=
  match e with
  | Fetch _ => true
  | _ => false
  end.

(** A method of the node: the value returned or the error thrown, the node
    afterwards, and what it did, in order. *)
Definition M (A : Type) := t -> Result A * t * list Effect.

Definition ret {A} (a : A) : M A := fun n => (Ok a, n, []).
Definition throw {A} (e : JsError) : M A := fun n => (Err e, n, []).
Definition bind {A B} (m : M A) (k : A -> M B) : M B := fun n =>
  match m n with
  | (Ok a, n1, eff1) => let '(r, n2, eff2) := k a n1 in (r, n2, eff1 ++ eff2)
  | (Err e, n1, eff1) => (Err e, n1, eff1)
  end.
Definition tryCatch {A} (m : M A) (handler : JsError -> M A) : M A := fun n =>
  match m n with
  | (Ok a, n1, eff1) => (Ok a, n1, eff1)
  | (Err e, n1, eff1) => let '(r, n2, eff2) := handler e n1 in (r, n2, eff1 ++ eff2)
  end.
Definition get : M t := fun n => (Ok n, n, []).
Definition put (n' : t) : M unit := fun _ => (Ok tt, n', []).
Definition modify (f : t -> t) : M unit := fun n => (Ok tt, f n, []).
Definition effect (e : Effect) : M unit := fun n => (Ok tt, n, [e]).
Definition emit (ev : Event) : M unit := effect (Emit ev).

#[global] Instance node_ret : MRet M := @ret.
#[global] Instance node_bind : MBind M := fun A B k m => bind m k.

Definition result {A} (o : Result A * t * list Effect) : Result A := o.1.1.
Definition after {A} (o : Result A * t * list Effect) : t := o.1.2.
Definition effects {A} (o : Result A * t * list Effect) : list Effect := o.2.

Definition wsUrl (n : t) : string :=
  ((if secure n then "wss" else "ws") ++ "://" ++ host n ++ ":" ++ pretty (port n)
   ++ "/v4/websocket")%string.

Definition restUrl (n : t) : string :=
  ((if secure n then "https" else "http") ++ "://" ++ host n ++ ":" ++ pretty (port n)
   ++ "/v4")%string.

(** [get isReady()] *)
Definition isReady (n : t) : bool :=
  connected n && match sessionId n with Some _ => true | None => false end.

Definition notReadyError (n : t) : JsError :=
  PlainError ("Node " ++ id n ++ " is not ready (no sessionId). Current state: "
              ++ stateName (connectionState n))%string.

Definition notConnectedError (n : t) : JsError :=
  PlainError ("Node " ++ id n ++ " is not connected. Current state: "
              ++ stateName (connectionState n))%string.

(** [fetchWithTimeout(url, options, timeout)] *)
Definition fetchWithTimeout (net : Net) (req : Request) : M Response :=
  effect (Fetch req) ;;
  match net req with
  | Responded r => ret r
  | AbortError =>
      throw (PlainError ("Request timeout after " ++ pretty (timeout req) ++ "ms")%string)
  | NetworkError m => throw (PlainError m)
  end.

(** [errorBody.message || "Unknown error"], with
    [errorBody = await response.json().catch(() => ({ message: "Unknown error" }))].
    Reading the [message] of [null] throws a [TypeError]. *)
Definition errorBodyMessage (r : Response) : M string :=
  match jsonMessage r with
  | ErrorNotJson => ret "Unknown error"%string
  | ErrorNull =>
      throw (PlainError "Cannot read properties of null (reading 'message')")
  | ErrorObject m => ret (if truthy m then default EmptyString m else "Unknown error"%string)
  end.

Definition emitAndRethrow {A} (e : JsError) : M A :=
  n ← get; emit (EvError (id n) e) ;; throw e.

Definition playerUrl (n : t) (sid guildId : string) : string :=
  (restUrl n ++ "/sessions/" ++ sid ++ "/players/" ++ guildId)%string.

(** [updatePlayer(guildId, payload, noReplace = false)] *)
Definition updatePlayer (net : Net) (guildId : string)
    (payload : UpdatePlayerPayload) (noReplace : bool) : M unit :=
  n ← get;
  match sessionId n with
  | Some sid =>
      if negb (truthy (Some sid)) then throw (notReadyError n)
      else
        let url := (playerUrl n sid guildId
                    ++ (if noReplace then "?noReplace=true" else EmptyString))%string in
        tryCatch
          (response ← fetchWithTimeout net
             {| method := "PATCH"; url := url; authorization := password n;
                body := Some (BodyPayload payload); timeout := 5000%N |};
           if negb (ok response) then
             message ← errorBodyMessage response;
             throw (PlainError ("[" ++ pretty (status response)
                                ++ "] Failed to update player: " ++ message)%string)
           else ret tt)
          emitAndRethrow
  | None => throw (notReadyError n)
  end.

(** [destroyPlayer(guildId)] *)
Definition destroyPlayer (net : Net) (guildId : string) : M unit :=
  n ← get;
  match sessionId n with
  | Some sid =>
      if negb (truthy (Some sid)) then throw (notReadyError n)
      else
        tryCatch
          (response ← fetchWithTimeout net
             {| method := "DELETE"; url := playerUrl n sid guildId;
                authorization := password n; body := None; timeout := 5000%N |};
           if negb (ok response) && negb (Nat.eqb (status response) 404) then
             message ← errorBodyMessage response;
             throw (PlainError ("[" ++ pretty (status response)
                                ++ "] Failed to destroy player: " ++ message)%string)
           else ret tt)
          (fun error =>
             (if negb (includes (errorMessage error) "404") then
                effect (ConsoleError error) ;; emit (EvError (id n) error)
              else ret tt) ;;
             throw error)
  | None => throw (notReadyError n)
  end.

(** The common shape of [loadTracks], [decodeTrack] and [decodeTracks]: the
    [connected] guard, one request, the status check, [response.json()]. *)
Definition getJson (net : Net) (req : Request) (what : string) : M string :=
  n ← get;
  if negb (connected n) then throw (notConnectedError n)
  else
    tryCatch
      (response ← fetchWithTimeout net req;
       if negb (ok response) then
         throw (PlainError ("Failed to " ++ what ++ ": " ++ pretty (status response)
                            ++ " " ++ statusText response)%string)
       else
         match jsonData response with
         | Some data => ret data
         | None => throw (PlainError "Unexpected end of JSON input")
         end)
      emitAndRethrow.

(** [loadTracks(identifier)]; the identifier goes into the query string. *)
Definition loadTracks (net : Net) (identifier : string) : M string :=
  n ← get;
  getJson net
    {| method := "GET"; url := (restUrl n ++ "/loadtracks?identifier=" ++ identifier)%string;
       authorization := password n; body := None; timeout := 10000%N |}
    "load tracks".

(** [decodeTrack(encoded)] *)
Definition decodeTrack (net : Net) (encoded : string) : M string :=
  n ← get;
  getJson net
    {| method := "GET"; url := (restUrl n ++ "/decodetrack?encodedTrack=" ++ encoded)%string;
       authorization := password n; body := None; timeout := 5000%N |}
    "decode track".

(** [decodeTracks(encoded)] *)
Definition decodeTracks (net : Net) (encoded : list string) : M string :=
  n ← get;
  getJson net
    {| method := "POST"; url := (restUrl n ++ "/decodetracks")%string;
       authorization := password n; body := Some (BodyEncoded encoded);
       timeout := 10000%N |}
    "decode tracks".

(** [this.pluginCache.clear()] followed by one [set] per plugin. *)
Definition buildPluginCache (ps : list PluginInfo) : gmap string PluginInfo :=
  foldl (fun m p => <[pl_name p := p]> m) ∅ ps.

Definition setInfo (info : LavalinkInfo) (now : N) (n : t) : t :=
  {| id := id n; region := region n; priority := priority n; host := host n;
     port := port n; password := password n; secure := secure n;
     resumeKey := resumeKey n; resumeTimeout := resumeTimeout n;
     maxReconnectAttempts := maxReconnectAttempts n;
     reconnectDelay := reconnectDelay n; userAgent := userAgent n; ws := ws n;
     reconnectTimeout := reconnectTimeout n;
     reconnectAttempts := reconnectAttempts n; sessionId := sessionId n;
     clientId := clientId n; connectionState := connectionState n;
     connected := connected n; stats := stats n;
     lavalinkInfo := Some info;
     pluginCache := buildPluginCache (pluginsRead info);
     infoFetchTime := now |}.

(** [this.lavalinkInfo = null; this.infoFetchTime = now;
    this.pluginCache.clear()] *)
Definition clearInfo (now : N) (n : t) : t :=
  {| id := id n; region := region n; priority := priority n; host := host n;
     port := port n; password := password n; secure := secure n;
     resumeKey := resumeKey n; resumeTimeout := resumeTimeout n;
     maxReconnectAttempts := maxReconnectAttempts n;
     reconnectDelay := reconnectDelay n; userAgent := userAgent n; ws := ws n;
     reconnectTimeout := reconnectTimeout n;
     reconnectAttempts := reconnectAttempts n; sessionId := sessionId n;
     clientId := clientId n; connectionState := connectionState n;
     connected := connected n; stats := stats n;
     lavalinkInfo := None;
     pluginCache := ∅;
     infoFetchTime := now |}.

(** The request of [getInfo] and the update of the two caches.  The body
    is assigned to [lavalinkInfo], the time to [infoFetchTime] and the
    plugin cache is cleared before the loop over [info.plugins], which
    throws a [TypeError] when the body is [null], when it has no array of
    plugins, and at a [null] of the array. *)
Definition fetchInfo (net : Net) (now : N) : M LavalinkInfo :=
  n ← get;
  tryCatch
    (response ← fetchWithTimeout net
       {| method := "GET"; url := (restUrl n ++ "/info")%string;
          authorization := password n; body := None; timeout := 5000%N |};
     if negb (ok response) then
       throw (PlainError ("Failed to get server info: "
                          ++ pretty (status response) ++ " "
                          ++ statusText response)%string)
     else
       match jsonInfo response with
       | InfoNotJson => throw (PlainError "Unexpected end of JSON input")
       | InfoNull =>
           put (clearInfo now n) ;;
           throw (PlainError "Cannot read properties of null (reading 'plugins')")
       | InfoObject info =>
           put (setInfo info now n) ;;
           match pluginsError info with
           | None => ret info
           | Some error => throw error
           end
       end)
    emitAndRethrow.

(** [getInfo(forceRefresh = false)]; [now] is [Date.now()]. *)
Definition getInfo (net : Net) (now : N) (forceRefresh : bool) : M LavalinkInfo :=
  n ← get;
  if negb (connected n) then throw (notConnectedError n)
  else
    match lavalinkInfo n with
    | Some info =>
        if negb forceRefresh && N.ltb (now - infoFetchTime n)%N INFO_CACHE_TTL
        then ret info
        else fetchInfo net now
    | None => fetchInfo net now
    end.

(** [hasPlugin(pluginName, forceRefresh = false)] *)
Definition hasPlugin (net : Net) (now : N) (pluginName : string)
    (forceRefresh : bool) : M bool :=
  n ← get;
  if negb forceRefresh && Nat.ltb 0 (size (pluginCache n)) then
    ret (bool_decide (is_Some (pluginCache n !! pluginName)))
  else
    (getInfo net now forceRefresh ;;
     n' ← get;
     ret (bool_decide (is_Some (pluginCache n' !! pluginName)))).

(** [pluginRequest(pluginName, endpoint, options)]; [options] gives the
    method and the body. *)
Definition pluginRequest (net : Net) (now : N) (pluginName endpoint : string)
    (optMethod : string) (optBody : option string) : M string :=
  n ← get;
  if negb (connected n) then throw (notConnectedError n)
  else
    (has ← hasPlugin net now pluginName false;
    if negb has then
      throw (PlainError ("Plugin " ++ dquote ++ pluginName ++ dquote
                         ++ " is not installed on node " ++ id n)%string)
    else
      let cleanEndpoint :=
        if String.prefix "/" endpoint
        then String.substring 1 (String.length endpoint - 1) endpoint
        else endpoint in
      tryCatch
        (response ← fetchWithTimeout net
           {| method := optMethod; url := (restUrl n ++ "/" ++ cleanEndpoint)%string;
              authorization := password n; body := option_map BodyText optBody;
              timeout := 10000%N |};
         if negb (ok response) then
           message ← errorBodyMessage response;
           throw (PlainError ("[" ++ pretty (status response)
                              ++ "] Plugin request failed: " ++ message)%string)
         else
           match contentType response with
           | Some ct =>
               if includes ct "application/json" then
                 match jsonData response with
                 | Some data => ret data
                 | None => throw (PlainError "Unexpected end of JSON input")
                 end
               else ret "{}"%string
           | None => ret "{}"%string
           end)
        emitAndRethrow).

(** The REST operations of the node, and their values. *)
Inductive RestOp :=
  | UpdatePlayer (guildId : string) (payload : UpdatePlayerPayload) (noReplace : bool)
  | DestroyPlayer (guildId : string)
  | LoadTracks (identifier : string)
  | DecodeTrack (encoded : string)
  | DecodeTracks (encoded : list string)
  | GetInfo (forceRefresh : bool)
  | PluginRequest (pluginName endpoint method : string) (body : option string).

Inductive RestValue :=
  | RestVoid
  | RestJson (data : string)
  | RestInfo (info : LavalinkInfo).

Definition rest (net : Net) (now : N) (op : RestOp) : M RestValue :=
  match op with
  | UpdatePlayer guildId payload noReplace =>
      updatePlayer net guildId payload noReplace ;; ret RestVoid
  | DestroyPlayer guildId => destroyPlayer net guildId ;; ret RestVoid
  | LoadTracks identifier => data ← loadTracks net identifier; ret (RestJson data)
  | DecodeTrack encoded => data ← decodeTrack net encoded; ret (RestJson data)
  | DecodeTracks encoded => data ← decodeTracks net encoded; ret (RestJson data)
  | GetInfo forceRefresh => info ← getInfo net now forceRefresh; ret (RestInfo info)
  | PluginRequest pluginName endpoint method body =>
      data ← pluginRequest net now pluginName endpoint method body; ret (RestJson data)
  end.

(** The field that the guard of an operation reads: [this.sessionId] for the
    two player operations, [this.connected] for the others. *)
Definition guardPasses (op : RestOp) (n : t) : bool :=
  match op with
  | UpdatePlayer _ _ _ | DestroyPlayer _ => truthy (sessionId n)
  | _ => connected n
  end.

(** The error that the guard of an operation throws. *)
Definition guardError (op : RestOp) (n : t) : JsError :=
  match op with
  | UpdatePlayer _ _ _ | DestroyPlayer _ => notReadyError n
  | _ => notConnectedError n
  end.

(** [send(payload)]; the payload is kept as its JSON text. *)
Definition send (payload : string) : M unit :=
  n ← get;
  match ws n with
  | Some WS_OPEN => effect (WsSend payload)
  | _ =>
      throw (PlainError ("Node " ++ id n ++ " is not connected (state: "
                         ++ stateName (connectionState n) ++ ")")%string)
  end.

(** [scheduleReconnect()]; [u] is the value of [Math.random()]. *)
Definition scheduleReconnect (u : Q) : M unit :=
  n ← get;
  match reconnectTimeout n with
  | Some _ => effect ClearTimeout
  | None => ret tt
  end ;;
  if negb (truthy (clientId n)) then
    emit (EvError (id n) (PlainError "Cannot reconnect: clientId not available"))
  else
    (modify (set_connectionState RECONNECTING) ;;
     modify (set_reconnectAttempts (reconnectAttempts n + 1)) ;;
     let delay :=
       Qmin (reconnectDelay n * inject_Z (2 ^ Z.of_nat (reconnectAttempts n + 1 - 1))
             + u * 1000)
            30000 in
     emit (EvReconnect (id n) (reconnectAttempts n + 1) delay) ;;
     effect (SetTimeout delay) ;;
     modify (set_reconnectTimeout (Some delay))).

(** [connect(clientId)]; [socketError] is what [new WebSocket(...)] throws,
    if it throws. *)
Definition connect (cid : string) (socketError : option JsError) (u : Q) : M unit :=
  n ← get;
  match connectionState n, ws n with
  | CONNECTING, _ => ret tt
  | _, Some WS_OPEN => ret tt
  | _, _ =>
      modify (set_clientId (Some cid)) ;;
      modify (set_connectionState CONNECTING) ;;
      match socketError with
      | None =>
          effect (WsNew (wsUrl n)
                    (if truthy (resumeKey n)
                     then Some (default EmptyString (sessionId n))
                     else None)) ;;
          modify (set_ws (Some WS_CONNECTING))
      | Some error =>
          modify (set_connectionState DISCONNECTED) ;;
          emit (EvError (id n) error) ;;
          if Nat.ltb (reconnectAttempts n) (maxReconnectAttempts n)
          then scheduleReconnect u else ret tt
      end
  end.

(** [disconnect()]; [closeError] is what [ws.close] throws, if it throws. *)
Definition disconnect (closeError : option JsError) : M unit :=
  n ← get;
  match ws n with
  | None => ret tt
  | Some _ =>
      modify (set_connectionState DISCONNECTED) ;;
      modify (set_connected false) ;;
      match reconnectTimeout n with
      | Some _ => effect ClearTimeout ;; modify (set_reconnectTimeout None)
      | None => ret tt
      end ;;
      effect (WsClose 1000 "Client disconnect") ;;
      match closeError with
      | Some error => effect (ConsoleError error)
      | None => ret tt
      end ;;
      modify (set_ws None) ;;
      if negb (truthy (resumeKey n)) then modify (set_sessionId None) else ret tt
  end.

(** [discoverPlugins()] *)
Definition discoverPlugins (net : Net) (now : N) : M unit :=
  tryCatch
    (info ← getInfo net now true;
     n ← get;
     emit (EvInfoUpdate (id n) info) ;;
     foldr (fun plugin rest => emit (EvPluginLoaded (id n) plugin) ;; rest)
           (ret tt) (plugins info))
    (fun error =>
       throw (PlainError ("Failed to discover plugins: " ++ errorMessage error)%string)).

(** The handler of the socket's [open] event.  The socket that raises the
    event is then open; the promise of [discoverPlugins] is followed to its
    end within the same step. *)
Definition onOpen (net : Net) (now : N) : M unit :=
  modify (fun n => match ws n with Some _ => set_ws (Some WS_OPEN) n | None => n end) ;;
  modify (set_connected true) ;;
  modify (set_connectionState CONNECTED) ;;
  modify (set_reconnectAttempts 0) ;;
  n ← get;
  emit (EvConnect (id n)) ;;
  (if truthy (resumeKey n) && negb (truthy (sessionId n)) then
     tryCatch
       (send ("{op:configureResuming,key:" ++ default EmptyString (resumeKey n)
              ++ ",timeout:" ++ pretty (resumeTimeout n) ++ "}")%string)
       (fun error => emit (EvError (id n) error))
   else ret tt) ;;
  tryCatch (discoverPlugins net now) (fun error => emit (EvError (id n) error)).

(** A frame received on the socket, after [JSON.parse]. *)
Inductive Frame :=
  | FrameReady (sessionId : string) (resumed : bool)
  | FrameStats (s : NodeStats)
  | FrameEvent (name : string)
  | FramePlayerUpdate (name : string)
  | FrameOther (name : string)
  | FrameInvalid (parseError : JsError).

(** The handler of the socket's [message] event. *)
Definition onMessage (frame : Frame) : M unit :=
  n ← get;
  match frame with
  | FrameReady sid resumed =>
      modify (set_sessionId (Some sid)) ;; emit (EvReady sid resumed)
  | FrameStats s => modify (set_stats s) ;; emit (EvStats s)
  | FrameEvent name => emit (EvOther name)
  | FramePlayerUpdate name => emit (EvOther name)
  | FrameOther name => emit (EvOther name)
  | FrameInvalid error => emit (EvError (id n) error)
  end.

(** The handler of the socket's [close] event; [u] is the value of
    [Math.random()] used if a reconnection is scheduled. *)
Definition onClose (code : nat) (reason : string) (u : Q) : M unit :=
  modify (set_connected false) ;;
  modify (set_ws None) ;;
  n ← get;
  (if negb (truthy (resumeKey n)) || Nat.eqb code 1000
   then modify (set_sessionId None) else ret tt) ;;
  (match connectionState n with
   | RECONNECTING => ret tt
   | _ => modify (set_connectionState DISCONNECTED)
   end) ;;
  emit (EvDisconnect (id n) reason code) ;;
  if negb (Nat.eqb code 1000) && Nat.ltb (reconnectAttempts n) (maxReconnectAttempts n)
  then scheduleReconnect u
  else if Nat.leb (maxReconnectAttempts n) (reconnectAttempts n) then
    emit (EvError (id n)
            (PlainError ("Max reconnection attempts ("
                         ++ pretty (maxReconnectAttempts n) ++ ") reached")%string))
  else ret tt.

(** [get state()] *)
Definition state (n : t) : ConnectionState := connectionState n.

(** [getPlugins(forceRefresh = false)]; [None] is [undefined]. *)
Definition getPlugins (net : Net) (now : N) (forceRefresh : bool)
  : M (option (list (option PluginInfo))) :=
  info ← getInfo net now forceRefresh; ret (pluginList info).

(** [getPluginInfo(pluginName, forceRefresh = false)]; [None] is [null]. *)
Definition getPluginInfo (net : Net) (now : N) (pluginName : string)
    (forceRefresh : bool) : M (option PluginInfo) :=
  n ← get;
  if negb forceRefresh && Nat.ltb 0 (size (pluginCache n)) then
    ret (pluginCache n !! pluginName)
  else
    (getInfo net now forceRefresh ;;
     n' ← get;
     ret (pluginCache n' !! pluginName)).

(** [getVersion(forceRefresh = false)] *)
Definition getVersion (net : Net) (now : N) (forceRefresh : bool) : M string :=
  info ← getInfo net now forceRefresh; ret (semver info).

(** [getSourceManagers(forceRefresh = false)] *)
Definition getSourceManagers (net : Net) (now : N) (forceRefresh : bool)
  : M (list string) :=
  info ← getInfo net now forceRefresh; ret (sourceManagers info).

(** [getFilters(forceRefresh = false)] *)
Definition getFilters (net : Net) (now : N) (forceRefresh : bool)
  : M (list string) :=
  info ← getInfo net now forceRefresh; ret (filters info).

(** The handler of the socket's [error] event. *)
Definition onError (error : JsError) : M unit :=
  n ← get; emit (EvError (id n) error).

(** The callback of the timer that [scheduleReconnect] sets.  The timer is
    set only after [clientId] was found to be set, and [clientId] is never
    unset, so that [this.clientId!] is a string. *)
Definition onReconnectTimer (socketError : option JsError) (u : Q) : M unit :=
  n ← get;
  match connectionState n with
  | RECONNECTING => connect (default EmptyString (clientId n)) socketError u
  | _ => ret tt
  end.

(** What happens to a node: a call of one of its methods, an event of its
    socket, or its timer going off, which takes a timer that is set. *)
Inductive Input :=
  | CallConnect (clientId : string) (socketError : option JsError) (u : Q)
  | CallDisconnect (closeError : option JsError)
  | CallSend (payload : string)
  | CallRest (net : Net) (now : N) (op : RestOp)
  | SocketOpen (net : Net) (now : N)
  | SocketMessage (frame : Frame)
  | SocketClose (code : nat) (reason : string) (u : Q)
  | SocketError (error : JsError)
  | TimerFires (socketError : option JsError) (u : Q).

Definition handle (i : Input) : M unit :=
  match i with
  | CallConnect cid socketError u => connect cid socketError u
  | CallDisconnect closeError => disconnect closeError
  | CallSend payload => send payload
  | CallRest net now op => rest net now op ;; ret tt
  | SocketOpen net now => onOpen net now
  | SocketMessage frame => onMessage frame
  | SocketClose code reason u => onClose code reason u
  | SocketError error => onError error
  | TimerFires socketError u =>
      n ← get;
      match reconnectTimeout n with
      | Some _ => onReconnectTimer socketError u
      | None => ret tt
      end
  end.

(** A sequence of inputs, one after the other; an error thrown by a call
    goes to its caller and the node goes on.  The node at the end and
    everything that it did. *)
Fixpoint run (inputs : list Input) (n : t) : t * list Effect :=
  match inputs with
  | [] => (n, [])
  | i :: rest =>
      let '(_, n1, eff1) := handle i n in
      let '(n2, eff2) := run rest n1 in
      (n2, eff1 ++ eff2)
  end.

End Node.

(** [ValidationUtils] *)
Module ValidationUtils.

(** [isValidVolume(volume)] *)
Definition isValidVolume (volume : Q) : bool :=
  isInteger volume && Qle_bool 0 volume && Qle_bool volume 1000.

(** [isValidPosition(position)] *)
Definition isValidPosition (position : Q) : bool :=
  isInteger position && Qle_bool 0 position.

Definition isDigit (c : ascii) : bool :=
  let n := nat_of_ascii c in Nat.leb 48 n && Nat.leb n 57.

(** [/^\d{17,20}$/.test(s)] *)
Definition isSnowflake (s : string) : bool :=
  forallb isDigit (list_ascii_of_string s)
  && Nat.leb 17 (String.length s) && Nat.leb (String.length s) 20.

Definition isValidGuildId (guildId : string) : bool := isSnowflake guildId.
Definition isValidChannelId (channelId : string) : bool := isSnowflake channelId.

End ValidationUtils.

Record VoiceServerUpdate := {
  vs_token : string;
  vs_guild_id : string;
  vs_endpoint : option string
}.

Record VoiceStateUpdate := {
  st_guild_id : string;
  st_user_id : string;
  st_session_id : string;
  st_channel_id : option string
}.

Module Player.

Record t := {
  guildId : string;
  nodeId : string;
  track : option Track;
  voiceChannel : option string;
  textChannel : option string;
  volume : Q;
  paused : bool;
  playing : bool;
  position : Q;
  connected : bool;
  queue : Queue.t;
  autoplay : bool;
  voiceServer : option VoiceServerUpdate;
  voiceState : option VoiceStateUpdate;
  destroyed : bool
}.

(** [new Player(guildId, node)] *)
Definition create (guildId nodeId : string) : t :=
  {| guildId := guildId; nodeId := nodeId; track := None; voiceChannel := None;
     textChannel := None; volume := 100; paused := false; playing := false;
     position := 0; connected := false; queue := Queue.empty; autoplay := true;
     voiceServer := None; voiceState := None; destroyed := false |}.

(** Assignments to the fields of the player. *)
Definition set_track (v : option Track) (p : t) : t :=
  {| guildId := guildId p; nodeId := nodeId p; track := v; voiceChannel :=
     voiceChannel p; textChannel := textChannel p; volume := volume p;
     paused := paused p; playing := playing p; position := position p;
     connected := connected p; queue := queue p; autoplay := autoplay p;
     voiceServer := voiceServer p; voiceState := voiceState p; destroyed :=
     destroyed p |}.

Definition set_voiceChannel (v : option string) (p : t) : t :=
  {| guildId := guildId p; nodeId := nodeId p; track := track p;
     voiceChannel := v; textChannel := textChannel p; volume := volume p;
     paused := paused p; playing := playing p; position := position p;
     connected := connected p; queue := queue p; autoplay := autoplay p;
     voiceServer := voiceServer p; voiceState := voiceState p; destroyed :=
     destroyed p |}.

Definition set_volume (v : Q) (p : t) : t :=
  {| guildId := guildId p; nodeId := nodeId p; track := track p;
     voiceChannel := voiceChannel p; textChannel := textChannel p; volume :=
     v; paused := paused p; playing := playing p; position := position p;
     connected := connected p; queue := queue p; autoplay := autoplay p;
     voiceServer := voiceServer p; voiceState := voiceState p; destroyed :=
     destroyed p |}.

Definition set_paused (v : bool) (p : t) : t :=
  {| guildId := guildId p; nodeId := nodeId p; track := track p;
     voiceChannel := voiceChannel p; textChannel := textChannel p; volume :=
     volume p; paused := v; playing := playing p; position := position p;
     connected := connected p; queue := queue p; autoplay := autoplay p;
     voiceServer := voiceServer p; voiceState := voiceState p; destroyed :=
     destroyed p |}.

Definition set_playing (v : bool) (p : t) : t :=
  {| guildId := guildId p; nodeId := nodeId p; track := track p;
     voiceChannel := voiceChannel p; textChannel := textChannel p; volume :=
     volume p; paused := paused p; playing := v; position := position p;
     connected := connected p; queue := queue p; autoplay := autoplay p;
     voiceServer := voiceServer p; voiceState := voiceState p; destroyed :=
     destroyed p |}.

Definition set_position (v : Q) (p : t) : t :=
  {| guildId := guildId p; nodeId := nodeId p; track := track p;
     voiceChannel := voiceChannel p; textChannel := textChannel p; volume :=
     volume p; paused := paused p; playing := playing p; position := v;
     connected := connected p; queue := queue p; autoplay := autoplay p;
     voiceServer := voiceServer p; voiceState := voiceState p; destroyed :=
     destroyed p |}.

Definition set_connected (v : bool) (p : t) : t :=
  {| guildId := guildId p; nodeId := nodeId p; track := track p;
     voiceChannel := voiceChannel p; textChannel := textChannel p; volume :=
     volume p; paused := paused p; playing := playing p; position :=
     position p; connected := v; queue := queue p; autoplay := autoplay p;
     voiceServer := voiceServer p; voiceState := voiceState p; destroyed :=
     destroyed p |}.

Definition set_queue (v : Queue.t) (p : t) : t :=
  {| guildId := guildId p; nodeId := nodeId p; track := track p;
     voiceChannel := voiceChannel p; textChannel := textChannel p; volume :=
     volume p; paused := paused p; playing := playing p; position :=
     position p; connected := connected p; queue := v; autoplay := autoplay
     p; voiceServer := voiceServer p; voiceState := voiceState p; destroyed
     := destroyed p |}.

Definition set_voiceServer (v : option VoiceServerUpdate) (p : t) : t :=
  {| guildId := guildId p; nodeId := nodeId p; track := track p;
     voiceChannel := voiceChannel p; textChannel := textChannel p; volume :=
     volume p; paused := paused p; playing := playing p; position :=
     position p; connected := connected p; queue := queue p; autoplay :=
     autoplay p; voiceServer := v; voiceState := voiceState p; destroyed :=
     destroyed p |}.

Definition set_voiceState (v : option VoiceStateUpdate) (p : t) : t :=
  {| guildId := guildId p; nodeId := nodeId p; track := track p;
     voiceChannel := voiceChannel p; textChannel := textChannel p; volume :=
     volume p; paused := paused p; playing := playing p; position :=
     position p; connected := connected p; queue := queue p; autoplay :=
     autoplay p; voiceServer := voiceServer p; voiceState := v; destroyed :=
     destroyed p |}.

Definition set_destroyed (v : bool) (p : t) : t :=
  {| guildId := guildId p; nodeId := nodeId p; track := track p;
     voiceChannel := voiceChannel p; textChannel := textChannel p; volume :=
     volume p; paused := paused p; playing := playing p; position :=
     position p; connected := connected p; queue := queue p; autoplay :=
     autoplay p; voiceServer := voiceServer p; voiceState := voiceState p;
     destroyed := v |}.

Inductive Event :=
  | EvError (e : JsError)
  | EvDestroy
  | EvQueueAdd (tracks : list Track) (queueLength : nat)
  | EvQueueRemove (track : Track) (index : Z)
  | EvQueueClear (count : nat)
  | EvQueueShuffle (queueLength : nat)
  | EvQueueEnd
  | EvLoopSet (mode : Queue.LoopMode).

Inductive Effect :=
  | Emit (ev : Event)                       (* this.emit(...) *)
  | OnNode (e : Node.Effect)                (* done by a method of the node *)
  | ConsoleError (e : JsError)
  | RemoveAllListeners.

(** A method of the player: the value returned or the error thrown, the
    player afterwards, and what it did, in order. *)
Definition M (A : Type) := t -> Result A * t * list Effect.

Definition ret {A} (a : A) : M A := fun p => (Ok a, p, []).
Definition throw {A} (e : JsError) : M A := fun p => (Err e, p, []).
Definition bind {A B} (m : M A) (k : A -> M B) : M B := fun p =>
  match m p with
  | (Ok a, p1, eff1) => let '(r, p2, eff2) := k a p1 in (r, p2, eff1 ++ eff2)
  | (Err e, p1, eff1) => (Err e, p1, eff1)
  end.
Definition tryCatch {A} (m : M A) (handler : JsError -> M A) : M A := fun p =>
  match m p with
  | (Ok a, p1, eff1) => (Ok a, p1, eff1)
  | (Err e, p1, eff1) => let '(r, p2, eff2) := handler e p1 in (r, p2, eff1 ++ eff2)
  end.
Definition get : M t := fun p => (Ok p, p, []).
Definition modify (f : t -> t) : M unit := fun p => (Ok tt, f p, []).
Definition effect (e : Effect) : M unit := fun p => (Ok tt, p, [e]).
Definition emit (ev : Event) : M unit := effect (Emit ev).

#[global] Instance player_ret : MRet M := @ret.
#[global] Instance player_bind : MBind M := fun A B k m => bind m k.

Definition result {A} (o : Result A * t * list Effect) : Result A := o.1.1.
Definition after {A} (o : Result A * t * list Effect) : t := o.1.2.
Definition effects {A} (o : Result A * t * list Effect) : list Effect := o.2.

(** A call of a method of the pinned node.  The two methods used here,
    [updatePlayer] and [destroyPlayer], leave the node as it is. *)
Definition onNode {A} (node : Node.t) (m : Node.M A) : M A := fun p =>
  let '(r, _, eff) := m node in (r, p, OnNode <$> eff).

Definition createError {A} (code : RiasErrorCode) (message : string) : M A :=
  throw (RiasError code message).

(** [checkDestroyed()] *)
Definition checkDestroyed : M unit :=
  p ← get;
  if destroyed p then createError PLAYER_NOT_FOUND "Player has been destroyed"
  else ret tt.

(** [checkNodeReady()] *)
Definition checkNodeReady (node : Node.t) : M unit :=
  if negb (Node.isReady node) then
    createError NODE_NOT_READY
      ("Node " ++ Node.id node
       ++ " is not ready. Please ensure the node is connected and initialized.")%string
  else ret tt.

Definition emitAndRethrow {A} (e : JsError) : M A := emit (EvError e) ;; throw e.

(** [connect(channelId, options)] *)
Definition connect (node : Node.t) (channelId : string) (mute deaf : option bool)
  : M unit :=
  checkDestroyed ;;
  if negb (ValidationUtils.isValidChannelId channelId) then
    createError INVALID_CHANNEL
      ("Invalid channel ID: " ++ channelId
       ++ ". Channel IDs must be a 17-20 digit string.")%string
  else
    (p ← get;
     modify (set_voiceChannel (Some channelId)) ;;
     effect (OnNode (Node.Emit (Node.EvVoiceUpdate (guildId p) (Some channelId)
                                  (default false mute) (default true deaf))))).

(** [destroy()] *)
Definition destroy (net : Net) (node : Node.t) : M unit :=
  p ← get;
  if destroyed p then ret tt
  else
    (modify (set_destroyed true) ;;
     tryCatch (onNode node (Node.destroyPlayer net (guildId p)))
              (fun error => effect (ConsoleError error)) ;;
     emit EvDestroy ;;
     effect RemoveAllListeners ;;
     modify (set_track None) ;;
     modify (fun p => set_queue (Queue.clear (queue p)) p) ;;
     modify (set_playing false) ;;
     modify (set_paused false) ;;
     modify (set_connected false) ;;
     modify (set_voiceServer None) ;;
     modify (set_voiceState None)).

(** [disconnect()] *)
Definition disconnect (net : Net) (node : Node.t) : M unit :=
  checkDestroyed ;;
  modify (set_voiceChannel None) ;;
  modify (set_connected false) ;;
  tryCatch
    (p ← get;
     effect (OnNode (Node.Emit (Node.EvVoiceUpdate (guildId p) None false false))) ;;
     destroy net node)
    emitAndRethrow.

(** [TrackResolvable] and [resolveTrack] *)
Inductive TrackResolvable := TrackString (encoded : string) | TrackObject (track : Track).

Definition resolveTrack (track : TrackResolvable) : string :=
  match track with
  | TrackString s => s
  | TrackObject tr => encoded tr
  end.

Record PlayOptions := {
  o_track : TrackResolvable;
  o_position : option Q;
  o_endTime : option Q;
  o_volume : option Q;
  o_paused : option bool;
  o_noReplace : option bool
}.

Definition invalidNumber {A} (code : RiasErrorCode) (what rule : string) : M A :=
  createError code ("Invalid " ++ what ++ ". " ++ rule)%string.

(** [play(options)] *)
Definition play (net : Net) (node : Node.t) (options : PlayOptions) : M unit :=
  checkDestroyed ;;
  checkNodeReady node ;;
  let track := resolveTrack (o_track options) in
  let noReplace := default false (o_noReplace options) in
  position ←
    match o_position options with
    | Some x =>
        if negb (ValidationUtils.isValidPosition x)
        then invalidNumber INVALID_POSITION "position" "Must be a non-negative integer."
        else ret (Some x)
    | None => ret None
    end;
  endTime ←
    match o_endTime options with
    | Some x =>
        if negb (ValidationUtils.isValidPosition x)
        then invalidNumber INVALID_POSITION "endTime" "Must be a non-negative integer."
        else ret (Some x)
    | None => ret None
    end;
  volume ←
    match o_volume options with
    | Some x =>
        if negb (ValidationUtils.isValidVolume x)
        then invalidNumber INVALID_VOLUME "volume" "Must be between 0 and 1000."
        else modify (set_volume x) ;; ret (Some x)
    | None => ret None
    end;
  match o_paused options with
  | Some b => modify (set_paused b)
  | None => ret tt
  end ;;
  p ← get;
  tryCatch
    (onNode node
       (Node.updatePlayer net (guildId p)
          {| p_encodedTrack := Some (Some track); p_identifier := None;
             p_position := position; p_endTime := endTime; p_volume := volume;
             p_paused := o_paused options; p_filters := None; p_voice := None |}
          noReplace) ;;
     modify (set_playing true))
    emitAndRethrow.

(** The shape shared by [stop], [pause], [seek], [setVolume], [setFilters] and
    [clearFilters]: one [updatePlayer] call, then the local update. *)
Definition patch (net : Net) (node : Node.t) (payload : UpdatePlayerPayload)
    (update : t -> t) : M unit :=
  p ← get;
  tryCatch
    (onNode node (Node.updatePlayer net (guildId p) payload false) ;;
     modify update)
    emitAndRethrow.

Definition payloadWith (f : UpdatePlayerPayload -> UpdatePlayerPayload)
  : UpdatePlayerPayload := f emptyPayload.

(** [stop()] *)
Definition stop (net : Net) (node : Node.t) : M unit :=
  checkDestroyed ;;
  checkNodeReady node ;;
  patch net node
    {| p_encodedTrack := Some None; p_identifier := None; p_position := None;
       p_endTime := None; p_volume := None; p_paused := None;
       p_filters := None; p_voice := None |}
    (fun p => set_playing false (set_track None p)).

(** [pause(state = true)] *)
Definition pause (net : Net) (node : Node.t) (state : bool) : M unit :=
  checkDestroyed ;;
  checkNodeReady node ;;
  patch net node
    {| p_encodedTrack := None; p_identifier := None; p_position := None;
       p_endTime := None; p_volume := None; p_paused := Some state;
       p_filters := None; p_voice := None |}
    (set_paused state).

(** [resume()] *)
Definition resume (net : Net) (node : Node.t) : M unit := pause net node false.

(** [seek(position)] *)
Definition seek (net : Net) (node : Node.t) (pos : Q) : M unit :=
  checkDestroyed ;;
  checkNodeReady node ;;
  p ← get;
  match track p with
  | None => createError NO_TRACK_PLAYING "No track is currently playing"
  | Some tr =>
      if negb (ValidationUtils.isValidPosition pos) then
        invalidNumber INVALID_POSITION "position" "Must be a non-negative integer."
      else if negb (isSeekable (info tr)) then
        createError INVALID_POSITION "Current track is not seekable"
      else
        patch net node
          {| p_encodedTrack := None; p_identifier := None; p_position := Some pos;
             p_endTime := None; p_volume := None; p_paused := None;
             p_filters := None; p_voice := None |}
          (set_position pos)
  end.

(** [setVolume(volume)] *)
Definition setVolume (net : Net) (node : Node.t) (v : Q) : M unit :=
  checkDestroyed ;;
  checkNodeReady node ;;
  if negb (ValidationUtils.isValidVolume v) then
    invalidNumber INVALID_VOLUME "volume" "Must be between 0 and 1000."
  else
    patch net node
      {| p_encodedTrack := None; p_identifier := None; p_position := None;
         p_endTime := None; p_volume := Some v; p_paused := None;
         p_filters := None; p_voice := None |}
      (set_volume v).

(** [setFilters(filters)] *)
Definition setFilters (net : Net) (node : Node.t) (f : FilterOptions) : M unit :=
  checkDestroyed ;;
  checkNodeReady node ;;
  patch net node
    {| p_encodedTrack := None; p_identifier := None; p_position := None;
       p_endTime := None; p_volume := None; p_paused := None;
       p_filters := Some f; p_voice := None |}
    (fun p => p).

(** [clearFilters()] *)
Definition clearFilters (net : Net) (node : Node.t) : M unit :=
  checkDestroyed ;;
  checkNodeReady node ;;
  patch net node
    {| p_encodedTrack := None; p_identifier := None; p_position := None;
       p_endTime := None; p_volume := None; p_paused := None;
       p_filters := Some EMPTY_FILTERS; p_voice := None |}
    (fun p => p).

(** [addTrack(track)] *)
Definition addTrack (tr : Track) : M unit :=
  checkDestroyed ;;
  modify (fun p => set_queue (Queue.add tr (queue p)) p) ;;
  p ← get;
  emit (EvQueueAdd [tr] (Queue.size (queue p))).

(** [addTracks(tracks)] *)
Definition addTracks (ts : list Track) : M unit :=
  checkDestroyed ;;
  modify (fun p => set_queue (Queue.addMany ts (queue p)) p) ;;
  p ← get;
  emit (EvQueueAdd ts (Queue.size (queue p))).

(** [removeTrack(index)] *)
Definition removeTrack (index : Z) : M (option Track) :=
  checkDestroyed ;;
  p ← get;
  let '(removed, q') := Queue.remove index (queue p) in
  modify (set_queue q') ;;
  match removed with
  | Some tr => emit (EvQueueRemove tr index)
  | None => ret tt
  end ;;
  ret removed.

(** [clearQueue()] *)
Definition clearQueue : M unit :=
  checkDestroyed ;;
  p ← get;
  modify (set_queue (Queue.clear (queue p))) ;;
  emit (EvQueueClear (Queue.size (queue p))).

(** [shuffleQueue()] *)
Definition shuffleQueue (r : Rng) : M unit :=
  checkDestroyed ;;
  p ← get;
  modify (set_queue (Queue.shuffle r (queue p)).1) ;;
  p' ← get;
  emit (EvQueueShuffle (Queue.size (queue p'))).

(** [smartShuffleQueue()]; [Queue.smartShuffle] always gives a queue. *)
Definition smartShuffleQueue (r : Rng) : M unit :=
  checkDestroyed ;;
  p ← get;
  modify (set_queue (default (queue p) (Queue.smartShuffle r (queue p)))) ;;
  p' ← get;
  emit (EvQueueShuffle (Queue.size (queue p'))).

(** [skip()] *)
Definition skip (net : Net) (node : Node.t) : M bool :=
  checkDestroyed ;;
  p ← get;
  if Queue.isEmpty (queue p) then
    stop net node ;; emit EvQueueEnd ;; ret false
  else
    let '(next, q') := Queue.poll (queue p) in
    modify (set_queue q') ;;
    match next with
    | None => ret false
    | Some tr =>
        play net node
          {| o_track := TrackObject tr; o_position := None; o_endTime := None;
             o_volume := None; o_paused := None; o_noReplace := None |} ;;
        ret true
    end.

(** [setLoop(mode)]; the three strings name the three modes. *)
Definition setLoop (mode : Queue.LoopMode) : M unit :=
  checkDestroyed ;;
  modify (fun p => set_queue (Queue.setLoopMode mode (queue p)) p) ;;
  emit (EvLoopSet mode).

(** [attemptConnection()], up to the call of [updatePlayer]: the voice
    payload of the call, or [None] when the method returns before it. *)
Definition attemptConnection (p : t) : option VoiceState :=
  if destroyed p then None
  else
    match voiceServer p, voiceState p with
    | Some server, Some state =>
        match vs_endpoint server with
        | Some e =>
            if truthy (Some e) then
              Some {| token := vs_token server; endpoint := e;
                      sessionId_v := st_session_id state |}
            else None
        | None => None
        end
    | _, _ => None
    end.

(** [voiceServerUpdate(update)]: the player afterwards and the voice call
    that was started, if any. *)
Definition voiceServerUpdate (update : VoiceServerUpdate) (p : t)
  : t * option VoiceState :=
  if destroyed p then (p, None)
  else
    let p1 := set_voiceServer (Some update) p in
    (p1, attemptConnection p1).

(** [voiceStateUpdate(update)] *)
Definition voiceStateUpdate (update : VoiceStateUpdate) (p : t)
  : t * option VoiceState :=
  if destroyed p then (p, None)
  else if truthy (st_channel_id update) then
    let p1 := set_voiceState (Some update)
                (set_voiceChannel (st_channel_id update) p) in
    (p1, attemptConnection p1)
  else (set_connected false (set_voiceChannel None p), None).

(** The two gateway inputs of the voice handshake. *)
Inductive VoiceInput :=
  | ServerUpdate (u : VoiceServerUpdate)
  | StateUpdate (u : VoiceStateUpdate).

Definition voiceInput (i : VoiceInput) (p : t) : t * option VoiceState :=
  match i with
  | ServerUpdate u => voiceServerUpdate u p
  | StateUpdate u => voiceStateUpdate u p
  end.

(** The rest of [attemptConnection()]: the call
    [this.node.updatePlayer(this.guildId, { voice })] and what follows it. *)
Definition voiceCall (net : Net) (node : Node.t) (voice : VoiceState) : M unit :=
  p ← get;
  tryCatch
    (onNode node
       (Node.updatePlayer net (guildId p)
          {| p_encodedTrack := None; p_identifier := None; p_position := None;
             p_endTime := None; p_volume := None; p_paused := None;
             p_filters := None; p_voice := Some voice |} false) ;;
     modify (set_connected true))
    (fun error => emit (EvError error)).

(** A sequence of voice inputs, each followed to the end of the call it
    starts.  The result lists, for every input, the call it started. *)
Fixpoint deliver (net : Net) (node : Node.t) (inputs : list VoiceInput) (p : t)
  : t * list (option VoiceState) :=
  match inputs with
  | [] => (p, [])
  | i :: rest =>
      let '(p1, call) := voiceInput i p in
      let p2 :=
        match call with
        | Some voice => after (voiceCall net node voice p1)
        | None => p1
        end in
      let '(p3, calls) := deliver net node rest p2 in
      (p3, call :: calls)
  end.

(** The operations of a player, and their values. *)
Inductive Op :=
  | OpConnect (channelId : string) (mute deaf : option bool)
  | OpDisconnect
  | OpPlay (options : PlayOptions)
  | OpStop
  | OpPause (state : bool)
  | OpResume
  | OpSeek (position : Q)
  | OpSetVolume (volume : Q)
  | OpSetFilters (f : FilterOptions)
  | OpClearFilters
  | OpAddTrack (track : Track)
  | OpAddTracks (tracks : list Track)
  | OpRemoveTrack (index : Z)
  | OpClearQueue
  | OpShuffleQueue (r : Rng)
  | OpSmartShuffleQueue (r : Rng)
  | OpSkip
  | OpSetLoop (mode : Queue.LoopMode).

Inductive Value := VUndefined | VBool (b : bool) | VTrack (tr : option Track).

Definition void (m : M unit) : M Value := m ;; ret VUndefined.

Definition run (net : Net) (node : Node.t) (op : Op) : M Value :=
  match op with
  | OpConnect channelId mute deaf => void (connect node channelId mute deaf)
  | OpDisconnect => void (disconnect net node)
  | OpPlay options => void (play net node options)
  | OpStop => void (stop net node)
  | OpPause state => void (pause net node state)
  | OpResume => void (resume net node)
  | OpSeek pos => void (seek net node pos)
  | OpSetVolume v => void (setVolume net node v)
  | OpSetFilters f => void (setFilters net node f)
  | OpClearFilters => void (clearFilters net node)
  | OpAddTrack tr => void (addTrack tr)
  | OpAddTracks ts => void (addTracks ts)
  | OpRemoveTrack index => tr ← removeTrack index; ret (VTrack tr)
  | OpClearQueue => void clearQueue
  | OpShuffleQueue r => void (shuffleQueue r)
  | OpSmartShuffleQueue r => void (smartShuffleQueue r)
  | OpSkip => b ← skip net node; ret (VBool b)
  | OpSetLoop mode => void (setLoop mode)
  end.

(** [get isDestroyed()] *)
Definition isDestroyed (p : t) : bool := destroyed p.

(** *** The listeners that the constructor puts on the node *)

Record Exception := { ex_message : option string; ex_severity : string; ex_cause : string }.

Record PlayerState := {
  ps_time : Q;
  ps_position : Q;
  ps_connected : bool;
  ps_ping : Q
}.

(** The payload of an [event] frame; a field that is absent is [None]. *)
Record EventPayload := {
  ev_guildId : string;
  ev_type : string;
  ev_track : option Track;
  ev_reason : option string;
  ev_thresholdMs : option Q;
  ev_exception : option Exception;
  ev_code : option Z;
  ev_byRemote : option bool
}.

(** The events that the listeners emit on the player. *)
Inductive Forwarded :=
  | TrackStart (track : Track)
  | TrackEnd (track : Track) (reason : string)
  | TrackStuck (track : Track) (thresholdMs : Q)
  | TrackException (track : Track) (exception : Exception)
  | WebSocketClosed (code : Z) (reason : string) (byRemote : bool)
  | PlayerUpdate (state : PlayerState).

(** What a listener does: an event of its own, or what [playNext] does. *)
Inductive Reaction :=
  | Forward (ev : Forwarded)
  | Does (e : Effect).

(** [playNext()]; the promise of [play] is followed to its end. *)
Definition playNext (net : Net) (node : Node.t) : M unit :=
  p ← get;
  let '(next, q') := Queue.poll (queue p) in
  modify (set_queue q') ;;
  match next with
  | None => emit EvQueueEnd
  | Some tr =>
      tryCatch
        (play net node
           {| o_track := TrackObject tr; o_position := None; o_endTime := None;
              o_volume := None; o_paused := None; o_noReplace := None |})
        (fun error => emit (EvError error))
  end.

(** The listener of the node's [event] event. *)
Definition onEvent (net : Net) (node : Node.t) (payload : EventPayload) (p : t)
  : t * list Reaction :=
  if negb (String.eqb (ev_guildId payload) (guildId p)) then (p, [])
  else if destroyed p then (p, [])
  else if String.eqb (ev_type payload) "TrackStartEvent" then
    match ev_track payload with
    | Some tr => (set_playing true (set_track (Some tr) p), [Forward (TrackStart tr)])
    | None => (p, [])
    end
  else if String.eqb (ev_type payload) "TrackEndEvent" then
    match ev_track payload, ev_reason payload with
    | Some tr, Some reason =>
        if truthy (Some reason) then
          let p1 := set_playing false p in
          if autoplay p1
             && (String.eqb reason "finished" || String.eqb reason "loadFailed")
          then
            let '(_, p2, eff) := playNext net node p1 in
            (p2, Forward (TrackEnd tr reason) :: (Does <$> eff))
          else (p1, [Forward (TrackEnd tr reason)])
        else (p, [])
    | _, _ => (p, [])
    end
  else if String.eqb (ev_type payload) "TrackStuckEvent" then
    match ev_track payload, ev_thresholdMs payload with
    | Some tr, Some thresholdMs => (p, [Forward (TrackStuck tr thresholdMs)])
    | _, _ => (p, [])
    end
  else if String.eqb (ev_type payload) "TrackExceptionEvent" then
    match ev_track payload, ev_exception payload with
    | Some tr, Some exception => (p, [Forward (TrackException tr exception)])
    | _, _ => (p, [])
    end
  else if String.eqb (ev_type payload) "WebSocketClosedEvent" then
    match ev_code payload, ev_reason payload, ev_byRemote payload with
    | Some code, Some reason, Some byRemote =>
        if truthy (Some reason) then
          (set_connected false p, [Forward (WebSocketClosed code reason byRemote)])
        else (p, [])
    | _, _, _ => (p, [])
    end
  else (p, []).

(** The listener of the node's [playerUpdate] event. *)
Definition onPlayerUpdate (payloadGuildId : string) (state : PlayerState) (p : t)
  : t * list Reaction :=
  if negb (String.eqb payloadGuildId (guildId p)) then (p, [])
  else if destroyed p then (p, [])
  else
    (set_connected (ps_connected state) (set_position (ps_position state) p),
     [Forward (PlayerUpdate state)]).

End Player.

Module Rias.

Inductive NodeSelectionStrategy :=
  | LoadBalanced | Regional | LeastPlayers | LeastLoad | Priority.

Record t := {
  nodes : list Node.t;                    (* Map<string, Node>, insertion order *)
  players : gmap string Player.t;
  clientId : string;
  nodeSelectionStrategy : NodeSelectionStrategy;
  shuttingDown : bool
}.

Definition set_players (v : gmap string Player.t) (r : t) : t :=
  {| nodes := nodes r; players := v; clientId := clientId r;
     nodeSelectionStrategy := nodeSelectionStrategy r;
     shuttingDown := shuttingDown r |}.

(** [this.nodes.get(nodeId)] *)
Definition getNode (r : t) (nodeId : string) : option Node.t :=
  head (filter (fun n => Node.id n = nodeId) (nodes r)).

(** [Array.prototype.sort(compare)].  An element goes after another when
    the number that the comparator returns for them is above 0; NaN is read
    as 0.  The comparators used here are differences of a numeric key, for
    which every stable sort gives the same array as long as the differences
    are numbers; it is built by insertion, an element going before the
    first one that it does not exceed. *)
Fixpoint insertSorted {A} (compare : A -> A -> Double.t) (x : A) (l : list A)
  : list A :=
  match l with
  | [] => [x]
  | y :: rest =>
      if Double.positive (compare x y) then y :: insertSorted compare x rest
      else x :: y :: rest
  end.

Definition sort {A} (compare : A -> A -> Double.t) (l : list A) : list A :=
  foldr (insertSorted compare) [] l.

Definition playersOf (n : Node.t) : Double.t := Node.players (Node.stats n).
Definition loadOf (n : Node.t) : Double.t := Node.lavalinkLoad (Node.cpu (Node.stats n)).
Definition priorityOf (n : Node.t) : Double.t := Node.priority n.

(** [a.stats.cpu.lavalinkLoad * (1 + a.stats.players * 0.1)] *)
Definition combinedLoad (n : Node.t) : Double.t :=
  Double.mul (loadOf n)
    (Double.add (Double.ofZ 1) (Double.mul (playersOf n) Double.tenth)).

(** [selectLeastPlayersNode(nodes)]; [[0]] of an empty array is [None]. *)
Definition selectLeastPlayersNode (ns : list Node.t) : option Node.t :=
  head (sort (fun a b => Double.sub (playersOf a) (playersOf b)) ns).

(** [selectLeastLoadNode(nodes)] *)
Definition selectLeastLoadNode (ns : list Node.t) : option Node.t :=
  head (sort (fun a b => Double.sub (loadOf a) (loadOf b)) ns).

(** [selectPriorityNode(nodes)] *)
Definition selectPriorityNode (ns : list Node.t) : option Node.t :=
  head (sort (fun a b => Double.sub (priorityOf a) (priorityOf b)) ns).

(** [selectLoadBalancedNode(nodes)] *)
Definition selectLoadBalancedNode (ns : list Node.t) : option Node.t :=
  head (sort (fun a b => Double.sub (combinedLoad a) (combinedLoad b)) ns).

(** [selectRegionalNode(nodes, region)] *)
Definition selectRegionalNode (ns : list Node.t) (region : option string)
  : option Node.t :=
  if negb (truthy region) then selectLoadBalancedNode ns
  else
    let regionalNodes := filter (fun n => optStrEq (Node.region n) region = true) ns in
    match regionalNodes with
    | [] => selectLoadBalancedNode ns
    | _ :: _ => selectLoadBalancedNode regionalNodes
    end.

(** The nodes that [getOptimalNode] chooses from. *)
Definition eligible (r : t) : list Node.t :=
  filter (fun n => Node.connected n && Node.isReady n = true) (nodes r).

(** [getOptimalNode(region)]; [None] is [null]. *)
Definition getOptimalNode (r : t) (region : option string) : option Node.t :=
  match eligible r with
  | [] => None
  | [n] => Some n
  | ns =>
      match nodeSelectionStrategy r with
      | Regional => selectRegionalNode ns region
      | LeastPlayers => selectLeastPlayersNode ns
      | LeastLoad => selectLeastLoadNode ns
      | Priority => selectPriorityNode ns
      | LoadBalanced => selectLoadBalancedNode ns
      end
  end.

(** [create(guildId, region)]: the player, or the error thrown, and the
    cluster afterwards. *)
Definition create (guildId : string) (region : option string) (r : t)
  : Result Player.t * t :=
  if shuttingDown r then (Err (RiasError NODE_NOT_READY "Rias is shutting down"), r)
  else if negb (ValidationUtils.isValidGuildId guildId) then
    (Err (RiasError PLAYER_NOT_FOUND "Invalid guild ID"), r)
  else
    match players r !! guildId with
    | Some player => (Ok player, r)
    | None =>
        match getOptimalNode r region with
        | None =>
            (Err (RiasError NO_AVAILABLE_NODES
                    "No available nodes. Please ensure at least one node is connected."),
             r)
        | Some node =>
            let player := Player.create guildId (Node.id node) in
            (Ok player, set_players (<[guildId := player]> (players r)) r)
        end
    end.

(** [load(identifier)], up to the choice of the node: the node that
    [loadTracks] is called on, or the error thrown. *)
Definition loadNode (r : t) : Result Node.t :=
  match getOptimalNode r None with
  | None => Err (RiasError NO_AVAILABLE_NODES "No available nodes")
  | Some node => Ok node
  end.

(** The listener that [create] puts on the player's [destroy] event: what
    the cluster does with the events of a method of the player [guildId]. *)
Definition onPlayerEffects (guildId : string) (p' : Player.t)
    (eff : list Player.Effect) (r : t) : t :=
  if existsb (fun e => match e with Player.Emit Player.EvDestroy => true | _ => false end) eff
  then set_players (delete guildId (players r)) r
  else set_players (<[guildId := p']> (players r)) r.

(** A call [player.destroy()] on the player registered for [guildId], by a
    holder of the player: the outcome of the call and the cluster afterwards. *)
Definition destroyRegistered (net : Net) (guildId : string) (r : t)
  : option (Result unit * Player.t * list Player.Effect) * t :=
  match players r !! guildId with
  | None => (None, r)
  | Some player =>
      match getNode r (Player.nodeId player) with
      | None => (None, r)
      | Some node =>
          let '(res, p', eff) := Player.destroy net node player in
          (Some (res, p', eff), onPlayerEffects guildId p' eff r)
      end
  end.

(** [destroy(guildId)] of the cluster. *)
Definition destroy (net : Net) (guildId : string) (r : t) : bool * t :=
  match destroyRegistered net guildId r with
  | (None, r1) => (false, r1)
  | (Some (Ok _, _, _), r1) => (true, set_players (delete guildId (players r1)) r1)
  | (Some (Err error, _, _), r1) => (false, r1)
  end.

(** [get(guildId)] *)
Definition get (r : t) (guildId : string) : option Player.t := players r !! guildId.

(** [getConnectedNodes()] *)
Definition getConnectedNodes (r : t) : list Node.t :=
  filter (fun n => Node.connected n = true) (nodes r).

(** *** The listener of the gateway packets *)

(** A value of a packet, as far as [typeof] and [=== null] tell values
    apart. *)
Inductive Json := JUndefined | JNull | JString (s : string) | JOther.

Definition isString (j : Json) : bool :=
  match j with JString _ => true | _ => false end.

Definition isNullOrString (j : Json) : bool :=
  match j with JNull | JString _ => true | _ => false end.

(** The string that a value is, when it is one. *)
Definition stringOf (j : Json) : string :=
  match j with JString s => s | _ => EmptyString end.

(** The value as [string | null]. *)
Definition nullableOf (j : Json) : option string :=
  match j with JString s => Some s | _ => None end.

(** [packet.d], with the fields that the listener reads. *)
Record PacketData := {
  d_guild_id : Json;
  d_token : Json;
  d_endpoint : Json;
  d_user_id : Json;
  d_session_id : Json;
  d_channel_id : Json
}.

Record Packet := { pk_t : option string; pk_d : option PacketData }.

(** [isVoiceServerUpdate(data)] *)
Definition isVoiceServerUpdate (data : PacketData) : bool :=
  isString (d_token data) && isString (d_guild_id data)
  && isNullOrString (d_endpoint data).

(** [isVoiceStateUpdate(data)] *)
Definition isVoiceStateUpdate (data : PacketData) : bool :=
  isString (d_guild_id data) && isString (d_user_id data)
  && isString (d_session_id data) && isNullOrString (d_channel_id data).

(** The listener of the client's [raw] event, up to the call of the player:
    the guild of the player and the call made on it, or [None] when the
    listener returns without calling a player. *)
Definition onRawPacket (packet : Packet) (r : t)
  : option (string * Player.VoiceInput) :=
  match pk_t packet with
  | None => None
  | Some kind =>
      if negb (truthy (Some kind))
         || negb (String.eqb kind "VOICE_SERVER_UPDATE"
                  || String.eqb kind "VOICE_STATE_UPDATE")
      then None
      else
        match pk_d packet with
        | None => None
        | Some d =>
            match d_guild_id d with
            | JString guild =>
                match players r !! guild with
                | None => None
                | Some _ =>
                    if String.eqb kind "VOICE_SERVER_UPDATE" && isVoiceServerUpdate d
                    then
                      Some (guild,
                            Player.ServerUpdate
                              {| vs_token := stringOf (d_token d);
                                 vs_guild_id := guild;
                                 vs_endpoint := nullableOf (d_endpoint d) |})
                    else if String.eqb kind "VOICE_STATE_UPDATE" && isVoiceStateUpdate d
                    then
                      if negb (String.eqb (stringOf (d_user_id d)) (clientId r))
                      then None
                      else
                        Some (guild,
                              Player.StateUpdate
                                {| st_guild_id := guild;
                                   st_user_id := stringOf (d_user_id d);
                                   st_session_id := stringOf (d_session_id d);
                                   st_channel_id := nullableOf (d_channel_id d) |})
                    else None
                end
            | _ => None
            end
        end
  end.

(** The packet delivered: the player called is the one of the registry,
    which sees what the call does to it. *)
Definition deliverPacket (net : Net) (packet : Packet) (r : t) : t :=
  match onRawPacket packet r with
  | None => r
  | Some (guild, input) =>
      match players r !! guild with
      | None => r
      | Some player =>
          match getNode r (Player.nodeId player) with
          | None => r
          | Some node =>
              set_players
                (<[guild := (Player.deliver net node [input] player).1]> (players r)) r
          end
      end
  end.

End Rias.

Import Queue.

(** * Specification

    The predicates that the theorems are stated with, and the sample values
    that they are run on. *)

Definition heapOrdered (h : list ArtistBucket) : Prop :=
  forall i, 0 < i < length h -> hlen h i <= hlen h ((i - 1) / 2).

(** Ordered everywhere except between [k] and its parent; the children of
    [k] are below the parent of [k]. *)
Definition upInv (h : list ArtistBucket) (k : nat) : Prop :=
  (forall i, 0 < i < length h -> i <> k -> hlen h i <= hlen h ((i - 1) / 2)) /\
  (forall i, 0 < i < length h -> (i - 1) / 2 = k -> 0 < k ->
     hlen h i <= hlen h ((k - 1) / 2)).

(** Ordered everywhere except between [k] and its children; the children of
    [k] are below the parent of [k]. *)
Definition downInv (h : list ArtistBucket) (k : nat) : Prop :=
  (forall i, 0 < i < length h -> (i - 1) / 2 <> k ->
     hlen h i <= hlen h ((i - 1) / 2)) /\
  (forall i, 0 < i < length h -> (i - 1) / 2 = k -> 0 < k ->
     hlen h i <= hlen h ((k - 1) / 2)).

(** The tracks held by the buckets of a heap, and their number. *)
Definition contents (h : list ArtistBucket) : list Track := h ≫= btracks.
Definition total (h : list ArtistBucket) : nat := sum_list_with blen h.

Definition noAdjacent (l : list Track) : Prop :=
  forall i a b, l !! i = Some a -> l !! S i = Some b -> artistKey a <> artistKey b.

(** The buckets of the heap: distinct keys, no empty bucket, every track
    under its own key, no bucket above half of what is left (rounded up), and
    the bucket of the last key not above half rounded down. *)
Record bucketInv (B : list ArtistBucket) (lastKey : option string) : Prop := {
  bi_nodup : NoDup (key <$> B);
  bi_tracks : forall b, b ∈ B ->
    btracks b <> [] /\ forall t, t ∈ btracks b -> artistKey t = key b;
  bi_half : forall b, b ∈ B ->
    2 * blen b <= total B + 1 /\ (Some (key b) = lastKey -> 2 * blen b <= total B)
}.

(** Distinct keys, no empty group, every track under its own key. *)
Definition groupsOk (g : Groups) : Prop :=
  NoDup g.*1 /\
  forall k l, (k, l) ∈ g -> l <> [] /\ forall t, t ∈ l -> artistKey t = k.

(** The number of tracks of [ts] whose artist key is [k]. *)
Definition countKey (k : string) (ts : list Track) : nat :=
  length (filter (fun t => artistKey t = k) ts).

Definition sampleTrack (id a : string) : Track :=
  {| encoded := id;
     info := {| identifier := id; isSeekable := true; author := a;
                length_ms := 180; isStream := false; position_ms := 0;
                title := id; sourceName := "youtube"; uri := None |} |}.

Definition sampleQueue : Queue.t :=
  addMany [sampleTrack "1" "Artist A"; sampleTrack "2" " artist a";
           sampleTrack "3" "ARTIST A "; sampleTrack "4" "Artist B";
           sampleTrack "5" "Artist C"] Queue.empty.

Definition sampleRng : Rng := {| oracle := fun k => 7 * k + 3; calls := 0 |}.

Definition loopingQueue : Queue.t :=
  Queue.setLoopMode Queue.LoopQueue
    {| Queue.tracks := [sampleTrack "2" "Artist B"];
       Queue.current := Some (sampleTrack "1" "Artist A");
       Queue.previous := None; Queue.loopMode := Queue.LoopNone |}.

Definition sampleOptions : Node.NodeOptions :=
  {| Node.opt_id := "node-a"; Node.opt_host := "localhost"; Node.opt_port := 2333;
     Node.opt_password := "youshallnotpass"; Node.opt_secure := None;
     Node.opt_region := Some "us"%string; Node.opt_priority := None;
     Node.opt_resumeKey := None; Node.opt_resumeTimeout := None;
     Node.opt_maxReconnectAttempts := None; Node.opt_reconnectDelay := None |}.

Definition resumingOptions : Node.NodeOptions :=
  {| Node.opt_id := "node-r"; Node.opt_host := "localhost"; Node.opt_port := 2333;
     Node.opt_password := "youshallnotpass"; Node.opt_secure := None;
     Node.opt_region := Some "eu"%string; Node.opt_priority := None;
     Node.opt_resumeKey := Some "resume-key"%string; Node.opt_resumeTimeout := None;
     Node.opt_maxReconnectAttempts := None; Node.opt_reconnectDelay := Some 1000%Q |}.

Definition sampleInfo : LavalinkInfo :=
  {| semver := "4.0.0"; sourceManagers := ["youtube"%string];
     filters := ["equalizer"%string];
     pluginList := Some [ Some {| pl_name := "plugin-a"; pl_version := "1.0.0" |} ] |}.

(** A server that answers every request with status 200 and a JSON body. *)
Definition netOk : Net := fun _ =>
  Responded {| status := 200; statusText := "OK";
               contentType := Some "application/json"%string;
               jsonMessage := ErrorObject None; jsonInfo := InfoObject sampleInfo;
               jsonData := Some "{}"%string |}.

(** [connect] and the socket's [open] event, before any [ready] frame. *)
Definition openNode : Node.t :=
  Node.after (Node.onOpen netOk 0
    (Node.after (Node.connect "client-id" None 0 (Node.create sampleOptions "Rias")))).

(** The same, after the [ready] frame. *)
Definition readyNode : Node.t :=
  Node.after (Node.onMessage (Node.FrameReady "session-123" false) openNode).

(** A node with a resume key: opened, ready, then [disconnect()]. *)
Definition resumingReadyNode : Node.t :=
  Node.after (Node.onMessage (Node.FrameReady "session-r" false)
    (Node.after (Node.onOpen netOk 0
      (Node.after (Node.connect "client-id" None 0 (Node.create resumingOptions "Rias")))))).

Definition disconnectedResumingNode : Node.t :=
  Node.after (Node.disconnect None resumingReadyNode).

(** A method that leaves the field [f] of the node as it finds it. *)
Definition keeps {X A} (f : Node.t -> X) (m : Node.M A) : Prop :=
  forall n, f (Node.after (m n)) = f n.

(** The information of the server is cached and less than five minutes old. *)
Definition infoFresh (now : N) (n : Node.t) : bool :=
  match Node.lavalinkInfo n with
  | Some _ => N.ltb (now - Node.infoFetchTime n) Node.INFO_CACHE_TTL
  | None => false
  end.

(** The error of [pluginRequest] for a plugin that the node does not have. *)
Definition notInstalledError (pluginName : string) (n : Node.t) : JsError :=
  PlainError ("Plugin " ++ dquote ++ pluginName ++ dquote
              ++ " is not installed on node " ++ Node.id n)%string.

(** What an operation does once it is past its guard: it sends a request,
    or, for the two operations that read the caches of the node, it answers
    from the cache. *)
Definition pastGuard (net : Net) (now : N) (op : Node.RestOp) (n : Node.t) : Prop :=
  let o := Node.rest net now op n in
  match op with
  | Node.GetInfo forceRefresh =>
      if negb forceRefresh && infoFresh now n then
        exists info, Node.lavalinkInfo n = Some info /\ o = (Ok (Node.RestInfo info), n, [])
      else existsb Node.isFetch (Node.effects o) = true
  | Node.PluginRequest pluginName _ _ _ =>
      if bool_decide (is_Some (Node.pluginCache n !! pluginName))
         || (Nat.eqb (base.size (Node.pluginCache n)) 0 && negb (infoFresh now n))
      then existsb Node.isFetch (Node.effects o) = true
      else o = (Err (notInstalledError pluginName n), n, [])
  | _ => existsb Node.isFetch (Node.effects o) = true
  end.

(** Both halves of the handshake are stored and the stored endpoint passes
    the test of [attemptConnection]. *)
Definition handshakeReady (p : Player.t) : Prop :=
  exists server state,
    Player.voiceServer p = Some server /\ Player.voiceState p = Some state /\
    truthy (vs_endpoint server) = true.

(** The payload that [attemptConnection] builds from what is stored. *)
Definition storedVoice (p : Player.t) (v : VoiceState) : Prop :=
  exists server state,
    Player.voiceServer p = Some server /\ Player.voiceState p = Some state /\
    vs_endpoint server = Some (endpoint v) /\
    token v = vs_token server /\ sessionId_v v = st_session_id state.

Definition sampleGuild : string := "123456789012345678".

Definition joinState : VoiceStateUpdate :=
  {| st_guild_id := sampleGuild; st_user_id := "client-id";
     st_session_id := "voice-session"; st_channel_id := Some "223456789012345678"%string |}.

Definition leaveState : VoiceStateUpdate :=
  {| st_guild_id := sampleGuild; st_user_id := "client-id";
     st_session_id := "voice-session-2"; st_channel_id := None |}.

Definition serverWith (e : option string) : VoiceServerUpdate :=
  {| vs_token := "voice-token"; vs_guild_id := sampleGuild; vs_endpoint := e |}.

Definition samplePlayer : Player.t := Player.create sampleGuild "node-a".

Definition destroyedError : JsError :=
  RiasError PLAYER_NOT_FOUND "Player has been destroyed".

Definition sampleCluster : Rias.t :=
  {| Rias.nodes := [readyNode]; Rias.players := ∅; Rias.clientId := "client-id";
     Rias.nodeSelectionStrategy := Rias.LoadBalanced; Rias.shuttingDown := false |}.

Definition clusterWithPlayer : Rias.t := (Rias.create sampleGuild None sampleCluster).2.

(** A server that answers every request with status 500. *)
Definition netDown : Net := fun _ =>
  Responded {| status := 500; statusText := "Internal Server Error";
               contentType := None; jsonMessage := ErrorObject (Some "boom"%string);
               jsonInfo := InfoNotJson; jsonData := None |}.

(** A number that is zero or finite, with its exponent in the range of
    binary64. *)
Definition regular (x : Double.t) : Prop :=
  match x with
  | S754_zero _ => True
  | S754_finite _ _ e => (-1074 <= e)%Z
  | _ => False
  end.

(** The value of a regular number, counted in units of [2 ^ -1074]. *)
Definition scaled (x : Double.t) : Z :=
  match x with
  | S754_finite s m e => (cond_Zopp s (Zpos m) * 2 ^ (e + 1074))%Z
  | _ => 0%Z
  end.

(** A least element of [l] for [key], in the list. *)
Definition isLeast {A} (key : A -> Q) (x : A) (l : list A) : Prop :=
  x ∈ l /\ forall y, y ∈ l -> (key x <= key y)%Q.

(** The keys of the strategies, as the rationals that these binary64
    values are. *)
Definition playersValue (n : Node.t) : Q := Double.value (Rias.playersOf n).
Definition loadValue (n : Node.t) : Q := Double.value (Rias.loadOf n).
Definition priorityValue (n : Node.t) : Q := Double.value (Rias.priorityOf n).
Definition combinedValue (n : Node.t) : Q := Double.value (Rias.combinedLoad n).

(** A finite binary64 value. *)
Definition isNumber (x : Double.t) : bool := Double.isDouble x && Double.isFinite x.

(** The key of every node of the list is a finite binary64 value. *)
Definition numeric (key : Node.t -> Double.t) (ns : list Node.t) : bool :=
  forallb (fun n => isNumber (key n)) ns.

(** The combined load of every node of the list has not overflowed, and is
    not NaN. *)
Definition finiteCombined (ns : list Node.t) : bool :=
  forallb (fun n => Double.isFinite (Rias.combinedLoad n)) ns.

(** The eligible nodes that a region hint selects. *)
Definition inRegion (region : option string) (ns : list Node.t) : list Node.t :=
  filter (fun n => optStrEq (Node.region n) region = true) ns.

(** The decimal literal [tenths / 10], for a small number of tenths: the
    binary64 value nearest to it. *)
Definition tenths (k : Z) : Double.t := Double.div (Double.ofZ k) (Double.ofZ 10).

(** The nodes of the selection tests: connected and ready, with the given
    region, priority, number of players and load. *)
Definition fixtureNode (name : string) (region : string) (priority : Z)
    (players : Z) (load : Double.t) : Node.t :=
  let options :=
    {| Node.opt_id := name; Node.opt_host := "localhost"; Node.opt_port := 2333;
       Node.opt_password := "pass"; Node.opt_secure := None;
       Node.opt_region := Some region;
       Node.opt_priority := Some (Double.ofZ priority);
       Node.opt_resumeKey := None; Node.opt_resumeTimeout := None;
       Node.opt_maxReconnectAttempts := None; Node.opt_reconnectDelay := None |} in
  let stats :=
    {| Node.players := Double.ofZ players; Node.playingPlayers := Double.ofZ 0;
       Node.uptime := Double.ofZ 0;
       Node.cpu := {| Node.cores := Double.ofZ 1; Node.systemLoad := Double.ofZ 0;
                      Node.lavalinkLoad := load |} |} in
  Node.after (Node.onMessage (Node.FrameStats stats)
    (Node.after (Node.onMessage (Node.FrameReady "session" false)
      (Node.after (Node.onOpen netOk 0
        (Node.after (Node.connect "client-id" None 0 (Node.create options "Rias")))))))).

Definition nodeA : Node.t := fixtureNode "node-a" "us" 2 4 (tenths 4).
Definition nodeB : Node.t := fixtureNode "node-b" "eu" 0 1 (tenths 1).
Definition nodeC : Node.t := fixtureNode "node-c" "us" 3 2 (tenths 2).

Definition fixtureCluster (strategy : Rias.NodeSelectionStrategy) : Rias.t :=
  {| Rias.nodes := [nodeA; nodeB; nodeC]; Rias.players := ∅;
     Rias.clientId := "client-id"; Rias.nodeSelectionStrategy := strategy;
     Rias.shuttingDown := false |}.

(** A node whose region is the empty string, busier than a node of the
    region [us]. *)
Definition nodeBlank : Node.t := fixtureNode "node-blank" "" 0 3 (tenths 9).

Definition blankCluster : Rias.t :=
  {| Rias.nodes := [nodeBlank; nodeC]; Rias.players := ∅;
     Rias.clientId := "client-id"; Rias.nodeSelectionStrategy := Rias.Regional;
     Rias.shuttingDown := false |}.

(** Two nodes whose combined loads are both [0.3] as decimals:
    [0.1 * (1 + 20 * 0.1)] is rounded to [0.30000000000000004]. *)
Definition nodeCrowded : Node.t := fixtureNode "node-crowded" "us" 0 20 (tenths 1).
Definition nodeIdle : Node.t := fixtureNode "node-idle" "us" 0 0 (tenths 3).

Definition roundingCluster : Rias.t :=
  {| Rias.nodes := [nodeCrowded; nodeIdle]; Rias.players := ∅;
     Rias.clientId := "client-id"; Rias.nodeSelectionStrategy := Rias.LoadBalanced;
     Rias.shuttingDown := false |}.

(** The identifiers of the queued tracks, in order. *)
Definition identifiers (ts : list Track) : list string :=
  (fun t => identifier (info t)) <$> ts.

(** A queue of four tracks by two authors, two of them the same recording. *)
Definition editQueue : Queue.t :=
  {| tracks := [sampleTrack "a1" "Ann"; sampleTrack "b1" "Bob";
                sampleTrack "a1" "Ann"; sampleTrack "a2" "ann"];
     current := None; previous := None; loopMode := LoopNone |}.




(** The request that [getInfo] makes. *)
Definition infoRequest (n : Node.t) : Request :=
  {| method := "GET"; url := (Node.restUrl n ++ "/info")%string;
     authorization := Node.password n; body := None; timeout := 5000%N |}.

(** The plugins of a list that have the name [name]. *)
Definition pluginsNamed (name : string) (ps : list PluginInfo) : list PluginInfo :=
  filter (fun p => pl_name p = name) ps.

(** A server with two versions of one plugin and another plugin. *)
Definition pluginInfo : LavalinkInfo :=
  {| semver := "4.0.7"; sourceManagers := ["youtube"%string];
     filters := ["equalizer"%string];
     pluginList := Some [ Some {| pl_name := "lyrics"; pl_version := "1.0.0" |};
                          Some {| pl_name := "sponsorblock"; pl_version := "3.0.1" |};
                          Some {| pl_name := "lyrics"; pl_version := "2.0.0" |} ] |}.

Definition netPlugins : Net := fun _ =>
  Responded {| status := 200; statusText := "OK";
               contentType := Some "application/json"%string;
               jsonMessage := ErrorObject None; jsonInfo := InfoObject pluginInfo;
               jsonData := Some "{}"%string |}.

(** A server that answers the request for its information with the body
    [null]. *)
Definition netNull : Net := fun _ =>
  Responded {| status := 200; statusText := "OK";
               contentType := Some "application/json"%string;
               jsonMessage := ErrorNull; jsonInfo := InfoNull;
               jsonData := Some "null"%string |}.

(** A server whose list of plugins holds a [null] after its first plugin. *)
Definition brokenInfo : LavalinkInfo :=
  {| semver := "4.0.7"; sourceManagers := ["youtube"%string];
     filters := ["equalizer"%string];
     pluginList := Some [ Some {| pl_name := "lyrics"; pl_version := "1.0.0" |};
                          None;
                          Some {| pl_name := "sponsorblock"; pl_version := "3.0.1" |} ] |}.

Definition netBroken : Net := fun _ =>
  Responded {| status := 200; statusText := "OK";
               contentType := Some "application/json"%string;
               jsonMessage := ErrorObject None; jsonInfo := InfoObject brokenInfo;
               jsonData := Some "{}"%string |}.

(** The request that [destroyPlayer] makes. *)
Definition destroyRequest (n : Node.t) (sid guildId : string) : Request :=
  {| method := "DELETE"; url := Node.playerUrl n sid guildId;
     authorization := Node.password n; body := None; timeout := 5000%N |}.

(** A server that knows no player: every request is answered with 404. *)
Definition netNotFound : Net := fun _ =>
  Responded {| status := 404; statusText := "Not Found";
               contentType := Some "application/json"%string;
               jsonMessage := ErrorObject (Some "Not Found"%string);
               jsonInfo := InfoNotJson; jsonData := None |}.

(** The operations that ask the node to be ready before anything else. *)
Definition playback (op : Player.Op) : bool :=
  match op with
  | Player.OpPlay _ | Player.OpStop | Player.OpPause _ | Player.OpResume
  | Player.OpSeek _ | Player.OpSetVolume _ | Player.OpSetFilters _
  | Player.OpClearFilters => true
  | _ => false
  end.

Definition nodeNotReadyError (node : Node.t) : JsError :=
  RiasError NODE_NOT_READY
    ("Node " ++ Node.id node
     ++ " is not ready. Please ensure the node is connected and initialized.")%string.

(** The outcome of an operation made of the call [c] of the node and then
    the update [f] of the player: the update is made when the call has
    succeeded; when it has failed the error is announced and thrown again. *)
Definition commits (c : Result unit * Node.t * list Node.Effect)
    (f : Player.t -> Player.t) (p : Player.t)
  : Result unit * Player.t * list Player.Effect :=
  match Node.result c with
  | Ok _ => (Ok tt, f p, Player.OnNode <$> Node.effects c)
  | Err e =>
      (Err e, p,
       (Player.OnNode <$> Node.effects c) ++ [Player.Emit (Player.EvError e)])
  end.

(** A payload with one field. *)
Definition pausedPayload (state : bool) : UpdatePlayerPayload :=
  {| p_encodedTrack := None; p_identifier := None; p_position := None;
     p_endTime := None; p_volume := None; p_paused := Some state;
     p_filters := None; p_voice := None |}.

Definition volumePayload (v : Q) : UpdatePlayerPayload :=
  {| p_encodedTrack := None; p_identifier := None; p_position := None;
     p_endTime := None; p_volume := Some v; p_paused := None;
     p_filters := None; p_voice := None |}.

Definition positionPayload (pos : Q) : UpdatePlayerPayload :=
  {| p_encodedTrack := None; p_identifier := None; p_position := Some pos;
     p_endTime := None; p_volume := None; p_paused := None;
     p_filters := None; p_voice := None |}.

Definition stopPayload : UpdatePlayerPayload :=
  {| p_encodedTrack := Some None; p_identifier := None; p_position := None;
     p_endTime := None; p_volume := None; p_paused := None;
     p_filters := None; p_voice := None |}.

Definition filtersPayload (f : FilterOptions) : UpdatePlayerPayload :=
  {| p_encodedTrack := None; p_identifier := None; p_position := None;
     p_endTime := None; p_volume := None; p_paused := None;
     p_filters := Some f; p_voice := None |}.

(** The options of [play({ track })]. *)
Definition playTrack (tr : Track) : Player.PlayOptions :=
  {| Player.o_track := Player.TrackObject tr; Player.o_position := None;
     Player.o_endTime := None; Player.o_volume := None; Player.o_paused := None;
     Player.o_noReplace := None |}.

(** The payload of [play({ track })]. *)
Definition trackPayload (tr : Track) : UpdatePlayerPayload :=
  {| p_encodedTrack := Some (Some (encoded tr)); p_identifier := None;
     p_position := None; p_endTime := None; p_volume := None; p_paused := None;
     p_filters := None; p_voice := None |}.

(** The outcome of a call, with the value [v] in place of its value. *)
Definition returning {A} (v : A) (o : Result unit * Player.t * list Player.Effect)
  : Result A * Player.t * list Player.Effect :=
  match o with
  | (Ok _, p, eff) => (Ok v, p, eff)
  | (Err e, p, eff) => (Err e, p, eff)
  end.

(** The player with its queue polled. *)
Definition polled (p : Player.t) : Player.t :=
  Player.set_queue (Queue.poll (Player.queue p)).2 p.

(** A player with two tracks queued. *)
Definition queuedPlayer : Player.t :=
  Player.after
    (Player.addTracks [sampleTrack "a1" "Ann"; sampleTrack "b1" "Bob"] samplePlayer).

(** A frame that tells the end of a track of [sampleGuild]. *)
Definition trackEndPayload (reason : string) : Player.EventPayload :=
  {| Player.ev_guildId := sampleGuild; Player.ev_type := "TrackEndEvent";
     Player.ev_track := Some (sampleTrack "z9" "Zed");
     Player.ev_reason := Some reason; Player.ev_thresholdMs := None;
     Player.ev_exception := None; Player.ev_code := None;
     Player.ev_byRemote := None |}.

(** A voice server packet of the gateway for [sampleGuild]. *)
Definition serverPacket : Rias.Packet :=
  {| Rias.pk_t := Some "VOICE_SERVER_UPDATE"%string;
     Rias.pk_d :=
       Some {| Rias.d_guild_id := Rias.JString sampleGuild;
               Rias.d_token := Rias.JString "token-1";
               Rias.d_endpoint := Rias.JString "voice.example:443";
               Rias.d_user_id := Rias.JUndefined;
               Rias.d_session_id := Rias.JUndefined;
               Rias.d_channel_id := Rias.JUndefined |} |}.

(** The numbers among the options of [play] pass their checks. *)
Definition optionsValid (options : Player.PlayOptions) : bool :=
  from_option ValidationUtils.isValidPosition true (Player.o_position options)
  && from_option ValidationUtils.isValidPosition true (Player.o_endTime options)
  && from_option ValidationUtils.isValidVolume true (Player.o_volume options).

(** The payload that [play] builds from its options. *)
Definition playPayload (options : Player.PlayOptions) : UpdatePlayerPayload :=
  {| p_encodedTrack := Some (Some (Player.resolveTrack (Player.o_track options)));
     p_identifier := None;
     p_position := Player.o_position options;
     p_endTime := Player.o_endTime options;
     p_volume := Player.o_volume options;
     p_paused := Player.o_paused options;
     p_filters := None; p_voice := None |}.

(** The player with the volume and the pause of the options, where given. *)
Definition assigned (options : Player.PlayOptions) (p : Player.t) : Player.t :=
  let p1 :=
    match Player.o_volume options with
    | Some v => Player.set_volume v p
    | None => p
    end in
  match Player.o_paused options with
  | Some b => Player.set_paused b p1
  | None => p1
  end.

(** [play({ track, volume: 30, paused: true })] *)
Definition quietOptions : Player.PlayOptions :=
  {| Player.o_track := Player.TrackObject (sampleTrack "a1" "Ann");
     Player.o_position := None; Player.o_endTime := None;
     Player.o_volume := Some 30%Q; Player.o_paused := Some true;
     Player.o_noReplace := None |}.

(** * Proofs *)

(** [lia] is extended to division by a constant. *)
Ltac Zify.zify_post_hook ::= Z.to_euclidean_division_equations.

(** ** Arrays: swapping two cells *)
Section Swap.
Context {A : Type}.
Implicit Types l : list A.

Lemma swap_length l i j : length (swap l i j) = length l.
Proof.
  unfold swap. destruct (l !! i), (l !! j); try done.
  by rewrite !length_insert.
Qed.

Lemma swap_lookup l i j k :
  i < length l -> j < length l ->
  swap l i j !! k =
    if decide (k = j) then l !! i else if decide (k = i) then l !! j else l !! k.
Proof.
  intros Hi Hj. unfold swap.
  destruct (lookup_lt_is_Some_2 l i Hi) as [x Hx].
  destruct (lookup_lt_is_Some_2 l j Hj) as [y Hy].
  rewrite Hx, Hy.
  destruct (decide (k = j)) as [->|Hkj].
  - rewrite list_lookup_insert_eq; [done | by rewrite length_insert].
  - rewrite list_lookup_insert_ne by done.
    destruct (decide (k = i)) as [->|Hki].
    + by rewrite list_lookup_insert_eq.
    + by rewrite list_lookup_insert_ne.
Qed.

Lemma insert_cons_perm l j x y :
  l !! j = Some y -> y :: <[j:=x]> l ≡ₚ x :: l.
Proof.
  revert j. induction l as [|a l IH]; intros [|j] H; simplify_eq/=.
  - apply perm_swap.
  - rewrite (perm_swap a y). rewrite (IH _ H). apply perm_swap.
Qed.

Lemma swap_perm l i j : swap l i j ≡ₚ l.
Proof.
  unfold swap.
  destruct (l !! i) as [x|] eqn:Hx; [|done].
  destruct (l !! j) as [y|] eqn:Hy; [|done].
  destruct (decide (i = j)) as [->|Hne].
  - simplify_eq. rewrite list_insert_insert_eq. by rewrite list_insert_id.
  - apply (Permutation_cons_inv (a:=y)).
    rewrite insert_cons_perm; last by rewrite list_lookup_insert_ne.
    by apply insert_cons_perm.
Qed.
End Swap.

(** ** The binary heap of buckets *)

Ltac heap_arith :=
  repeat case_decide; subst; try lia;
  try (match goal with H : (_ - 1) / 2 = _ |- _ => rewrite H in * end; lia).

Lemma hlen_swap h i j k :
  i < length h -> j < length h ->
  hlen (swap h i j) k =
    if decide (k = j) then hlen h i else if decide (k = i) then hlen h j else hlen h k.
Proof.
  intros Hi Hj. unfold hlen. rewrite swap_lookup by done.
  repeat case_decide; done.
Qed.

Lemma hlen_ge h i : length h <= i -> hlen h i = 0.
Proof. intros H. unfold hlen. by rewrite lookup_ge_None_2. Qed.

Lemma siftUp_fuel f1 f2 h k :
  k <= f1 -> k <= f2 -> siftUp f1 h k = siftUp f2 h k.
Proof.
  revert f2 h k. induction f1 as [|f1 IH]; intros [|f2] h k H1 H2; cbn [siftUp].
  - done.
  - replace k with 0 by lia. done.
  - replace k with 0 by lia. done.
  - destruct (Nat.eqb_spec k 0); [done|].
    destruct (_ <=? _); [done|]. apply IH; lia.
Qed.

Lemma siftUp_perm fuel h k : siftUp fuel h k ≡ₚ h.
Proof.
  revert h k. induction fuel as [|fuel IH]; intros h k; cbn [siftUp]; [done|].
  destruct (k =? 0); [done|]. destruct (_ <=? _); [done|].
  rewrite IH. apply swap_perm.
Qed.

Lemma siftUp_ordered fuel h k :
  k <= fuel -> k < length h -> upInv h k -> heapOrdered (siftUp fuel h k).
Proof.
  revert h k. induction fuel as [|fuel IH]; intros h k Hf Hk [H1 H2]; cbn [siftUp].
  { intros i Hi. apply H1; lia. }
  destruct (Nat.eqb_spec k 0) as [->|Hk0].
  { intros i Hi. apply H1; lia. }
  destruct (Nat.leb_spec (hlen h k) (hlen h ((k - 1) / 2))) as [Hle|Hgt].
  { intros i Hi. destruct (decide (i = k)) as [->|]; [done|]. by apply H1. }
  remember ((k - 1) / 2) as p eqn:Hpdef.
  assert (Hp : p < k) by lia.
  apply IH; [lia | rewrite swap_length; lia |].
  split.
  - intros i Hi Hip. rewrite swap_length in Hi.
    rewrite !hlen_swap by lia.
    pose proof (H1 i ltac:(lia)) as H1i.
    pose proof (H2 i ltac:(lia)) as H2i.
    heap_arith.
  - intros i Hi Hip Hp0. rewrite swap_length in Hi.
    rewrite !hlen_swap by lia.
    pose proof (H1 i ltac:(lia)) as H1i.
    pose proof (H1 p ltac:(lia) ltac:(lia)) as H1p.
    heap_arith.
Qed.

Lemma hlen_app_l h b i : i < length h -> hlen (h ++ [b]) i = hlen h i.
Proof. intros H. unfold hlen. by rewrite lookup_app_l. Qed.

Lemma pushHeap_perm h b : pushHeap h b ≡ₚ b :: h.
Proof.
  unfold pushHeap. rewrite siftUp_perm.
  symmetry. apply Permutation_cons_append.
Qed.

Lemma pushHeap_ordered h b : heapOrdered h -> heapOrdered (pushHeap h b).
Proof.
  intros Hh. unfold pushHeap. rewrite length_app. cbn [length].
  replace (length h + 1 - 1) with (length h) by lia.
  apply siftUp_ordered; [done | rewrite length_app; cbn; lia |].
  split.
  - intros i Hi Hne. rewrite length_app in Hi. cbn in Hi.
    rewrite !hlen_app_l by lia. apply Hh. lia.
  - intros i Hi Hp. rewrite length_app in Hi. cbn in Hi. lia.
Qed.

Lemma siftDown_perm fuel h k : siftDown fuel h k ≡ₚ h.
Proof.
  revert h k. induction fuel as [|fuel IH]; intros h k; cbn [siftDown]; [done|].
  destruct (_ =? _); [done|]. rewrite IH. apply swap_perm.
Qed.

Lemma siftDown_ordered fuel h k :
  length h <= k + fuel -> downInv h k -> heapOrdered (siftDown fuel h k).
Proof.
  revert h k. induction fuel as [|fuel IH]; intros h k Hf [H1 H2]; cbn [siftDown].
  { intros i Hi. apply H1; lia. }
  set (l1 := if (2 * k + 1 <? length h) && (hlen h k <? hlen h (2 * k + 1))
             then 2 * k + 1 else k).
  set (l2 := if (2 * k + 2 <? length h) && (hlen h l1 <? hlen h (2 * k + 2))
             then 2 * k + 2 else l1).
  assert (Hl1 : (l1 = k /\ (2 * k + 1 < length h -> hlen h (2 * k + 1) <= hlen h k)) \/
                (l1 = 2 * k + 1 /\ 2 * k + 1 < length h /\ hlen h k < hlen h (2 * k + 1))).
  { subst l1. destruct (Nat.ltb_spec (2 * k + 1) (length h)); cbn [andb];
      [destruct (Nat.ltb_spec (hlen h k) (hlen h (2 * k + 1)))|]; lia. }
  assert (Hl2 : (l2 = l1 /\ (2 * k + 2 < length h -> hlen h (2 * k + 2) <= hlen h l1)) \/
                (l2 = 2 * k + 2 /\ 2 * k + 2 < length h /\ hlen h l1 < hlen h (2 * k + 2))).
  { subst l2. destruct (Nat.ltb_spec (2 * k + 2) (length h)); cbn [andb];
      [destruct (Nat.ltb_spec (hlen h l1) (hlen h (2 * k + 2)))|]; lia. }
  clearbody l1 l2.
  destruct (Nat.eqb_spec l2 k) as [Heq|Hne].
  { intros i Hi. destruct (decide ((i - 1) / 2 = k)) as [Hik|Hik]; [|by apply H1].
    rewrite Hik.
    assert (i = 2 * k + 1 \/ i = 2 * k + 2) as [->| ->] by lia.
    - destruct Hl1 as [[-> Hl]|[? ?]]; [apply Hl; lia|].
      destruct Hl2 as [[? ?]|[? ?]]; lia.
    - destruct Hl2 as [[E Hr]|[? ?]]; [|lia]. rewrite <- E, Heq in Hr.
      apply Hr; lia. }
  assert (Hc : k < l2 < length h /\ (l2 - 1) / 2 = k /\ hlen h k < hlen h l2 /\
               (forall i, 0 < i < length h -> (i - 1) / 2 = k -> hlen h i <= hlen h l2)).
  { destruct Hl1 as [[-> Hl]|[-> [? ?]]], Hl2 as [[-> Hr]|[-> [? ?]]];
      try lia; (repeat split; try lia);
      intros i Hi Hik;
      (assert (i = 2 * k + 1 \/ i = 2 * k + 2) as [->| ->] by lia); lia. }
  destruct Hc as (Hkl & Hpar & Hlt & Hmax).
  apply IH; [rewrite swap_length; lia|].
  split.
  - intros i Hi Hip. rewrite swap_length in Hi.
    rewrite !hlen_swap by lia.
    pose proof (H1 i ltac:(lia)) as H1i.
    pose proof (H2 l2 ltac:(lia) ltac:(lia)) as H2c.
    pose proof (Hmax i ltac:(lia)) as Hmi.
    heap_arith.
  - intros i Hi Hip Hp0. rewrite swap_length in Hi.
    rewrite !hlen_swap by lia.
    pose proof (H1 i ltac:(lia)) as H1i.
    heap_arith.
Qed.

Lemma heapOrdered_root h i : heapOrdered h -> i < length h -> hlen h i <= hlen h 0.
Proof.
  intros Hh. induction i as [i IH] using lt_wf_ind. intros Hi.
  destruct (decide (i = 0)) as [->|]; [done|].
  etrans; [apply Hh; lia|]. apply IH; lia.
Qed.

Lemma heapOrdered_max h top b :
  heapOrdered h -> head h = Some top -> b ∈ h -> blen b <= blen top.
Proof.
  intros Hh Htop [i Hi]%list_elem_of_lookup.
  pose proof (heapOrdered_root h i Hh (lookup_lt_Some _ _ _ Hi)) as H.
  unfold hlen in H. rewrite Hi in H.
  destruct h; simplify_eq/=. done.
Qed.

Lemma heapOrdered_nil : heapOrdered [].
Proof. intros i Hi. cbn in Hi. lia. Qed.

Lemma popHeap_nil_inv h h' : popHeap h = (None, h') -> h = [] /\ h' = [].
Proof.
  unfold popHeap. destruct h as [|top tl]; [by intros [=]|].
  destruct (removelast (top :: tl)); by intros [=].
Qed.

Lemma popHeap_snoc t tl t2 :
  popHeap (t :: tl ++ [t2]) = (Some t, siftDown (S (length tl)) (t2 :: tl) 0).
Proof.
  unfold popHeap.
  change (t :: tl ++ [t2]) with ((t :: tl) ++ [t2]).
  by rewrite last_last, removelast_last.
Qed.

Lemma popHeap_Some h top h' :
  popHeap h = (Some top, h') ->
  head h = Some top /\ h ≡ₚ top :: h' /\ (heapOrdered h -> heapOrdered h').
Proof.
  destruct h as [|t tl]; [done|].
  destruct tl as [|t2 tl _] using rev_ind.
  { cbn. intros [= <- <-]. split_and!; [done|done|]. intros _. apply heapOrdered_nil. }
  rewrite popHeap_snoc. intros H.
  assert (top = t) as -> by congruence.
  assert (h' = siftDown (S (length tl)) (t2 :: tl) 0) as -> by congruence.
  clear H. split_and!; [done| |].
  - rewrite siftDown_perm. apply perm_skip. symmetry. apply Permutation_cons_append.
  - intros Hh. apply siftDown_ordered; [cbn [length]; lia|]. split; [|lia].
    intros i Hi Hp. cbn [length] in Hi.
    assert (Hlk : forall j, 0 < j < S (length tl) ->
                    hlen (t2 :: tl) j = hlen (t :: tl ++ [t2]) j).
    { intros [|j] Hj; [lia|]. unfold hlen.
      change ((t2 :: tl) !! S j) with (tl !! j).
      change ((t :: tl ++ [t2]) !! S j) with ((tl ++ [t2]) !! j).
      by rewrite lookup_app_l by lia. }
    rewrite !Hlk by lia. apply Hh. cbn [length]. rewrite length_app. cbn. lia.
Qed.

Lemma popHeap_cons b h : exists top h', popHeap (b :: h) = (Some top, h').
Proof.
  destruct h as [|t2 tl _] using rev_ind; [by eexists _, _|].
  rewrite popHeap_snoc. by eexists _, _.
Qed.

(** ** The main loop of smartShuffle *)

Global Instance contents_perm : Proper ((≡ₚ) ==> (≡ₚ)) contents.
Proof. intros h1 h2 H. unfold contents. by rewrite H. Qed.

Global Instance total_perm : Proper ((≡ₚ) ==> (=)) total.
Proof. intros h1 h2 H. unfold total. by rewrite H. Qed.

Lemma contents_cons b h : contents (b :: h) = btracks b ++ contents h.
Proof. done. Qed.

Lemma total_cons b h : total (b :: h) = blen b + total h.
Proof. done. Qed.

Lemma total_contents h : total h = length (contents h).
Proof.
  induction h as [|b h IH]; [done|].
  rewrite total_cons, contents_cons, length_app, IH. done.
Qed.

Lemma optStrEq_spec a b : reflect (a = b) (optStrEq a b).
Proof.
  destruct a as [x|], b as [y|]; cbn; try (constructor; congruence).
  destruct (String.eqb_spec x y); constructor; congruence.
Qed.

(** What [pickBucket] returns: a bucket of the heap and the other buckets;
    in an ordered heap with distinct keys, the bucket is a largest one among
    those whose key is not the last one, and it has the last key only when it
    is alone. *)
Lemma pickBucket_None h last : pickBucket h last = None -> h = [].
Proof.
  unfold pickBucket. destruct (popHeap h) as [[b|] h1] eqn:Hp.
  - destruct (optStrEq _ _); [|done].
    destruct (popHeap h1) as [[a|] h1']; done.
  - intros _. by apply popHeap_nil_inv in Hp as [-> _].
Qed.

Lemma pickBucket_Some h last c h2 :
  pickBucket h last = Some (c, h2) ->
  h ≡ₚ c :: h2 /\
  (heapOrdered h -> heapOrdered h2) /\
  (heapOrdered h -> NoDup (key <$> h) ->
     (forall b, b ∈ h2 -> Some (key b) <> last -> blen b <= blen c) /\
     (Some (key c) = last -> h2 = [])).
Proof.
  unfold pickBucket. destruct (popHeap h) as [[b|] h1] eqn:Hp; [|done].
  apply popHeap_Some in Hp as (Hhd & Hperm & Hord).
  destruct (optStrEq_spec (Some (key b)) last) as [Heq|Hne].
  - destruct (popHeap h1) as [[a|] h1'] eqn:Hp1.
    + apply popHeap_Some in Hp1 as (Hhd1 & Hperm1 & Hord1).
      intros [= <- <-]. split_and!.
      * rewrite Hperm, Hperm1, pushHeap_perm. apply perm_swap.
      * intros Hh. apply pushHeap_ordered. auto.
      * intros Hh Hnd. rewrite Hperm, Hperm1 in Hnd. cbn in Hnd.
        apply NoDup_cons in Hnd as [Hb Hnd]. split.
        -- intros b' Hb' Hk. rewrite pushHeap_perm in Hb'.
           apply elem_of_cons in Hb' as [->|Hb']; [done|].
           apply (heapOrdered_max h1); [auto|done|].
           rewrite Hperm1. by right.
        -- intros Hc. exfalso. apply Hb. rewrite <- Heq in Hc.
           injection Hc as ->. left.
    + apply popHeap_nil_inv in Hp1 as [-> _].
      intros [= <- <-]. split_and!; [done|auto|]. intros _ _. split; [|done].
      intros b' Hb'. by apply elem_of_nil in Hb'.
  - intros [= <- <-]. split_and!; [done|auto|]. intros Hh _. split; [|done].
    intros b' Hb' _. apply (heapOrdered_max h); [done..|].
    rewrite Hperm. by right.
Qed.

(** *** The loop terminates and returns a permutation *)

Lemma drain_total fuel h last out :
  total h + length h <= fuel ->
  exists res, drain fuel h last out = Some res /\ res ≡ₚ out ++ contents h.
Proof.
  revert h last out. induction fuel as [|fuel IH]; intros h last out Hf.
  - assert (h = []) as -> by (destruct h; [done|cbn in Hf; lia]).
    exists out. split; [done|]. cbn. by rewrite app_nil_r.
  - cbn [drain]. destruct (pickBucket h last) as [[c h2]|] eqn:Hp.
    + apply pickBucket_Some in Hp as (Hperm & _).
      assert (Hc : contents h ≡ₚ btracks c ++ contents h2) by by rewrite Hperm.
      assert (Ht : total h + length h = blen c + total h2 + S (length h2)).
      { rewrite Hperm, total_cons. cbn [length]. lia. }
      unfold blen in Ht. clear Hperm.
      destruct (btracks c) as [|t rest] eqn:Hbc.
      * destruct (IH h2 last out) as (res & -> & Hres); [lia|].
        exists res. split; [done|]. by rewrite Hres, Hc.
      * cbn [length] in Ht. destruct rest as [|t' rest'].
        -- destruct (IH h2 (Some (key c)) (out ++ [t])) as (res & -> & Hres); [lia|].
           exists res. split; [done|]. rewrite Hres, Hc. by rewrite <- app_assoc.
        -- set (c' := {| key := key c; btracks := t' :: rest' |}).
           destruct (IH (pushHeap h2 c') (Some (key c)) (out ++ [t]))
             as (res & -> & Hres).
           { rewrite pushHeap_perm, total_cons. cbn [length blen btracks c'] in *. lia. }
           exists res. split; [done|]. rewrite Hres, Hc, pushHeap_perm, contents_cons.
           cbn [btracks c']. by rewrite <- app_assoc.
    + apply pickBucket_None in Hp as ->. exists out. split; [done|].
      cbn. by rewrite app_nil_r.
Qed.

(** *** No two neighbours of the output have the same artist key *)

Lemma noAdjacent_snoc out t :
  noAdjacent out ->
  artistKey <$> last out <> Some (artistKey t) ->
  noAdjacent (out ++ [t]).
Proof.
  intros Hout Hlast i a b Ha Hb.
  apply lookup_lt_Some in Hb as Hlt. rewrite length_app in Hlt. cbn in Hlt.
  rewrite lookup_app_l in Ha by lia.
  destruct (decide (S i = length out)) as [Heq|Hne].
  - rewrite lookup_app_r, Heq, Nat.sub_diag in Hb by lia. injection Hb as <-.
    rewrite last_lookup, <- Heq in Hlast. cbn in Hlast. rewrite Ha in Hlast.
    cbn in Hlast. congruence.
  - rewrite lookup_app_l in Hb by lia. eauto.
Qed.

Lemma bucketInv_perm B B' lastKey :
  B ≡ₚ B' -> bucketInv B lastKey -> bucketInv B' lastKey.
Proof.
  intros HP [H1 H2 H3]. split.
  - by rewrite <- HP.
  - intros b Hb. apply H2. by rewrite HP.
  - intros b Hb. rewrite <- HP. apply H3. by rewrite HP.
Qed.

Lemma total_elem b B : b ∈ B -> blen b <= total B.
Proof. apply sum_list_with_in. Qed.

(** Emitting the first track of a bucket that does not have the last key and
    is a largest such bucket keeps the invariant. *)
Lemma bucketInv_emit c others lastKey t rest :
  bucketInv (c :: others) lastKey ->
  Some (key c) <> lastKey ->
  (forall b, b ∈ others -> Some (key b) <> lastKey -> blen b <= blen c) ->
  btracks c = t :: rest ->
  let c' := {| key := key c; btracks := rest |} in
  bucketInv (match rest with [] => others | _ :: _ => c' :: others end)
            (Some (key c)).
Proof.
  intros [Hnd Htr Hhalf] Hlast Hmax Hc c'.
  cbn in Hnd. apply NoDup_cons in Hnd as [Hck Hnd].
  assert (Hblen : blen c = S (length rest)) by (unfold blen; by rewrite Hc).
  assert (Hothers : forall b, b ∈ others ->
            2 * blen b <= total others + length rest + 1 /\ key b <> key c).
  { intros b Hb. split.
    - destruct (Hhalf b ltac:(by right)) as [_ H2].
      rewrite total_cons in H2.
      destruct (decide (Some (key b) = lastKey)) as [Hk|Hk]; [specialize (H2 Hk); lia|].
      pose proof (Hmax b Hb Hk). pose proof (total_elem b others Hb). lia.
    - intros Hk. apply Hck. rewrite <- Hk. by apply list_elem_of_fmap_2. }
  destruct (Hhalf c ltac:(by left)) as [Hc1 _]. rewrite total_cons in Hc1.
  destruct rest as [|t' rest']; split.
  - done.
  - intros b Hb. apply Htr. by right.
  - intros b Hb. destruct (Hothers b Hb) as [H1 H2]. cbn [length] in H1.
    split; [lia|]. intros [=]. done.
  - cbn. apply NoDup_cons. done.
  - intros b [->|Hb]%elem_of_cons.
    + split; [done|]. intros t0 Ht0. cbn in Ht0 |- *.
      destruct (Htr c ltac:(by left)) as [_ H]. apply H. rewrite Hc. by right.
    + apply Htr. by right.
  - intros b Hb. rewrite total_cons.
    assert (Hc' : blen c' = length (t' :: rest')) by done. rewrite Hc'.
    apply elem_of_cons in Hb as [->|Hb].
    + rewrite Hc'. split; intros; lia.
    + destruct (Hothers b Hb) as [H1 H2]. split; [lia|]. intros [=]. done.
Qed.

Lemma drain_noAdjacent fuel h lastKey out res :
  heapOrdered h ->
  bucketInv h lastKey ->
  noAdjacent out ->
  artistKey <$> last out = lastKey ->
  drain fuel h lastKey out = Some res ->
  noAdjacent res.
Proof.
  revert h lastKey out. induction fuel as [|fuel IH]; intros h lastKey out Hh Hinv Hout Hlast;
    cbn [drain]; destruct (pickBucket h lastKey) as [[c h2]|] eqn:Hp;
    try done; try (by intros [= <-]).
  apply pickBucket_Some in Hp as (Hperm & Hord & Hpick).
  destruct (Hpick Hh (bi_nodup _ _ Hinv)) as [Hmax Halone].
  apply (bucketInv_perm _ _ _ Hperm) in Hinv.
  destruct (bi_tracks _ _ Hinv c ltac:(by left)) as [Hne Hkeys].
  assert (Hck : Some (key c) <> lastKey).
  { intros Hk. rewrite (Halone Hk) in Hinv.
    destruct (bi_half _ _ Hinv c ltac:(by left)) as [_ H2]. specialize (H2 Hk).
    rewrite total_cons in H2. cbn in H2.
    apply Hne. apply length_zero_iff_nil. unfold blen in H2. lia. }
  destruct (btracks c) as [|t rest] eqn:Hc; [done|].
  pose proof (bucketInv_emit c h2 lastKey t rest Hinv Hck Hmax Hc) as Hinv'.
  cbn zeta in Hinv'.
  assert (Ht : artistKey t = key c) by (apply Hkeys; by left).
  apply IH.
  - destruct rest; [auto|]. apply pushHeap_ordered. auto.
  - destruct rest; [done|]. eapply bucketInv_perm; [|exact Hinv'].
    by rewrite pushHeap_perm.
  - apply noAdjacent_snoc; [done|]. rewrite Hlast, Ht. done.
  - rewrite last_snoc. cbn. by rewrite Ht.
Qed.

(** *** Grouping, shuffling the groups, building the heap *)

Lemma fisherYates_perm i r ts : (fisherYates i r ts).1 ≡ₚ ts.
Proof.
  revert r ts. induction i as [|i IH]; intros r ts; [done|].
  cbn [fisherYates]. destruct (randomIndex _ r) as [j r1].
  rewrite IH. apply swap_perm.
Qed.

Lemma mapHas_spec g k : mapHas g k = true <-> k ∈ g.*1.
Proof.
  induction g as [|[k' l] g IH]; cbn.
  - split; [done|]. by intros ?%elem_of_nil.
  - destruct (String.eqb_spec k' k) as [->|Hne].
    + split; [left|done].
    + rewrite IH. split; [by right|]. intros [?|?]%elem_of_cons; [congruence|done].
Qed.

Lemma mapGetPush_snoc g k l t :
  mapHas g k = false -> mapGetPush (g ++ [(k, l)]) k t = g ++ [(k, l ++ [t])].
Proof.
  induction g as [|[k' l'] g IH]; cbn; intros H.
  - by rewrite String.eqb_refl.
  - destruct (String.eqb k' k); [done|]. by rewrite IH.
Qed.

Lemma mapGetPush_split g k t :
  mapHas g k = true ->
  exists g1 l g2, g = g1 ++ (k, l) :: g2 /\ mapGetPush g k t = g1 ++ (k, l ++ [t]) :: g2.
Proof.
  induction g as [|[k' l'] g IH]; cbn; [done|].
  destruct (String.eqb_spec k' k) as [->|Hne]; intros H.
  - by exists [], l', g.
  - destruct (IH H) as (g1 & l & g2 & -> & ->). by exists ((k', l') :: g1), l, g2.
Qed.

Lemma groupStep_ok g t :
  groupsOk g ->
  groupsOk (groupStep g t) /\ groupStep g t ≫= snd ≡ₚ (g ≫= snd) ++ [t].
Proof.
  intros [Hnd Hg]. unfold groupStep.
  destruct (mapHas g (artistKey t)) eqn:Hhas.
  - destruct (mapGetPush_split g _ t Hhas) as (g1 & l & g2 & -> & ->).
    split; [split|].
    + revert Hnd. by rewrite !fmap_app, !fmap_cons.
    + intros k0 l0 [H|[H|H]%elem_of_cons]%elem_of_app.
      * apply Hg. apply elem_of_app. by left.
      * injection H as -> ->. split; [by destruct l|].
        intros t0 [Ht0|Ht0%list_elem_of_singleton]%elem_of_app; [|by subst].
        eapply Hg; [|done]. apply elem_of_app. right. left.
      * apply Hg. apply elem_of_app. right. by right.
    + rewrite !bind_app, !bind_cons. cbn [snd].
      rewrite <- !app_assoc. f_equiv. f_equiv. apply Permutation_app_comm.
  - rewrite mapGetPush_snoc by done. split; [split|].
    + rewrite fmap_app. cbn. apply NoDup_app. split_and!; [done| |apply NoDup_singleton].
      intros k Hk ->%list_elem_of_singleton.
      apply mapHas_spec in Hk. congruence.
    + intros k0 l0 [H|H%list_elem_of_singleton]%elem_of_app; [by apply Hg|].
      injection H as -> ->. split; [done|].
      by intros t0 ->%list_elem_of_singleton.
    + by rewrite bind_app.
Qed.

Lemma foldl_groupStep_ok ts g :
  groupsOk g ->
  groupsOk (foldl groupStep g ts) /\ foldl groupStep g ts ≫= snd ≡ₚ (g ≫= snd) ++ ts.
Proof.
  revert g. induction ts as [|t ts IH]; intros g Hg; cbn [foldl].
  - by rewrite app_nil_r.
  - destruct (groupStep_ok g t Hg) as [Hg1 Hp1].
    destruct (IH _ Hg1) as [Hg2 Hp2]. split; [done|].
    rewrite Hp2, Hp1. by rewrite <- app_assoc.
Qed.

Lemma groupTracks_ok ts :
  groupsOk (groupTracks ts) /\ groupTracks ts ≫= snd ≡ₚ ts.
Proof.
  apply (foldl_groupStep_ok ts []). split; [constructor|].
  by intros k l ?%elem_of_nil.
Qed.

Lemma makeBuckets_spec g r :
  let bs := (makeBuckets g r).1 in
  key <$> bs = g.*1 /\
  (forall b, b ∈ bs -> exists l, (key b, l) ∈ g /\ btracks b ≡ₚ l) /\
  contents bs ≡ₚ g ≫= snd.
Proof.
  revert r. induction g as [|[k l] g IH]; intros r; cbn [makeBuckets].
  - cbn. split_and!; [done| |done]. by intros b ?%elem_of_nil.
  - pose proof (fisherYates_perm (length l - 1) r l) as Hfy.
    destruct (fisherYates _ r l) as [l' r1]. cbn [fst] in Hfy.
    specialize (IH r1). destruct (makeBuckets g r1) as [bs r2].
    cbn [fst] in *. destruct IH as (IH1 & IH2 & IH3). split_and!.
    + cbn. by rewrite IH1.
    + intros b [->|Hb]%elem_of_cons.
      * exists l. split; [left|done].
      * destruct (IH2 b Hb) as (l0 & ? & ?). exists l0. split; [by right|done].
    + rewrite contents_cons, bind_cons. cbn. by rewrite Hfy, IH3.
Qed.

Lemma buildHeap_spec bs h :
  heapOrdered h ->
  heapOrdered (foldl pushHeap h bs) /\ foldl pushHeap h bs ≡ₚ bs ++ h.
Proof.
  revert h. induction bs as [|b bs IH]; intros h Hh; cbn [foldl]; [done|].
  destruct (IH (pushHeap h b) (pushHeap_ordered _ _ Hh)) as [H1 H2].
  split; [done|]. rewrite H2, pushHeap_perm. cbn.
  by rewrite Permutation_middle.
Qed.

Lemma countKey_all k ts : (forall t, t ∈ ts -> artistKey t = k) -> countKey k ts = length ts.
Proof.
  unfold countKey. induction ts as [|t ts IH]; intros H; [done|].
  rewrite filter_cons_True by (apply H; left). cbn. f_equal.
  apply IH. intros t0 Ht0. apply H. by right.
Qed.

(** The heap that [smartShuffle] starts from. *)
Lemma initial_heap ts r :
  let h := buildHeap (makeBuckets (groupTracks ts) r).1 in
  heapOrdered h /\ contents h ≡ₚ ts /\
  NoDup (key <$> h) /\
  (forall b, b ∈ h ->
     btracks b <> [] /\ (forall t, t ∈ btracks b -> artistKey t = key b) /\
     blen b <= countKey (key b) ts).
Proof.
  intros h.
  destruct (groupTracks_ok ts) as [[Hnd Hg] Hgp].
  destruct (makeBuckets_spec (groupTracks ts) r) as (Hk & Hb & Hc).
  destruct (buildHeap_spec (makeBuckets (groupTracks ts) r).1 [] heapOrdered_nil)
    as [Hord Hperm].
  rewrite app_nil_r in Hperm. fold (buildHeap (makeBuckets (groupTracks ts) r).1) in *.
  fold h in Hord, Hperm.
  assert (Hcont : contents h ≡ₚ ts) by (by rewrite Hperm, Hc).
  assert (Htr : forall b, b ∈ h ->
     btracks b <> [] /\ (forall t, t ∈ btracks b -> artistKey t = key b)).
  { intros b Hbh. rewrite Hperm in Hbh.
    destruct (Hb b Hbh) as (l & Hl & Hpl). destruct (Hg _ _ Hl) as [Hne Hkeys].
    split.
    - intros E. rewrite E in Hpl. by apply Permutation_nil in Hpl.
    - intros t Ht. apply Hkeys. by rewrite <- Hpl. }
  split_and!; [done|done| |].
  - by rewrite Hperm, Hk.
  - intros b Hbh. destruct (Htr b Hbh) as [Hne Hkeys]. split_and!; [done..|].
    apply elem_of_Permutation in Hbh as [rest Hrest].
    unfold countKey. rewrite <- Hcont, Hrest, contents_cons, filter_app, length_app.
    fold (countKey (key b) (btracks b)). rewrite countKey_all by done.
    unfold blen. lia.
Qed.

Lemma siftDown_fuel f1 f2 h k :
  length h <= k + f1 -> length h <= k + f2 -> siftDown f1 h k = siftDown f2 h k.
Proof.
  revert f2 h k. induction f1 as [|f1 IH]; intros [|f2] h k H1 H2; cbn [siftDown];
    try done.
  - destruct (Nat.ltb_spec (2 * k + 1) (length h)); [lia|].
    destruct (Nat.ltb_spec (2 * k + 2) (length h)); [lia|].
    cbn [andb]. by rewrite Nat.eqb_refl.
  - destruct (Nat.ltb_spec (2 * k + 1) (length h)); [lia|].
    destruct (Nat.ltb_spec (2 * k + 2) (length h)); [lia|].
    cbn [andb]. by rewrite Nat.eqb_refl.
  - set (l1 := if (2 * k + 1 <? length h) && _ then _ else _).
    set (l2 := if (2 * k + 2 <? length h) && _ then _ else _).
    assert (l2 = k \/ (k < l2 /\ l2 < length h)) as [->|[? ?]].
    { subst l1 l2.
      destruct (Nat.ltb_spec (2 * k + 1) (length h)); cbn [andb];
        [destruct (hlen h k <? hlen h (2 * k + 1))|];
        (destruct (Nat.ltb_spec (2 * k + 2) (length h)); cbn [andb];
          [destruct (hlen h _ <? hlen h (2 * k + 2))|]); lia. }
    + by rewrite Nat.eqb_refl.
    + destruct (Nat.eqb_spec l2 k); [done|].
      apply IH; rewrite swap_length; lia.
Qed.

Lemma length_le_total h :
  (forall b, b ∈ h -> btracks b <> []) -> length h <= total h.
Proof.
  induction h as [|b h IH]; intros H; [done|].
  rewrite total_cons. cbn [length].
  assert (1 <= blen b).
  { unfold blen. destruct (btracks b) eqn:E; [|cbn; lia].
    exfalso. by apply (H b); [left|]. }
  assert (length h <= total h); [|lia].
  apply IH. intros b' Hb'. apply H. by right.
Qed.

Theorem smartShuffle_permutation_no_adjacent (r : Rng) (q : Queue.t) :
  exists q', smartShuffle r q = Some q' /\
    tracks q' ≡ₚ tracks q /\
    (length (tracks q) = 1 -> tracks q' = tracks q) /\
    ((forall k, countKey k (tracks q) <= (length (tracks q) + 1) / 2) ->
     forall i a b, tracks q' !! i = Some a -> tracks q' !! (i + 1) = Some b ->
       artistKey a <> artistKey b /\ author (info a) <> author (info b)).
Proof.
  unfold smartShuffle.
  destruct (Nat.leb_spec (length (tracks q)) 1) as [Hle|Hgt].
  { exists q. split_and!; [done..|]. intros _ i a b Ha Hb.
    apply lookup_lt_Some in Hb. lia. }
  pose proof (initial_heap (tracks q) r) as Hinit. cbn zeta in Hinit.
  destruct (makeBuckets (groupTracks (tracks q)) r) as [buckets r'].
  cbn [fst] in Hinit. destruct Hinit as (Hord & Hcont & Hnd & Hb).
  set (h := buildHeap buckets) in *.
  assert (Htot : total h = length (tracks q)) by (by rewrite total_contents, Hcont).
  destruct (drain_total (2 * length (tracks q)) h None []) as (res & Hres & Hperm).
  { assert (length h <= total h); [|lia].
    apply length_le_total. intros b Hbh. by destruct (Hb b Hbh). }
  rewrite Hres. eexists. split; [done|]. cbn [tracks].
  rewrite app_nil_l in Hperm. split_and!.
  - by rewrite Hperm.
  - lia.
  - intros Hhalf i a b Ha Hbb.
    assert (Hna : noAdjacent res).
    { eapply (drain_noAdjacent _ h None []); [done| | |done|done].
      - split; [done| |].
        + intros b0 Hb0. destruct (Hb b0 Hb0) as (? & ? & ?). done.
        + intros b0 Hb0. destruct (Hb b0 Hb0) as (_ & _ & Hc). split; [|done].
          specialize (Hhalf (key b0)). rewrite Htot. lia.
      - intros j x y Hx. by rewrite lookup_nil in Hx. }
    rewrite Nat.add_1_r in Hbb. pose proof (Hna i a b Ha Hbb) as Hk.
    split; [done|]. intros E. apply Hk. unfold artistKey. by rewrite E.
Qed.

Lemma smartShuffle_permutation_no_adjacent_witness :
  exists q', smartShuffle sampleRng sampleQueue = Some q' /\
    tracks q' ≡ₚ tracks sampleQueue /\
    forall i a b, tracks q' !! i = Some a -> tracks q' !! (i + 1) = Some b ->
       artistKey a <> artistKey b /\ author (info a) <> author (info b).
Proof.
  destruct (smartShuffle_permutation_no_adjacent sampleRng sampleQueue)
    as (q' & H1 & H2 & _ & H3).
  exists q'. split; [exact H1|]. split; [exact H2|]. apply H3.
  intros k. unfold countKey.
  change (tracks sampleQueue) with
    [sampleTrack "1" "Artist A"; sampleTrack "2" " artist a";
     sampleTrack "3" "ARTIST A "; sampleTrack "4" "Artist B";
     sampleTrack "5" "Artist C"].
  rewrite !filter_cons, filter_nil.
  assert (artistKey (sampleTrack "1" "Artist A") = "artist a"%string) as -> by reflexivity.
  assert (artistKey (sampleTrack "2" " artist a") = "artist a"%string) as -> by reflexivity.
  assert (artistKey (sampleTrack "3" "ARTIST A ") = "artist a"%string) as -> by reflexivity.
  assert (artistKey (sampleTrack "4" "Artist B") = "artist b"%string) as -> by reflexivity.
  assert (artistKey (sampleTrack "5" "Artist C") = "artist c"%string) as -> by reflexivity.
  change ((length _ + 1) / 2) with 3.
  destruct (decide ("artist a"%string = k)) as [<-|Ha]; [vm_compute; repeat constructor|].
  destruct (decide ("artist b"%string = k)) as [<-|Hb]; [vm_compute; repeat constructor|].
  destruct (decide ("artist c"%string = k)) as [<-|Hc]; cbn [length]; repeat constructor.
Defined.

(** ** Queue.poll and Queue.toggleLoop *)

Lemma pollMany_track_loop q c n :
  Queue.loopMode q = Queue.LoopTrack -> Queue.current q = Some c ->
  Queue.pollMany n q = (replicate n (Some c), q).
Proof.
  intros Hm Hc. induction n as [|n IH]; [done|].
  cbn [Queue.pollMany]. unfold Queue.poll at 1. rewrite Hm, Hc, IH. done.
Qed.

(** The queue loop of the test suite: from the list [a; b] with no current
    track, three polls return [a], [b], [a], and the list is then [b]. *)
Example poll_queue_loop :
  let a := sampleTrack "1" "Artist A" in
  let b := sampleTrack "2" "Artist B" in
  let q := Queue.setLoopMode Queue.LoopQueue (Queue.addMany [a; b] Queue.empty) in
  (Queue.pollMany 3 q).1 = [Some a; Some b; Some a] /\
  Queue.tracks (Queue.pollMany 2 q).2 = [a] /\
  Queue.tracks (Queue.pollMany 3 q).2 = [b].
Proof. vm_compute. done. Qed.

(** C3. [poll] under the track loop returns [current] and changes nothing,
    however many times it is called; otherwise it moves [current] to
    [previous], takes the front of the list as the new [current] (null when
    the list is empty), appends the old [current] under the queue loop when
    both are non-null, and returns the new [current]; under the queue loop a
    poll that returns a track keeps the multiset of [current] and the list. *)
Theorem poll_spec (q : Queue.t) :
  (forall c n, Queue.loopMode q = Queue.LoopTrack -> Queue.current q = Some c ->
     Queue.pollMany n q = (replicate n (Some c), q)) /\
  (~ (Queue.loopMode q = Queue.LoopTrack /\ Queue.current q <> None) ->
     (Queue.poll q).1 = head (Queue.tracks q) /\
     Queue.current (Queue.poll q).2 = head (Queue.tracks q) /\
     Queue.previous (Queue.poll q).2 = Queue.current q /\
     Queue.loopMode (Queue.poll q).2 = Queue.loopMode q /\
     Queue.tracks (Queue.poll q).2 =
       tail (Queue.tracks q) ++
       match Queue.loopMode q, Queue.current q, head (Queue.tracks q) with
       | Queue.LoopQueue, Some old, Some _ => [old]
       | _, _, _ => []
       end) /\
  (Queue.loopMode q = Queue.LoopQueue -> (Queue.poll q).1 <> None ->
     option_list (Queue.current (Queue.poll q).2) ++ Queue.tracks (Queue.poll q).2
     ≡ₚ option_list (Queue.current q) ++ Queue.tracks q).
Proof.
  split_and!.
  - intros c n. apply pollMany_track_loop.
  - intros Hno. unfold Queue.poll.
    destruct q as [ts [c|] pr []]; cbn in *;
      try (exfalso; apply Hno; by split);
      destruct ts as [|t ts]; cbn; by rewrite ?app_nil_r.
  - intros Hq. unfold Queue.poll. rewrite Hq.
    destruct q as [[|t ts] [c|] pr m]; cbn; intros Hr; try done.
    rewrite (Permutation_app_comm ts [c]). cbn. apply perm_swap.
Qed.

Lemma poll_spec_witness :
  option_list (Queue.current (Queue.poll loopingQueue).2)
    ++ Queue.tracks (Queue.poll loopingQueue).2
  ≡ₚ option_list (Queue.current loopingQueue) ++ Queue.tracks loopingQueue.
Proof.
  destruct (poll_spec loopingQueue) as (_ & _ & H).
  apply H; [reflexivity | discriminate].
Defined.

(** C10. [toggleLoop] turns [None] into [Queue] and every other mode into
    [None], returns the new mode, and leaves the list, [current] and
    [previous] alone; from [Track] it gives [None]. *)
Theorem toggleLoop_spec (q : Queue.t) :
  (Queue.toggleLoop q).1 =
    match Queue.loopMode q with
    | Queue.LoopNone => Queue.LoopQueue
    | _ => Queue.LoopNone
    end /\
  Queue.loopMode (Queue.toggleLoop q).2 = (Queue.toggleLoop q).1 /\
  Queue.tracks (Queue.toggleLoop q).2 = Queue.tracks q /\
  Queue.current (Queue.toggleLoop q).2 = Queue.current q /\
  Queue.previous (Queue.toggleLoop q).2 = Queue.previous q /\
  (Queue.loopMode q = Queue.LoopTrack ->
     (Queue.toggleLoop q).1 = Queue.LoopNone /\
     (Queue.toggleLoop q).1 <> Queue.LoopQueue).
Proof.
  unfold Queue.toggleLoop. cbn. split_and!; try done.
  intros ->. done.
Qed.

Lemma toggleLoop_spec_witness :
  (Queue.toggleLoop (Queue.setLoopMode Queue.LoopTrack loopingQueue)).1 = Queue.LoopNone.
Proof.
  destruct (toggleLoop_spec (Queue.setLoopMode Queue.LoopTrack loopingQueue))
    as (_ & _ & _ & _ & _ & H).
  apply H. reflexivity.
Defined.

(** ** The node: sample runs *)

Example openNode_fields :
  Node.connected openNode = true /\ Node.sessionId openNode = None /\
  Node.connectionState openNode = Node.CONNECTED.
Proof. vm_compute. done. Qed.

Example disconnectedResumingNode_fields :
  Node.connected disconnectedResumingNode = false /\
  Node.sessionId disconnectedResumingNode = Some "session-r"%string.
Proof. vm_compute. done. Qed.

(** ** The guards of the REST operations *)

Ltac node_unfold :=
  unfold Node.rest, Node.updatePlayer, Node.destroyPlayer, Node.loadTracks,
    Node.decodeTrack, Node.decodeTracks, Node.getJson, Node.getInfo,
    Node.pluginRequest, Node.fetchWithTimeout, Node.emitAndRethrow,
    Node.emit, Node.result, Node.after, Node.effects;
  unfold mbind, mret, Node.node_bind, Node.node_ret, Node.bind, Node.tryCatch,
    Node.ret, Node.throw, Node.get, Node.put, Node.modify, Node.effect.

Lemma truthy_false_cases s :
  truthy s = false -> s = None \/ s = Some EmptyString.
Proof. destruct s as [[|]|]; cbn; auto; discriminate. Qed.

Lemma rest_guard_fails net now op n :
  Node.guardPasses op n = false ->
  Node.rest net now op n = (Err (Node.guardError op n), n, []).
Proof.
  destruct op; cbn [Node.guardPasses Node.guardError]; intros H;
    try (apply truthy_false_cases in H as [H|H]);
    node_unfold; cbn; rewrite H; reflexivity.
Qed.

(** A request made by the first step of a method is made by the method. *)
Lemma fetches_bind {A B} (m : Node.M A) (k : A -> Node.M B) n :
  existsb Node.isFetch (Node.effects (m n)) = true ->
  existsb Node.isFetch (Node.effects ((m ≫= k) n)) = true.
Proof.
  unfold Node.effects, mbind, Node.node_bind, Node.bind.
  destruct (m n) as [[[a|e] n1] eff1]; cbn; [|done].
  destruct (k a n1) as [[r n2] eff2]; cbn. rewrite existsb_app. by intros ->.
Qed.

Lemma fetches_tryCatch {A} (m : Node.M A) (h : JsError -> Node.M A) n :
  existsb Node.isFetch (Node.effects (m n)) = true ->
  existsb Node.isFetch (Node.effects (Node.tryCatch m h n)) = true.
Proof.
  unfold Node.effects, Node.tryCatch.
  destruct (m n) as [[[a|e] n1] eff1]; cbn; [done|].
  destruct (h e n1) as [[r n2] eff2]; cbn. rewrite existsb_app. by intros ->.
Qed.

Lemma fetches_get {A} (k : Node.t -> Node.M A) n :
  existsb Node.isFetch (Node.effects (k n n)) = true ->
  existsb Node.isFetch (Node.effects ((Node.get ≫= k) n)) = true.
Proof.
  unfold Node.effects, mbind, Node.node_bind, Node.bind, Node.get.
  by destruct (k n n) as [[r n2] eff2].
Qed.

Lemma fetches_fetch net req n :
  existsb Node.isFetch (Node.effects (Node.fetchWithTimeout net req n)) = true.
Proof.
  unfold Node.fetchWithTimeout. apply fetches_bind. done.
Qed.

Lemma fetches_getJson net req what n :
  Node.connected n = true ->
  existsb Node.isFetch (Node.effects (Node.getJson net req what n)) = true.
Proof.
  intros Hc. unfold Node.getJson. apply fetches_get. rewrite Hc. cbn [negb].
  apply fetches_tryCatch, fetches_bind, fetches_fetch.
Qed.

Lemma rest_guard_passes_fetch net now op n :
  Node.guardPasses op n = true ->
  match op with
  | Node.GetInfo _ | Node.PluginRequest _ _ _ _ => True
  | _ => existsb Node.isFetch (Node.effects (Node.rest net now op n)) = true
  end.
Proof.
  destruct op; cbn [Node.guardPasses]; intros H; try done;
    unfold Node.rest; apply fetches_bind.
  1,2: unfold Node.updatePlayer, Node.destroyPlayer; apply fetches_get;
    destruct (Node.sessionId n) as [sid|]; [|discriminate]; rewrite H; cbn [negb];
    apply fetches_tryCatch, fetches_bind, fetches_fetch.
  all: unfold Node.loadTracks, Node.decodeTrack, Node.decodeTracks;
    apply fetches_get; by apply fetches_getJson.
Qed.

(** ** Fields that a method of the node leaves alone *)

Section Frame.
Context {X : Type} (f : Node.t -> X).

Lemma keeps_bind {A B} (m : Node.M A) (k : A -> Node.M B) :
  keeps f m -> (forall a, keeps f (k a)) -> keeps f (m ≫= k).
Proof.
  intros Hm Hk n. specialize (Hm n). unfold Node.after in *.
  unfold mbind, Node.node_bind, Node.bind.
  destruct (m n) as [[[a|e] n1] eff1]; cbn in *; [|done].
  specialize (Hk a n1). unfold Node.after in Hk.
  destruct (k a n1) as [[r n2] eff2]; cbn in *. congruence.
Qed.

Lemma keeps_tryCatch {A} (m : Node.M A) (h : JsError -> Node.M A) :
  keeps f m -> (forall e, keeps f (h e)) -> keeps f (Node.tryCatch m h).
Proof.
  intros Hm Hh n. specialize (Hm n). unfold Node.after, Node.tryCatch in *.
  destruct (m n) as [[[a|e] n1] eff1]; cbn in *; [done|].
  specialize (Hh e n1). unfold Node.after in Hh.
  destruct (h e n1) as [[r n2] eff2]; cbn in *. congruence.
Qed.

Lemma keeps_ret {A} (a : A) : keeps f (Node.ret a).
Proof. done. Qed.

Lemma keeps_mret {A} (a : A) : keeps f (mret a).
Proof. done. Qed.

Lemma keeps_throw {A} e : keeps f (@Node.throw A e).
Proof. done. Qed.

Lemma keeps_get : keeps f Node.get.
Proof. done. Qed.

Lemma keeps_effect e : keeps f (Node.effect e).
Proof. done. Qed.

Lemma keeps_emit e : keeps f (Node.emit e).
Proof. done. Qed.

Lemma keeps_modify g : (forall n, f (g n) = f n) -> keeps f (Node.modify g).
Proof. intros H n. apply H. Qed.

Lemma keeps_fetch net req : keeps f (Node.fetchWithTimeout net req).
Proof.
  unfold Node.fetchWithTimeout.
  apply keeps_bind; [apply keeps_effect|]. intros _.
  destruct (net req); auto using keeps_ret, keeps_throw.
Qed.

Lemma keeps_send payload : keeps f (Node.send payload).
Proof.
  unfold Node.send. apply keeps_bind; [apply keeps_get|]. intros n.
  destruct (Node.ws n) as [[]|]; auto using keeps_effect, keeps_throw.
Qed.

Lemma keeps_emitAndRethrow {A} e : keeps f (@Node.emitAndRethrow A e).
Proof.
  unfold Node.emitAndRethrow.
  apply keeps_bind; [apply keeps_get|]. intros n.
  apply keeps_bind; [apply keeps_emit|]. intros _. apply keeps_throw.
Qed.

(** [getInfo] only writes the cached information. *)
Hypothesis f_setInfo : forall info now n, f (Node.setInfo info now n) = f n.
Hypothesis f_clearInfo : forall now n, f (Node.clearInfo now n) = f n.

Lemma keeps_fetchInfo net now : keeps f (Node.fetchInfo net now).
Proof.
  intros n. unfold Node.fetchInfo, Node.fetchWithTimeout,
    Node.emitAndRethrow, Node.emit, Node.after.
  unfold mbind, mret, Node.node_bind, Node.node_ret, Node.bind, Node.tryCatch,
    Node.ret, Node.throw, Node.get, Node.put, Node.modify, Node.effect.
  cbn. destruct (net _) as [r| |m]; cbn; [|done..].
  destruct (ok r); cbn; [|done].
  destruct (jsonInfo r) as [| |info]; cbn; [done|apply f_clearInfo|].
  destruct (pluginsError info); cbn; apply f_setInfo.
Qed.

Lemma keeps_getInfo net now force : keeps f (Node.getInfo net now force).
Proof.
  unfold Node.getInfo. apply keeps_bind; [apply keeps_get|]. intros n.
  destruct (negb (Node.connected n)); [apply keeps_throw|].
  destruct (Node.lavalinkInfo n); [|apply keeps_fetchInfo].
  destruct (_ && _); [apply keeps_ret|apply keeps_fetchInfo].
Qed.

Lemma keeps_discoverPlugins net now : keeps f (Node.discoverPlugins net now).
Proof.
  unfold Node.discoverPlugins.
  apply keeps_tryCatch; [|intros; apply keeps_throw].
  apply keeps_bind; [apply keeps_getInfo|]. intros info.
  apply keeps_bind; [apply keeps_get|]. intros n.
  apply keeps_bind; [apply keeps_emit|]. intros _.
  induction (plugins info) as [|p ps IH]; cbn [foldr]; [apply keeps_mret|].
  apply keeps_bind; [apply keeps_emit|]. by intros _.
Qed.

End Frame.

Lemma after_modify_bind {A} (g : Node.t -> Node.t) (k : Node.M A) n :
  Node.after ((Node.modify g ;; k) n) = Node.after (k (g n)).
Proof.
  unfold Node.after, mbind, Node.node_bind, Node.bind, Node.modify.
  by destruct (k (g n)) as [[r n2] eff2].
Qed.

Lemma after_get_bind {A} (k : Node.t -> Node.M A) n :
  Node.after ((Node.get ≫= k) n) = Node.after (k n n).
Proof.
  unfold Node.after, mbind, Node.node_bind, Node.bind, Node.get.
  by destruct (k n n) as [[r n2] eff2].
Qed.

(** [scheduleReconnect] writes the connection state, the number of attempts
    and the timer, and nothing else. *)
Lemma keeps_scheduleReconnect {X} (f : Node.t -> X) u :
  (forall v n, f (Node.set_connectionState v n) = f n) ->
  (forall v n, f (Node.set_reconnectAttempts v n) = f n) ->
  (forall v n, f (Node.set_reconnectTimeout v n) = f n) ->
  keeps f (Node.scheduleReconnect u).
Proof.
  intros H1 H2 H3. unfold Node.scheduleReconnect.
  apply keeps_bind; [apply keeps_get|]. intros n.
  apply keeps_bind; [destruct (Node.reconnectTimeout n);
                     [apply keeps_effect|apply keeps_mret]|]. intros _.
  destruct (negb _); [apply keeps_emit|].
  repeat (apply keeps_bind; [first [apply keeps_modify; auto | apply keeps_emit
                                    | apply keeps_effect]|intros _]).
  apply keeps_modify. auto.
Qed.

(** ** Past the guards *)

Lemma fetches_fetchInfo net now n :
  existsb Node.isFetch (Node.effects (Node.fetchInfo net now n)) = true.
Proof.
  unfold Node.fetchInfo. apply fetches_get.
  apply fetches_tryCatch, fetches_bind, fetches_fetch.
Qed.

Lemma getInfo_cached net now n :
  Node.connected n = true -> infoFresh now n = true ->
  exists info, Node.lavalinkInfo n = Some info /\
    Node.getInfo net now false n = (Ok info, n, []).
Proof.
  unfold infoFresh, Node.getInfo. intros Hc Hf.
  destruct (Node.lavalinkInfo n) as [info|] eqn:Hi; [|done]. exists info.
  split; [done|]. node_unfold. cbn. by rewrite Hc, Hi, Hf.
Qed.

Lemma getInfo_fetches_stale net now force n :
  Node.connected n = true -> negb force && infoFresh now n = false ->
  existsb Node.isFetch (Node.effects (Node.getInfo net now force n)) = true.
Proof.
  unfold infoFresh, Node.getInfo. intros Hc Hf. apply fetches_get.
  rewrite Hc. cbn [negb].
  destruct (Node.lavalinkInfo n) as [info|]; [|apply fetches_fetchInfo].
  rewrite Hf. apply fetches_fetchInfo.
Qed.

Lemma fetches_bind_ok {A B} (m : Node.M A) (k : A -> Node.M B) n a n1 eff1 :
  m n = (Ok a, n1, eff1) ->
  existsb Node.isFetch (Node.effects (k a n1)) = true ->
  existsb Node.isFetch (Node.effects ((m ≫= k) n)) = true.
Proof.
  unfold Node.effects, mbind, Node.node_bind, Node.bind. intros ->.
  destruct (k a n1) as [[r n2] eff2]; cbn. rewrite existsb_app.
  intros ->. apply orb_true_r.
Qed.

Lemma hasPlugin_cached net now name n :
  0 < base.size (Node.pluginCache n) ->
  Node.hasPlugin net now name false n
  = (Ok (bool_decide (is_Some (Node.pluginCache n !! name))), n, []).
Proof.
  intros Hs%Nat.ltb_lt.
  unfold Node.hasPlugin, mbind, mret, Node.node_bind, Node.node_ret, Node.bind,
    Node.get, Node.ret.
  cbv beta iota. by rewrite Hs.
Qed.

Lemma hasPlugin_empty_fresh net now name n :
  Node.connected n = true -> base.size (Node.pluginCache n) = 0 ->
  infoFresh now n = true ->
  Node.hasPlugin net now name false n = (Ok false, n, []).
Proof.
  intros Hc Hs Hf. destruct (getInfo_cached net now n Hc Hf) as (info & _ & Hrun).
  unfold Node.hasPlugin, mbind, mret, Node.node_bind, Node.node_ret, Node.bind,
    Node.get, Node.ret.
  cbv beta iota. rewrite Hs. cbn [Nat.ltb Nat.leb negb andb]. rewrite Hrun.
  apply map_size_empty_iff in Hs. rewrite Hs, lookup_empty.
  by rewrite bool_decide_eq_false_2 by (by intros [? ?]).
Qed.

Lemma hasPlugin_fetches net now name n :
  Node.connected n = true -> base.size (Node.pluginCache n) = 0 ->
  infoFresh now n = false ->
  existsb Node.isFetch (Node.effects (Node.hasPlugin net now name false n)) = true.
Proof.
  intros Hc Hs Hf. unfold Node.hasPlugin. apply fetches_get.
  rewrite Hs. cbn [Nat.ltb Nat.leb negb andb].
  apply fetches_bind, getInfo_fetches_stale; [done|]. by rewrite Hf.
Qed.

Lemma rest_past_guard net now op n :
  Node.guardPasses op n = true -> pastGuard net now op n.
Proof.
  intros H. pose proof (rest_guard_passes_fetch net now op n H) as Hf.
  destruct op as [| | | | |force|name endpoint method body]; try exact Hf;
    clear Hf; cbn [Node.guardPasses] in H; unfold pastGuard; cbv zeta.
  - destruct (negb force && infoFresh now n) eqn:Hfresh.
    + apply andb_true_iff in Hfresh as [Hforce Hfresh].
      destruct force; [done|].
      destruct (getInfo_cached net now n H Hfresh) as (info & Hi & Hrun).
      exists info. split; [done|].
      unfold Node.rest, mbind, Node.node_bind, Node.bind. by rewrite Hrun.
    + unfold Node.rest. by apply fetches_bind, getInfo_fetches_stale.
  - unfold Node.rest.
    destruct (Nat.eqb_spec (base.size (Node.pluginCache n)) 0) as [Hsize|Hsize].
    + assert (Hnone : Node.pluginCache n !! name = None).
      { apply map_size_empty_iff in Hsize. by rewrite Hsize. }
      rewrite Hnone. rewrite bool_decide_eq_false_2 by (by intros [? ?]).
      cbn [orb andb].
      destruct (infoFresh now n) eqn:Hfresh; cbn [negb].
      * unfold Node.pluginRequest, notInstalledError, mbind, Node.node_bind,
          Node.bind, Node.get, Node.throw.
        rewrite H. cbn [negb]. by rewrite hasPlugin_empty_fresh.
      * apply fetches_bind. unfold Node.pluginRequest. apply fetches_get.
        rewrite H. cbn [negb]. by apply fetches_bind, hasPlugin_fetches.
    + rewrite andb_false_l, orb_false_r.
      destruct (bool_decide (is_Some (Node.pluginCache n !! name))) eqn:Hhas.
      * apply fetches_bind. unfold Node.pluginRequest. apply fetches_get.
        rewrite H. cbn [negb].
        eapply fetches_bind_ok; [apply hasPlugin_cached; lia|].
        rewrite Hhas. cbn [negb].
        apply fetches_tryCatch, fetches_bind, fetches_fetch.
      * unfold Node.pluginRequest, notInstalledError, mbind, Node.node_bind,
          Node.bind, Node.get, Node.throw.
        rewrite H. cbn [negb]. rewrite hasPlugin_cached by lia.
        by rewrite Hhas.
Qed.

(** C1 (amended).  Each REST operation is guarded by one field of the node:
    [update_player] and [destroy_player] by [session_id] (null or empty), the
    five others by [connected].  When the field of its guard is unset the
    operation throws the error of the guard, leaves the node as it is and
    does no network I/O; this covers every operation when the node is
    neither connected nor has a session.  When the field is set the
    operation goes on, whatever the other field is: the two player
    operations and the three track operations send their request;
    [get_info] answers from its cache when the call is not forced and the
    cache is less than five minutes old, and sends its request otherwise;
    [plugin_request] sends a request when the plugin is in the plugin
    cache, or when that cache is empty and the information is not fresh,
    and otherwise throws the error that the plugin is not installed. *)
Theorem rest_guards (net : Net) (now : N) (n : Node.t) (op : Node.RestOp) :
  (Node.guardPasses op n = false ->
     Node.rest net now op n = (Err (Node.guardError op n), n, [])) /\
  (Node.connected n = false -> Node.sessionId n = None ->
     Node.rest net now op n = (Err (Node.guardError op n), n, [])) /\
  (Node.guardPasses op n = true -> pastGuard net now op n).
Proof.
  split_and!.
  - apply rest_guard_fails.
  - intros Hc Hs. apply rest_guard_fails. destruct op; cbn; by rewrite ?Hc, ?Hs.
  - apply rest_past_guard.
Qed.

Lemma rest_guards_witness :
  Node.rest netOk 0 (Node.UpdatePlayer "123456789012345678" emptyPayload false) openNode
  = (Err (Node.guardError
            (Node.UpdatePlayer "123456789012345678" emptyPayload false) openNode),
     openNode, []).
Proof.
  destruct (rest_guards netOk 0 openNode
              (Node.UpdatePlayer "123456789012345678" emptyPayload false)) as [H _].
  apply H. vm_compute. reflexivity.
Defined.

(** C1 as stated fails: a node that is connected but has no session yet is
    not ready, and [load_tracks] on it sends its request and succeeds; a node
    that kept its session after [disconnect()] is not ready, and
    [update_player] on it sends its request. *)
Lemma rest_not_ready_counterexample :
  (Node.isReady openNode = false /\
   Node.result (Node.rest netOk 0 (Node.LoadTracks "ytsearch:song") openNode)
     = Ok (Node.RestJson "{}") /\
   existsb Node.isFetch
     (Node.effects (Node.rest netOk 0 (Node.LoadTracks "ytsearch:song") openNode))
     = true) /\
  (Node.isReady disconnectedResumingNode = false /\
   Node.result (Node.rest netOk 0
                  (Node.UpdatePlayer "123456789012345678" emptyPayload false)
                  disconnectedResumingNode)
     = Ok Node.RestVoid /\
   existsb Node.isFetch
     (Node.effects (Node.rest netOk 0
                      (Node.UpdatePlayer "123456789012345678" emptyPayload false)
                      disconnectedResumingNode))
     = true).
Proof. vm_compute. done. Qed.

(** ** Closing the socket *)

(** Membership in an explicit list of effects. *)
Ltac elem_here := repeat first [apply list_elem_of_here | apply list_elem_of_further].
Ltac elem_absent :=
  let H := fresh in
  intros H;
  repeat (apply elem_of_cons in H as [H|H]; [discriminate H|]);
  by apply elem_of_nil in H.

Ltac node_run :=
  unfold Node.onClose, Node.disconnect, Node.scheduleReconnect, Node.onOpen,
    Node.emit, Node.result, Node.after, Node.effects;
  unfold mbind, mret, Node.node_bind, Node.node_ret, Node.bind, Node.tryCatch,
    Node.ret, Node.throw, Node.get, Node.put, Node.modify, Node.effect.

(** The session after the socket's [close] event. *)
Lemma onClose_sessionId code reason u n :
  Node.sessionId (Node.after (Node.onClose code reason u n)) =
    if negb (truthy (Node.resumeKey n)) || Nat.eqb code 1000 then None
    else Node.sessionId n.
Proof.
  unfold Node.onClose. rewrite !after_modify_bind, after_get_bind.
  set (n1 := Node.set_ws None (Node.set_connected false n)).
  change (Node.resumeKey n1) with (Node.resumeKey n).
  match goal with
  | |- Node.sessionId (Node.after ((_ ;; ?k) n1)) = _ =>
      assert (Hk : keeps Node.sessionId k)
  end.
  { apply keeps_bind.
    { destruct (Node.connectionState n1);
        first [apply keeps_mret | by apply keeps_modify]. }
    intros _. apply keeps_bind; [apply keeps_emit|]. intros _.
    destruct (_ && _); [by apply keeps_scheduleReconnect|].
    destruct (_ <=? _); [apply keeps_emit|apply keeps_mret]. }
  destruct (negb (truthy (Node.resumeKey n)) || Nat.eqb code 1000).
  - rewrite after_modify_bind. by rewrite Hk.
  - unfold mret, Node.node_ret.
    change (Node.ret ()) with (Node.modify (fun n => n)).
    rewrite after_modify_bind. by rewrite Hk.
Qed.

(** [disconnect()] on a node that holds a socket, in one step. *)
Lemma disconnect_run closeError n socket :
  Node.ws n = Some socket ->
  Node.disconnect closeError n =
    (Ok tt,
     (if truthy (Node.resumeKey n) then fun n => n else Node.set_sessionId None)
       (Node.set_ws None
          ((match Node.reconnectTimeout n with
            | Some _ => Node.set_reconnectTimeout None
            | None => fun n => n
            end)
             (Node.set_connected false
                (Node.set_connectionState Node.DISCONNECTED n)))),
     (match Node.reconnectTimeout n with
      | Some _ => [Node.ClearTimeout]
      | None => []
      end)
     ++ Node.WsClose 1000 "Client disconnect"
        :: match closeError with
           | Some error => [Node.ConsoleError error]
           | None => []
           end).
Proof.
  intros Hws. node_run. cbn. rewrite Hws. cbn.
  destruct (Node.reconnectTimeout n), closeError, (truthy (Node.resumeKey n));
    reflexivity.
Qed.

(** C2 (amended).  A close with code 1000 always forgets the session, and
    leaves the node disconnected unless it was already reconnecting, with no
    timer; a close with another code keeps the session exactly when a resume
    key is configured.  [disconnect()], on a node that holds a socket, sends
    the close code 1000, cancels the pending timer, and leaves the session as
    it was when a resume key is configured and null otherwise. *)
Theorem close_session (n : Node.t) :
  (forall reason u,
     let o := Node.onClose 1000 reason u n in
     Node.sessionId (Node.after o) = None /\
     Node.connected (Node.after o) = false /\
     Node.ws (Node.after o) = None /\
     Node.Emit (Node.EvDisconnect (Node.id n) reason 1000) ∈ Node.effects o /\
     (forall d, Node.SetTimeout d ∉ Node.effects o) /\
     (Node.connectionState n <> Node.RECONNECTING ->
        Node.connectionState (Node.after o) = Node.DISCONNECTED)) /\
  (forall code reason u, code <> 1000 ->
     Node.sessionId (Node.after (Node.onClose code reason u n)) =
       if truthy (Node.resumeKey n) then Node.sessionId n else None) /\
  (forall socket closeError, Node.ws n = Some socket ->
     let o := Node.disconnect closeError n in
     Node.WsClose 1000 "Client disconnect" ∈ Node.effects o /\
     (is_Some (Node.reconnectTimeout n) -> Node.ClearTimeout ∈ Node.effects o) /\
     Node.reconnectTimeout (Node.after o) = None /\
     Node.connectionState (Node.after o) = Node.DISCONNECTED /\
     Node.connected (Node.after o) = false /\
     Node.ws (Node.after o) = None /\
     Node.sessionId (Node.after o) =
       if truthy (Node.resumeKey n) then Node.sessionId n else None).
Proof.
  split_and!.
  - intros reason u. cbn zeta. split.
    { rewrite onClose_sessionId. by rewrite orb_true_r. }
    node_run. cbn.
    rewrite orb_true_r. cbn.
    destruct (Node.connectionState n) eqn:Hs; cbn;
      destruct (Node.maxReconnectAttempts n <=? Node.reconnectAttempts n); cbn;
      (split_and!; [reflexivity|reflexivity|elem_here|intros d; elem_absent|done]).
  - intros code reason u Hcode. rewrite onClose_sessionId.
    apply Nat.eqb_neq in Hcode. rewrite Hcode, orb_false_r.
    by destruct (truthy (Node.resumeKey n)).
  - intros socket closeError Hws. cbn zeta.
    rewrite (disconnect_run closeError n socket Hws).
    unfold Node.after, Node.effects. cbn [fst snd].
    split_and!.
    + apply elem_of_app. right. elem_here.
    + intros [d Hd]. rewrite Hd. elem_here.
    + by destruct (truthy (Node.resumeKey n)), (Node.reconnectTimeout n) eqn:Ht.
    + by destruct (truthy (Node.resumeKey n)), (Node.reconnectTimeout n).
    + by destruct (truthy (Node.resumeKey n)), (Node.reconnectTimeout n).
    + by destruct (truthy (Node.resumeKey n)), (Node.reconnectTimeout n).
    + by destruct (truthy (Node.resumeKey n)), (Node.reconnectTimeout n).
Qed.

Lemma close_session_witness :
  Node.sessionId (Node.after (Node.onClose 1011 "oops" (1 # 2) resumingReadyNode)) =
    (if truthy (Node.resumeKey resumingReadyNode)
     then Node.sessionId resumingReadyNode else None) /\
  Node.sessionId (Node.after (Node.disconnect None resumingReadyNode)) =
    (if truthy (Node.resumeKey resumingReadyNode)
     then Node.sessionId resumingReadyNode else None).
Proof.
  destruct (close_session resumingReadyNode) as (_ & H2 & H3). split.
  - apply H2. discriminate.
  - apply (H3 Node.WS_OPEN None). vm_compute. reflexivity.
Defined.

(** C2 as stated fails: with a resume key configured, a close with code 1000
    forgets the session; so does the close event that follows [disconnect()]. *)
Lemma close_1000_counterexample :
  truthy (Node.resumeKey resumingReadyNode) = true /\
  Node.sessionId resumingReadyNode = Some "session-r"%string /\
  Node.connectionState resumingReadyNode = Node.CONNECTED /\
  Node.sessionId (Node.after (Node.onClose 1000 "bye" 0 resumingReadyNode)) = None /\
  Node.sessionId
    (Node.after (Node.onClose 1000 "Client disconnect" 0 disconnectedResumingNode))
  = None.
Proof. vm_compute. done. Qed.

(** ** Reconnection *)




(** ** The voice handshake *)

Ltac player_run :=
  unfold Player.voiceCall, Player.destroy, Player.checkDestroyed, Player.onNode,
    Player.createError, Player.emitAndRethrow, Player.emit,
    Player.result, Player.after, Player.effects;
  unfold mbind, mret, Player.player_bind, Player.player_ret, Player.bind,
    Player.tryCatch, Player.ret, Player.throw, Player.get, Player.modify,
    Player.effect.

Lemma attemptConnection_spec p :
  Player.destroyed p = false ->
  (is_Some (Player.attemptConnection p) <-> handshakeReady p) /\
  (forall v, Player.attemptConnection p = Some v -> storedVoice p v).
Proof.
  intros Hd. unfold Player.attemptConnection, handshakeReady, storedVoice. rewrite Hd.
  destruct (Player.voiceServer p) as [server|], (Player.voiceState p) as [state|];
    try (split; [split; [by intros [? ?]|by intros (? & ? & ? & ? & ?)]|done]).
  destruct (vs_endpoint server) as [[|c e]|] eqn:He; cbn.
  - split; [split; [by intros [? ?]|]|done].
    intros (? & ? & ? & ? & H). simplify_eq. by rewrite He in H.
  - split; [split; [|by eexists]|].
    + intros _. exists server, state. by rewrite He.
    + intros v [= <-]. exists server, state. by rewrite He.
  - split; [split; [by intros [? ?]|]|done].
    intros (? & ? & ? & ? & H). simplify_eq. by rewrite He in H.
Qed.

Lemma voiceInput_destroyed i p :
  Player.destroyed p = false -> Player.destroyed (Player.voiceInput i p).1 = false.
Proof.
  intros Hd. destruct i as [u|u]; cbn;
    unfold Player.voiceServerUpdate, Player.voiceStateUpdate; rewrite Hd; [done|].
  by destruct (truthy _).
Qed.

Lemma voiceCall_destroyed net node v p :
  Player.destroyed (Player.after (Player.voiceCall net node v p)) = Player.destroyed p.
Proof.
  player_run. cbn.
  destruct (Node.updatePlayer _ _ _ _ _) as [[[[]|e] n'] eff]; done.
Qed.

Lemma deliver_destroyed net node inputs p :
  Player.destroyed p = false ->
  Player.destroyed (Player.deliver net node inputs p).1 = false.
Proof.
  revert p. induction inputs as [|i inputs IH]; intros p Hd; [done|].
  cbn [Player.deliver].
  pose proof (voiceInput_destroyed i p Hd) as H1.
  destruct (Player.voiceInput i p) as [p1 call]. cbn [fst] in H1.
  set (p2 := match call with Some _ => _ | None => _ end).
  assert (H2 : Player.destroyed p2 = false).
  { subst p2. destruct call; [by rewrite voiceCall_destroyed|done]. }
  specialize (IH p2 H2). by destruct (Player.deliver net node inputs p2).
Qed.

(** C5 (amended).  After any sequence of voice inputs to a player that is
    not destroyed, the next input starts a voice call exactly when, once it
    is stored, both halves are present and the stored endpoint is neither
    null nor empty; the call carries the stored token, endpoint and voice
    session id; when [update_player] succeeds, [connected] becomes true.  A
    [voice_state_update] whose channel is null (or empty) clears
    [voice_channel], sets [connected] to false, stores nothing and starts no
    call. *)
Theorem voice_handshake (net : Net) (node : Node.t) (inputs : list Player.VoiceInput)
    (p0 : Player.t) (i : Player.VoiceInput) :
  Player.destroyed p0 = false ->
  let p := (Player.deliver net node inputs p0).1 in
  let p' := (Player.voiceInput i p).1 in
  let call := (Player.voiceInput i p).2 in
  Player.destroyed p' = false /\
  match i with
  | Player.StateUpdate u =>
      if truthy (st_channel_id u) then
        Player.voiceState p' = Some u /\ Player.voiceChannel p' = st_channel_id u /\
        (is_Some call <-> handshakeReady p') /\
        (forall v, call = Some v -> storedVoice p' v)
      else
        call = None /\ Player.voiceChannel p' = None /\ Player.connected p' = false /\
        Player.voiceState p' = Player.voiceState p /\
        Player.voiceServer p' = Player.voiceServer p
  | Player.ServerUpdate u =>
      Player.voiceServer p' = Some u /\
      (is_Some call <-> handshakeReady p') /\
      (forall v, call = Some v -> storedVoice p' v)
  end /\
  (forall v,
     Node.result (Node.updatePlayer net (Player.guildId p')
                    {| p_encodedTrack := None; p_identifier := None;
                       p_position := None; p_endTime := None; p_volume := None;
                       p_paused := None; p_filters := None; p_voice := Some v |}
                    false node) = Ok tt ->
     Player.connected (Player.after (Player.voiceCall net node v p')) = true).
Proof.
  intros Hd0 p p' call.
  assert (Hd : Player.destroyed p = false) by by apply deliver_destroyed.
  assert (Hd' : Player.destroyed p' = false) by by apply voiceInput_destroyed.
  split; [done|]. split.
  - subst p' call. destruct i as [u|u]; cbn;
      unfold Player.voiceServerUpdate, Player.voiceStateUpdate; rewrite Hd.
    + cbn. split; [done|]. by apply attemptConnection_spec.
    + destruct (truthy (st_channel_id u)) eqn:Hc; cbn; [|done].
      split; [done|]. split; [done|]. by apply attemptConnection_spec.
  - intros v. player_run. cbn. unfold Node.result.
    destruct (Node.updatePlayer _ _ _ _ _) as [[[[]|e] n'] eff]; cbn; [done|].
    discriminate.
Qed.

Lemma voice_handshake_witness :
  (Player.voiceInput (Player.ServerUpdate (serverWith (Some "eu.discord.gg"%string)))
     (Player.deliver netOk readyNode [Player.StateUpdate joinState] samplePlayer).1).2
  = Some {| token := "voice-token"; endpoint := "eu.discord.gg";
            sessionId_v := "voice-session" |} /\
  Player.destroyed
    (Player.voiceInput (Player.ServerUpdate (serverWith (Some "eu.discord.gg"%string)))
       (Player.deliver netOk readyNode [Player.StateUpdate joinState] samplePlayer).1).1
  = false.
Proof.
  destruct (voice_handshake netOk readyNode [Player.StateUpdate joinState] samplePlayer
              (Player.ServerUpdate (serverWith (Some "eu.discord.gg"%string))))
    as (H1 & _ & _); [reflexivity|].
  split; [vm_compute; reflexivity | exact H1].
Defined.

(** C5 as stated fails: with a voice state stored, a voice server update
    whose endpoint is the empty string leaves both halves present and the
    endpoint non-null, and no voice call is started. *)
Lemma voice_handshake_counterexample :
  Player.voiceState
    (Player.voiceServerUpdate (serverWith (Some EmptyString))
       (Player.voiceStateUpdate joinState samplePlayer).1).1 = Some joinState /\
  Player.voiceServer
    (Player.voiceServerUpdate (serverWith (Some EmptyString))
       (Player.voiceStateUpdate joinState samplePlayer).1).1
    = Some (serverWith (Some EmptyString)) /\
  vs_endpoint (serverWith (Some EmptyString)) <> None /\
  (Player.voiceServerUpdate (serverWith (Some EmptyString))
     (Player.voiceStateUpdate joinState samplePlayer).1).2 = None.
Proof. vm_compute. done. Qed.

(** C9 (amended).  On a player that is not destroyed, a [voice_state_update]
    with a null channel sets [voice_channel] to null and [connected] to false
    and changes nothing else; a later [voice_server_update] whose endpoint is
    neither null nor empty then starts a voice call with the voice session
    id that was stored before. *)
Theorem voice_leave_frame (p : Player.t) (u : VoiceStateUpdate) :
  Player.destroyed p = false -> st_channel_id u = None ->
  let p' := (Player.voiceStateUpdate u p).1 in
  (Player.voiceStateUpdate u p).2 = None /\
  p' = Player.set_connected false (Player.set_voiceChannel None p) /\
  Player.voiceChannel p' = None /\ Player.connected p' = false /\
  Player.guildId p' = Player.guildId p /\ Player.nodeId p' = Player.nodeId p /\
  Player.track p' = Player.track p /\ Player.textChannel p' = Player.textChannel p /\
  Player.volume p' = Player.volume p /\ Player.paused p' = Player.paused p /\
  Player.playing p' = Player.playing p /\ Player.position p' = Player.position p /\
  Player.queue p' = Player.queue p /\ Player.autoplay p' = Player.autoplay p /\
  Player.voiceServer p' = Player.voiceServer p /\
  Player.voiceState p' = Player.voiceState p /\
  Player.destroyed p' = Player.destroyed p /\
  (forall state server e,
     Player.voiceState p = Some state ->
     vs_endpoint server = Some e -> e <> EmptyString ->
     (Player.voiceServerUpdate server p').2 =
       Some {| token := vs_token server; endpoint := e;
               sessionId_v := st_session_id state |}).
Proof.
  intros Hd Hc p'. subst p'. unfold Player.voiceStateUpdate. rewrite Hd, Hc. cbn.
  split_and!; try done.
  intros state server e Hs He Hne.
  unfold Player.voiceServerUpdate, Player.attemptConnection. cbn.
  rewrite Hd, Hs, He. by destruct e.
Qed.

Lemma voice_leave_frame_witness :
  (Player.voiceServerUpdate (serverWith (Some "eu.discord.gg"%string))
     (Player.voiceStateUpdate leaveState
        (Player.voiceStateUpdate joinState samplePlayer).1).1).2
  = Some {| token := "voice-token"; endpoint := "eu.discord.gg";
            sessionId_v := "voice-session" |}.
Proof.
  destruct (voice_leave_frame (Player.voiceStateUpdate joinState samplePlayer).1
              leaveState) as (_ & _ & _ & _ & _ & _ & _ & _ & _ & _ & _ & _ & _ & _ & _ & _ & _ & H);
    [reflexivity | reflexivity |].
  apply (H joinState (serverWith (Some "eu.discord.gg"%string)));
    [reflexivity | reflexivity | discriminate].
Defined.

(** C9 as stated fails: after the leave, a voice server update whose endpoint
    is the empty string, which is not null, starts no voice call. *)
Lemma voice_leave_counterexample :
  Player.voiceState
    (Player.voiceStateUpdate leaveState
       (Player.voiceStateUpdate joinState samplePlayer).1).1 = Some joinState /\
  vs_endpoint (serverWith (Some EmptyString)) <> None /\
  (Player.voiceServerUpdate (serverWith (Some EmptyString))
     (Player.voiceStateUpdate leaveState
        (Player.voiceStateUpdate joinState samplePlayer).1).1).2 = None.
Proof. vm_compute. done. Qed.

(** ** Destroying a player *)

Lemma checkDestroyed_bind {A} (k : Player.M A) p :
  Player.destroyed p = true ->
  (Player.checkDestroyed ;; k) p = (Err destroyedError, p, []).
Proof.
  intros Hd. unfold Player.checkDestroyed, Player.createError.
  unfold mbind, Player.player_bind, Player.bind, Player.get, Player.throw.
  cbn. by rewrite Hd.
Qed.

Lemma run_destroyed net node op p :
  Player.destroyed p = true ->
  Player.run net node op p = (Err destroyedError, p, []).
Proof.
  intros Hd.
  destruct op; cbn [Player.run]; unfold Player.void;
    unfold Player.connect, Player.disconnect, Player.play, Player.stop,
      Player.pause, Player.resume, Player.pause, Player.seek, Player.setVolume,
      Player.setFilters, Player.clearFilters, Player.addTrack, Player.addTracks,
      Player.removeTrack, Player.clearQueue, Player.shuffleQueue,
      Player.smartShuffleQueue, Player.skip, Player.setLoop;
    unfold mbind at 1, Player.player_bind at 1, Player.bind at 1;
    by rewrite checkDestroyed_bind.
Qed.

Lemma destroy_run net node p :
  Player.destroyed p = false ->
  exists eff,
    Player.destroy net node p =
      (Ok tt,
       Player.set_voiceState None (Player.set_voiceServer None
         (Player.set_connected false (Player.set_paused false
           (Player.set_playing false
             (Player.set_queue (Queue.clear (Player.queue p))
               (Player.set_track None (Player.set_destroyed true p))))))),
       eff ++ [Player.Emit Player.EvDestroy; Player.RemoveAllListeners]) /\
    (forall e,
       Node.result (Node.destroyPlayer net (Player.guildId p) node) = Err e ->
       Player.ConsoleError e ∈ eff).
Proof.
  intros Hd. player_run. cbn. rewrite Hd. unfold Node.result.
  destruct (Node.destroyPlayer net (Player.guildId p) node) as [[[[]|e] n'] eff];
    cbn; eexists; (split; [reflexivity|]); intros e' [=]; subst.
  apply elem_of_app. right. elem_here.
Qed.

Lemma destroy_again net node p :
  Player.destroyed p = true -> Player.destroy net node p = (Ok tt, p, []).
Proof. intros Hd. player_run. cbn. by rewrite Hd. Qed.

(** C8.  [destroy] never throws, even when the node's [destroy_player]
    fails (the error is logged); it sets the latch; a second call returns
    with no effect; every operation of the destroyed player throws
    [PlayerNotFound]; and the player is no longer in the cluster's registry. *)
Theorem destroy_latch (net : Net) (node : Node.t) (p : Player.t) :
  let p' := Player.after (Player.destroy net node p) in
  Player.result (Player.destroy net node p) = Ok tt /\
  (forall e, Player.destroyed p = false ->
     Node.result (Node.destroyPlayer net (Player.guildId p) node) = Err e ->
     Player.ConsoleError e ∈ Player.effects (Player.destroy net node p)) /\
  Player.destroyed p' = true /\
  (forall net' node', Player.destroy net' node' p' = (Ok tt, p', [])) /\
  (forall net' node' op,
     Player.run net' node' op p' =
       (Err (RiasError PLAYER_NOT_FOUND "Player has been destroyed"), p', [])) /\
  (forall r guild,
     Rias.players r !! guild = Some p -> Player.destroyed p = false ->
     Rias.getNode r (Player.nodeId p) = Some node ->
     Rias.players (Rias.destroyRegistered net guild r).2 !! guild = None /\
     Rias.players (Rias.destroy net guild r).2 !! guild = None /\
     (Rias.destroy net guild r).1 = true).
Proof.
  intros p'.
  assert (Hp' : Player.destroyed p' = true).
  { subst p'. destruct (Player.destroyed p) eqn:Hd.
    - by rewrite destroy_again.
    - destruct (destroy_run net node p Hd) as (eff & -> & _). done. }
  split_and!.
  - destruct (Player.destroyed p) eqn:Hd.
    + by rewrite destroy_again.
    + destruct (destroy_run net node p Hd) as (eff & -> & _). done.
  - intros e Hd He. destruct (destroy_run net node p Hd) as (eff & -> & H).
    apply elem_of_app. left. by apply H.
  - done.
  - intros. by apply destroy_again.
  - intros. by apply run_destroyed.
  - intros r guild Hg Hd Hn.
    unfold Rias.destroy, Rias.destroyRegistered. rewrite Hg, Hn.
    destruct (destroy_run net node p Hd) as (eff & -> & _).
    unfold Rias.onPlayerEffects. rewrite existsb_app. cbn.
    rewrite orb_true_r. cbn. by rewrite !lookup_delete_eq.
Qed.

Lemma destroy_latch_witness :
  Rias.players clusterWithPlayer !! sampleGuild = Some samplePlayer /\
  Rias.players (Rias.destroyRegistered netDown sampleGuild clusterWithPlayer).2
    !! sampleGuild = None /\
  Player.ConsoleError
    (PlainError "[500] Failed to destroy player: boom")
    ∈ Player.effects (Player.destroy netDown readyNode samplePlayer).
Proof.
  destruct (destroy_latch netDown readyNode samplePlayer) as (_ & H2 & _ & _ & _ & H6).
  split; [vm_compute; reflexivity|]. split.
  - apply (H6 clusterWithPlayer sampleGuild); vm_compute; reflexivity.
  - apply H2; vm_compute; reflexivity.
Defined.

(** ** Binary64 numbers

    What the node selection needs of the arithmetic: the sign of a rounded
    difference is the sign of the exact difference. *)

Section DoubleFacts.
Local Open Scope Z_scope.

Lemma digits2_log2 m : Zpos (digits2_pos m) = Z.log2 (Zpos m) + 1.
Proof.
  induction m as [m IH|m IH|]; cbn [digits2_pos]; [| |done].
  - rewrite Pos2Z.inj_succ, IH.
    change (Z.log2 (Zpos m~1)) with (Zpos (Pos.size m)).
    destruct m; cbn; lia.
  - rewrite Pos2Z.inj_succ, IH.
    change (Z.log2 (Zpos m~0)) with (Zpos (Pos.size m)).
    destruct m; cbn; lia.
Qed.

Lemma shr_1_m r : 0 <= shr_m r -> shr_m (shr_1 r) = shr_m r / 2.
Proof.
  destruct r as [[|[p|p|]|p] b c]; cbn; intros H; lia.
Qed.

Lemma iter_shr_1_m p : forall r,
  0 <= shr_m r -> shr_m (SpecFloat.iter_pos shr_1 p r) = shr_m r / 2 ^ Zpos p.
Proof.
  assert (Hpos : forall q, 0 < 2 ^ Zpos q) by (intros q; by apply Z.pow_pos_nonneg).
  induction p as [p IH|p IH|]; intros r Hr; cbn [SpecFloat.iter_pos].
  - assert (H1 : 0 <= shr_m (shr_1 r)) by (rewrite shr_1_m by done; lia).
    assert (H2 : 0 <= shr_m (SpecFloat.iter_pos shr_1 p (shr_1 r))).
    { rewrite IH by done. by apply Z.div_pos. }
    assert (E : 2 ^ Zpos p~1 = 2 * (2 ^ Zpos p * 2 ^ Zpos p)).
    { rewrite <- Z.pow_add_r, <- Z.pow_succ_r by lia. f_equal. lia. }
    rewrite IH, IH, shr_1_m, E by done.
    pose proof (Hpos p). rewrite !Z.div_div by lia. done.
  - assert (H2 : 0 <= shr_m (SpecFloat.iter_pos shr_1 p r)).
    { rewrite IH by done. by apply Z.div_pos. }
    assert (E : 2 ^ Zpos p~0 = 2 ^ Zpos p * 2 ^ Zpos p).
    { rewrite <- Z.pow_add_r by lia. f_equal. lia. }
    rewrite IH, IH, E by done.
    pose proof (Hpos p). by rewrite !Z.div_div by lia.
  - by rewrite shr_1_m.
Qed.

Lemma Zdigits2_log2 m : 0 < m -> Zdigits2 m = Z.log2 m + 1.
Proof. destruct m as [|m|m]; [lia| |lia]. intros _. apply digits2_log2. Qed.

Lemma shr_record_of_loc_m m l : shr_m (shr_record_of_loc m l) = m.
Proof. by destruct l as [|[]]. Qed.

(** Rounding a positive number whose exponent is in range. *)
Lemma shr_fexp_positive m e l :
  0 < m -> -1074 <= e ->
  0 < shr_m (shr_fexp Double.prec Double.emax m e l).1 /\
  -1074 <= (shr_fexp Double.prec Double.emax m e l).2.
Proof.
  intros Hm He. unfold shr_fexp, shr, fexp, emin, Double.prec, Double.emax.
  rewrite Zdigits2_log2 by done.
  pose proof (Z.log2_spec m Hm) as [Hlo _].
  pose proof (Z.log2_nonneg m) as Hlog.
  destruct (Z.max (Z.log2 m + 1 + e - 53) (3 - 1024 - 53) - e) as [|p|p] eqn:Hn;
    cbn [fst snd]; rewrite ?shr_record_of_loc_m; try (split; lia).
  rewrite iter_shr_1_m by (rewrite shr_record_of_loc_m; lia).
  rewrite shr_record_of_loc_m. split; [|lia].
  apply Z.div_str_pos. split; [by apply Z.pow_pos_nonneg|].
  etrans; [|exact Hlo]. apply Z.pow_le_mono_r; lia.
Qed.

Lemma round_nearest_even_bounds m l :
  m <= round_nearest_even m l <= m + 1.
Proof. destruct l as [|[]]; cbn; try lia. destruct (Z.even m); lia. Qed.

(** The exponent of a result of the rounding is in range. *)
Lemma binary_round_aux_exponent sx mx ex lx :
  match binary_round_aux Double.prec Double.emax sx mx ex lx with
  | S754_finite _ _ e => -1074 <= e
  | _ => True
  end.
Proof.
  unfold binary_round_aux.
  destruct (shr_fexp _ _ mx ex lx) as [mrs' e'].
  set (m1 := round_nearest_even _ _).
  destruct (shr_fexp _ _ m1 e' loc_Exact) as [mrs'' e''] eqn:H2.
  assert (He : -1074 <= e'').
  { unfold shr_fexp, shr, fexp, emin, Double.prec, Double.emax in H2.
    destruct (Z.max _ _ - e') eqn:Hn; injection H2 as _ <-; lia. }
  destruct (shr_m mrs''); [done| |done]. by destruct (_ <=? _).
Qed.

(** A positive number with its exponent in range is not rounded to zero:
    the result has the sign given. *)
Lemma binary_round_aux_positive sx mx ex lx :
  0 < mx -> -1074 <= ex ->
  match binary_round_aux Double.prec Double.emax sx mx ex lx with
  | S754_finite s _ _ | S754_infinity s => s = sx
  | _ => False
  end.
Proof.
  intros Hm He. unfold binary_round_aux.
  pose proof (shr_fexp_positive mx ex lx Hm He) as [H1 H1'].
  destruct (shr_fexp _ _ mx ex lx) as [mrs' e']. cbn [fst snd] in H1, H1'.
  set (m1 := round_nearest_even _ _).
  assert (Hm1 : 0 < m1).
  { pose proof (round_nearest_even_bounds (shr_m mrs') (loc_of_shr_record mrs')).
    unfold m1. lia. }
  pose proof (shr_fexp_positive m1 e' loc_Exact Hm1 H1') as [H2 _].
  destruct (shr_fexp _ _ m1 e' loc_Exact) as [mrs'' e'']. cbn [fst] in H2.
  destruct (shr_m mrs''); [lia| |lia]. by destruct (_ <=? _).
Qed.

Lemma binary_round_positive sx mx ex :
  -1074 <= ex ->
  match binary_round Double.prec Double.emax sx mx ex with
  | S754_finite s _ _ | S754_infinity s => s = sx
  | _ => False
  end.
Proof.
  intros He. unfold binary_round.
  destruct (shl_align _ _ _) as [mz ez] eqn:Hs.
  apply binary_round_aux_positive; [done|].
  unfold shl_align, fexp, emin, Double.prec, Double.emax in Hs.
  destruct (Z.max _ _ - ex) eqn:Hn; injection Hs as _ <-; lia.
Qed.

(** The sign that [Array.prototype.sort] reads from a rounded difference. *)
Lemma binary_normalize_positive m e :
  -1074 <= e ->
  Double.positive (binary_normalize Double.prec Double.emax m e false) = (0 <? m).
Proof.
  intros He. destruct m as [|m|m]; cbn [binary_normalize]; [done| |].
  - pose proof (binary_round_positive false m e He) as H.
    by destruct (binary_round _ _ _ _ _) as [|s| |s ? ?]; subst.
  - pose proof (binary_round_positive true m e He) as H.
    by destruct (binary_round _ _ _ _ _) as [|s| |s ? ?]; subst.
Qed.

Lemma iter_xO m d : Zpos (Pos.iter xO m d) = Zpos m * 2 ^ Zpos d.
Proof.
  induction d as [|d IH] using Pos.peano_ind; [cbn; lia|].
  rewrite Pos.iter_succ, Pos2Z.inj_xO, IH, Pos2Z.inj_succ, Z.pow_succ_r by lia. lia.
Qed.

Lemma shl_align_fst mx ex ez :
  ez <= ex -> Zpos (shl_align mx ex ez).1 = Zpos mx * 2 ^ (ex - ez).
Proof.
  intros H. unfold shl_align. destruct (ez - ex) as [|d|d] eqn:Hd; cbn [fst].
  - replace (ex - ez) with 0 by lia. lia.
  - lia.
  - rewrite iter_xO. f_equal. f_equal. lia.
Qed.

Lemma scaled_shl s m e ez :
  -1074 <= ez -> ez <= e ->
  cond_Zopp s (Zpos (shl_align m e ez).1) * 2 ^ (ez + 1074)
  = scaled (S754_finite s m e).
Proof.
  intros H1 H2. rewrite shl_align_fst by done. cbn [scaled].
  replace (e + 1074) with ((e - ez) + (ez + 1074)) by lia.
  rewrite (Z.pow_add_r 2 (e - ez) (ez + 1074)) by lia.
  destruct s; cbn [cond_Zopp]; ring.
Qed.

(** The comparator [a - b] is above 0 exactly when [a] is above [b]. *)
Lemma sub_positive x y :
  regular x -> regular y ->
  Double.positive (Double.sub x y) = (scaled y <? scaled x).
Proof.
  destruct x as [sx| | |sx mx ex], y as [sy| | |sy my ey]; try done; cbn [regular];
    intros Hx Hy.
  - by destruct sx, sy.
  - cbn. destruct sy; cbn; symmetry; [apply Z.ltb_lt|apply Z.ltb_ge];
      pose proof (Z.pow_pos_nonneg 2 (ey + 1074)); lia.
  - cbn. destruct sx; cbn; symmetry; [apply Z.ltb_ge|apply Z.ltb_lt];
      pose proof (Z.pow_pos_nonneg 2 (ex + 1074)); lia.
  - unfold Double.sub, SFsub. cbv zeta.
    rewrite binary_normalize_positive by lia.
    pose proof (scaled_shl sx mx ex (Z.min ex ey)) as E1.
    pose proof (scaled_shl sy my ey (Z.min ex ey)) as E2.
    rewrite <- E1, <- E2 by lia.
    pose proof (Z.pow_pos_nonneg 2 (Z.min ex ey + 1074)).
    destruct (Z.ltb_spec 0 (cond_Zopp sx (Zpos (shl_align mx ex (Z.min ex ey)).1)
                           - cond_Zopp sy (Zpos (shl_align my ey (Z.min ex ey)).1)));
      symmetry; [apply Z.ltb_lt|apply Z.ltb_ge]; nia.
Qed.

Lemma value_scaled x :
  regular x -> (Double.value x == inject_Z (scaled x) * 2 ^ (-1074))%Q.
Proof.
  destruct x as [s| | |s m e]; cbn [regular Double.value scaled]; try done.
  intros He. rewrite inject_Z_mult.
  rewrite (Zpower_Qpower 2 (e + 1074)) by lia.
  rewrite <- Qmult_assoc, <- Qpower_plus by done.
  by replace (e + 1074 + -1074)%Z with e by lia.
Qed.

Lemma value_le x y :
  regular x -> regular y ->
  (Double.value x <= Double.value y)%Q <-> (scaled x <= scaled y)%Z.
Proof.
  intros Hx Hy. rewrite !value_scaled by done.
  assert (Hpos : (0 < 2 ^ (-1074))%Q) by (by apply Qpower_0_lt).
  rewrite Qmult_le_r by done. by rewrite <- Zle_Qle.
Qed.

Lemma mul_regular x y :
  Double.isFinite (Double.mul x y) = true -> regular (Double.mul x y).
Proof.
  destruct x as [sx| | |sx mx ex], y as [sy| | |sy my ey]; try done.
  unfold Double.mul, SFmul.
  pose proof (binary_round_aux_exponent (xorb sx sy) (Zpos (mx * my)) (ex + ey) loc_Exact) as H.
  by destruct (binary_round_aux _ _ _ _ _ _).
Qed.

Lemma double_regular x :
  Double.isDouble x = true -> Double.isFinite x = true -> regular x.
Proof.
  destruct x as [s| | |s m e]; try done. cbn [regular Double.isDouble valid_binary].
  unfold bounded, canonical_mantissa, fexp, emin, Double.prec, Double.emax.
  intros [H _]%andb_true_iff _. apply Z.eqb_eq in H. lia.
Qed.

End DoubleFacts.

(** ** Node selection *)

Section SortByKey.
Context {A : Type} (key : A -> Double.t) (P : A -> Prop).

Let compare (a b : A) : Double.t := Double.sub (key a) (key b).

(** The keys of the elements to sort are finite numbers. *)
Hypothesis key_regular : forall a, P a -> regular (key a).

Lemma head_insertSorted (cmp : A -> A -> Double.t) x s :
  head (Rias.insertSorted cmp x s) =
    match head s with
    | None => Some x
    | Some y => if Double.positive (cmp x y) then Some y else Some x
    end.
Proof. destruct s as [|y s]; cbn; [done|]. by destruct (Double.positive _). Qed.

Lemma head_sort_nil (cmp : A -> A -> Double.t) l :
  head (Rias.sort cmp l) = None -> l = [].
Proof.
  destruct l as [|x l]; [done|].
  change (Rias.sort cmp (x :: l))
    with (Rias.insertSorted cmp x (Rias.sort cmp l)).
  rewrite head_insertSorted.
  destruct (head _); [destruct (Double.positive _)|]; done.
Qed.

(** The comparator is above 0 exactly when its first argument has the
    greater key: the difference of two binary64 numbers, rounded as it is,
    has the sign of their exact difference. *)
Lemma compare_le a b :
  P a -> P b ->
  Double.positive (compare a b) = false
  <-> (Double.value (key a) <= Double.value (key b))%Q.
Proof.
  intros Ha%key_regular Hb%key_regular. unfold compare.
  rewrite sub_positive, value_le by done. by rewrite Z.ltb_ge.
Qed.

Lemma head_sort_least l :
  Forall P l -> l <> [] ->
  exists x, head (Rias.sort compare l) = Some x /\
            isLeast (fun a => Double.value (key a)) x l.
Proof.
  unfold isLeast.
  induction l as [|x l IH]; [done|]. intros [Hx HP]%Forall_cons _.
  change (Rias.sort compare (x :: l))
    with (Rias.insertSorted compare x (Rias.sort compare l)).
  rewrite head_insertSorted.
  destruct (head (Rias.sort compare l)) as [y|] eqn:Hy.
  - assert (Hl : l <> []) by (intros ->; done).
    destruct (IH HP Hl) as (y' & Hy' & Hleast). destruct Hleast as [Hin Hmin].
    assert (y' = y) by congruence. subst y'. clear Hy'.
    assert (HPy : P y) by (by eapply Forall_forall in HP).
    destruct (Double.positive (compare x y)) eqn:Hc.
    + exists y. split; [done|]. split; [by right|].
      intros z [->|Hz]%elem_of_cons; [|by apply Hmin].
      apply Qnot_lt_le. intros Hlt. apply Qlt_le_weak in Hlt.
      apply (compare_le x y Hx HPy) in Hlt. congruence.
    + exists x. split; [done|]. split; [left|].
      apply (compare_le x y Hx HPy) in Hc.
      intros z [->|Hz]%elem_of_cons; [apply Qle_refl|].
      eapply Qle_trans; [exact Hc|]. by apply Hmin.
  - apply head_sort_nil in Hy as ->. exists x. split; [done|]. split; [left|].
    intros z ->%list_elem_of_singleton. apply Qle_refl.
Qed.
End SortByKey.

(** The first element of the sorted list is one of the list. *)
Lemma elem_of_insertSorted {A} (compare : A -> A -> Double.t) (x a : A)
    (s : list A) :
  x ∈ Rias.insertSorted compare a s <-> x = a \/ x ∈ s.
Proof.
  induction s as [|y s IH]; cbn [Rias.insertSorted].
  - rewrite list_elem_of_singleton, elem_of_nil. tauto.
  - destruct (Double.positive _).
    + rewrite !elem_of_cons, IH. tauto.
    + by rewrite elem_of_cons.
Qed.

Lemma elem_of_sort {A} (compare : A -> A -> Double.t) (x : A) (l : list A) :
  x ∈ Rias.sort compare l <-> x ∈ l.
Proof.
  induction l as [|a l IH]; [done|].
  change (Rias.sort compare (a :: l))
    with (Rias.insertSorted compare a (Rias.sort compare l)).
  by rewrite elem_of_insertSorted, IH, elem_of_cons.
Qed.

Lemma head_sort_elem {A} (compare : A -> A -> Double.t) (x : A) (l : list A) :
  head (Rias.sort compare l) = Some x -> x ∈ l.
Proof.
  intros Hx. apply (elem_of_sort compare). by apply head_Some_elem_of.
Qed.

Lemma head_sort_in {A} (compare : A -> A -> Double.t) (l : list A) :
  l <> [] -> exists x, head (Rias.sort compare l) = Some x /\ x ∈ l.
Proof.
  intros Hl. destruct (head (Rias.sort compare l)) as [x|] eqn:Hx.
  - exists x. split; [done|]. by apply head_sort_elem in Hx.
  - by apply head_sort_nil in Hx.
Qed.

Lemma isNumber_regular x : isNumber x = true -> regular x.
Proof.
  unfold isNumber. intros [H1 H2]%andb_true_iff. by apply double_regular.
Qed.

(** The first of the nodes sorted by a key, when the key is a finite
    number on each of them. *)
Lemma head_sort_key (key : Node.t -> Double.t) (ok : Node.t -> bool) ns :
  (forall n, ok n = true -> regular (key n)) ->
  forallb ok ns = true -> ns <> [] ->
  exists n, head (Rias.sort (fun a b => Double.sub (key a) (key b)) ns) = Some n /\
            isLeast (fun a => Double.value (key a)) n ns.
Proof.
  intros Hkey Hfin Hne.
  apply (head_sort_least key (fun n => ok n = true)); [done| |done].
  apply Forall_forall. intros n Hn. rewrite forallb_forall in Hfin.
  apply Hfin. by apply list_elem_of_In.
Qed.

(** The head of the sorted list is one of the list, and least when the key
    is a finite number. *)
Lemma head_sort_spec (key : Node.t -> Double.t) (ok : Node.t -> bool) ns :
  (forall n, ok n = true -> regular (key n)) -> ns <> [] ->
  exists n, head (Rias.sort (fun a b => Double.sub (key a) (key b)) ns) = Some n /\
            n ∈ ns /\
            (forallb ok ns = true -> isLeast (fun a => Double.value (key a)) n ns).
Proof.
  intros Hkey Hne.
  destruct (head_sort_in (fun a b => Double.sub (key a) (key b)) ns Hne)
    as (n & Hn & Hin).
  exists n. split; [done|]. split; [done|]. intros Hfin.
  destruct (head_sort_key key ok ns Hkey Hfin Hne) as (n' & Hn' & Hleast).
  by replace n with n' by congruence.
Qed.

(** C6 (amended).  With no eligible node the selection gives null and the
    callers throw [NoAvailableNodes]; a single eligible node is returned as
    it is; otherwise the node returned is an eligible node, and it is least
    for the key of the strategy when that key is a finite number on every
    candidate.  The keys are binary64 numbers: the number of players, the
    load, the priority, and the combined load
    [lavalinkLoad * (1 + players * 0.1)], computed and subtracted with
    their rounding.  Under the regional strategy with a region hint that is
    neither absent nor empty, the candidates are the eligible nodes of that
    region, and the node returned is one of them, or all eligible nodes when
    there is none; without such a hint, and so with the empty string as
    hint, the candidates are all eligible nodes. *)
Theorem node_selection (r : Rias.t) (region : option string) :
  let ns := Rias.eligible r in
  (ns = [] ->
     Rias.getOptimalNode r region = None /\
     Rias.loadNode r = Err (RiasError NO_AVAILABLE_NODES "No available nodes") /\
     (forall guild,
        Rias.shuttingDown r = false ->
        ValidationUtils.isValidGuildId guild = true ->
        Rias.players r !! guild = None ->
        (Rias.create guild region r).1 =
          Err (RiasError NO_AVAILABLE_NODES
                 "No available nodes. Please ensure at least one node is connected."))) /\
  (forall n, ns = [n] -> Rias.getOptimalNode r region = Some n) /\
  (2 <= length ns ->
     exists n, Rias.getOptimalNode r region = Some n /\ n ∈ ns /\
       match Rias.nodeSelectionStrategy r with
       | Rias.LoadBalanced =>
           finiteCombined ns = true -> isLeast combinedValue n ns
       | Rias.LeastPlayers =>
           numeric Rias.playersOf ns = true -> isLeast playersValue n ns
       | Rias.LeastLoad =>
           numeric Rias.loadOf ns = true -> isLeast loadValue n ns
       | Rias.Priority =>
           numeric Rias.priorityOf ns = true -> isLeast priorityValue n ns
       | Rias.Regional =>
           if truthy region then
             match inRegion region ns with
             | [] => finiteCombined ns = true -> isLeast combinedValue n ns
             | candidate :: candidates =>
                 n ∈ inRegion region ns /\
                 (finiteCombined (candidate :: candidates) = true ->
                  isLeast combinedValue n (candidate :: candidates))
             end
           else finiteCombined ns = true -> isLeast combinedValue n ns
       end).
Proof.
  intros ns. split_and!.
  - intros Hns. unfold Rias.loadNode, Rias.create, Rias.getOptimalNode.
    fold ns. rewrite Hns. split_and!; [done..|].
    intros guild -> -> ->. done.
  - intros n Hns. unfold Rias.getOptimalNode. fold ns. by rewrite Hns.
  - intros Hlen. unfold Rias.getOptimalNode. fold ns.
    destruct ns as [|n1 [|n2 rest]] eqn:Hns; [cbn in Hlen; lia..|].
    rewrite <- Hns. assert (Hne : ns <> []) by (by rewrite Hns).
    clear Hlen. clearbody ns.
    assert (Hcombined : forall l, l <> [] ->
      exists n, Rias.selectLoadBalancedNode l = Some n /\ n ∈ l /\
                (finiteCombined l = true -> isLeast combinedValue n l)).
    { intros l Hl. apply (head_sort_spec Rias.combinedLoad); [|done].
      intros n Hn. by apply mul_regular. }
    assert (Hstat : forall key l, l <> [] ->
      exists n, head (Rias.sort (fun a b => Double.sub (key a) (key b)) l) = Some n /\
                n ∈ l /\
                (numeric key l = true -> isLeast (fun a => Double.value (key a)) n l)).
    { intros key l Hl. apply (head_sort_spec key); [|done].
      intros n Hn. by apply isNumber_regular. }
    destruct (Rias.nodeSelectionStrategy r) eqn:Hstrategy.
    + destruct (Hcombined ns Hne) as (n & Hn & Hin & Hleast). exists n. by split_and!.
    + unfold Rias.selectRegionalNode. fold (inRegion region ns).
      destruct (truthy region) eqn:Ht; cbn [negb].
      * destruct (inRegion region ns) as [|m ms] eqn:Hf.
        -- destruct (Hcombined ns Hne) as (n & Hn & Hin & Hleast).
           exists n. by split_and!.
        -- destruct (Hcombined (m :: ms)) as (n & Hn & Hin & Hleast); [done|].
           exists n. split; [done|].
           assert (Hn' : n ∈ ns).
           { rewrite <- Hf in Hin. unfold inRegion in Hin.
             by apply list_elem_of_filter in Hin as [_ Hin]. }
           by split_and!.
      * destruct (Hcombined ns Hne) as (n & Hn & Hin & Hleast). exists n. by split_and!.
    + destruct (Hstat Rias.playersOf ns Hne) as (n & Hn & Hin & Hleast).
      exists n. by split_and!.
    + destruct (Hstat Rias.loadOf ns Hne) as (n & Hn & Hin & Hleast).
      exists n. by split_and!.
    + destruct (Hstat Rias.priorityOf ns Hne) as (n & Hn & Hin & Hleast).
      exists n. by split_and!.
Qed.

Example tenth_literal : Double.tenth = tenths 1.
Proof. vm_compute. reflexivity. Qed.

Example combined_load_rounds :
  Rias.combinedLoad nodeA = S754_finite false 5044031582654955 (-53).
Proof. vm_compute. reflexivity. Qed.

Example combined_load_rounding :
  Rias.combinedLoad nodeCrowded = S754_finite false 5404319552844596 (-54) /\
  Rias.combinedLoad nodeIdle = S754_finite false 5404319552844595 (-54) /\
  Node.id <$> Rias.getOptimalNode roundingCluster None = Some "node-idle"%string.
Proof. vm_compute. done. Qed.

Example regional_match :
  Node.id <$> Rias.getOptimalNode (fixtureCluster Rias.Regional) (Some "us"%string)
  = Some "node-c"%string.
Proof. vm_compute. reflexivity. Qed.

Example regional_fallback :
  Node.id <$> Rias.getOptimalNode (fixtureCluster Rias.Regional) (Some "ap-south"%string)
  = Some "node-b"%string.
Proof. vm_compute. reflexivity. Qed.

Example priority_lowest :
  Node.id <$> Rias.getOptimalNode (fixtureCluster Rias.Priority) None
  = Some "node-b"%string.
Proof. vm_compute. reflexivity. Qed.

Example no_eligible_node :
  (Rias.create sampleGuild None
     {| Rias.nodes := [Node.create sampleOptions "Rias"]; Rias.players := ∅;
        Rias.clientId := "client-id"; Rias.nodeSelectionStrategy := Rias.LoadBalanced;
        Rias.shuttingDown := false |}).1
  = Err (RiasError NO_AVAILABLE_NODES
           "No available nodes. Please ensure at least one node is connected.").
Proof. vm_compute. reflexivity. Qed.

Lemma node_selection_witness :
  exists n,
    Rias.getOptimalNode (fixtureCluster Rias.Regional) (Some "us"%string) = Some n /\
    n ∈ inRegion (Some "us"%string) (Rias.eligible (fixtureCluster Rias.Regional)) /\
    isLeast combinedValue n
      (inRegion (Some "us"%string) (Rias.eligible (fixtureCluster Rias.Regional))).
Proof.
  destruct (node_selection (fixtureCluster Rias.Regional) (Some "us"%string))
    as (_ & _ & H).
  destruct H as (n & Hn & _ & Hreg & Hleast); [vm_compute; lia|].
  exists n. split; [exact Hn|]. split; [exact Hreg|].
  apply Hleast. vm_compute. reflexivity.
Defined.

(** C6 as stated fails: under the regional strategy with the empty string
    as the region requested, an eligible node of that region is there, and
    the node returned is the node of another region with the least combined
    load. *)
Lemma regional_empty_hint_counterexample :
  Rias.nodeSelectionStrategy blankCluster = Rias.Regional /\
  Rias.eligible blankCluster = [nodeBlank; nodeC] /\
  inRegion (Some EmptyString) (Rias.eligible blankCluster) = [nodeBlank] /\
  Rias.getOptimalNode blankCluster (Some EmptyString) = Some nodeC /\
  Node.region nodeC = Some "us"%string.
Proof. vm_compute. done. Qed.

(** ** Editing the queue by position *)

Lemma outOfRange_false index q :
  QueueOps.outOfRange index q = false <->
  (0 <= index < Z.of_nat (Queue.size q))%Z.
Proof.
  unfold QueueOps.outOfRange, Queue.size.
  rewrite orb_false_iff, Z.ltb_ge, Z.leb_gt. lia.
Qed.

Lemma outOfRange_true index q :
  QueueOps.outOfRange index q = true <->
  (index < 0 \/ Z.of_nat (Queue.size q) <= index)%Z.
Proof.
  unfold QueueOps.outOfRange, Queue.size.
  rewrite orb_true_iff, Z.ltb_lt, Z.leb_le. lia.
Qed.

(** Putting a deleted element back where it was. *)
Lemma insert_delete_middle {A} (l : list A) k x :
  l !! k = Some x ->
  take k (delete k l) ++ x :: drop k (delete k l) = l.
Proof.
  intros Hx. assert (Hk : k < length l) by (apply lookup_lt_is_Some; eauto).
  rewrite delete_take_drop.
  rewrite take_app_length', drop_app_length' by (rewrite length_take; lia).
  by apply take_drop_middle.
Qed.

Lemma at_lookup index q :
  (0 <= index)%Z -> QueueOps.at_ index q = tracks q !! Z.to_nat index.
Proof.
  intros H. unfold QueueOps.at_.
  by destruct (Z.ltb_spec index 0); [lia|].
Qed.

Lemma at_negative index q : (index < 0)%Z -> QueueOps.at_ index q = None.
Proof.
  intros H. unfold QueueOps.at_.
  by destruct (Z.ltb_spec index 0); [|lia].
Qed.

(** X1.  [insert(index, track)] refuses an index below 0 or above the size
    and then leaves the queue as it is.  Otherwise the queue is one longer,
    the track is at [index], the tracks before it keep their place, the
    tracks from [index] on move up by one, and the other fields are kept. *)
Theorem queue_insert_spec (index : Z) (track : Track) (q : Queue.t) :
  let o := QueueOps.insert index track q in
  (o.1 = false <-> (index < 0 \/ Z.of_nat (Queue.size q) < index)%Z) /\
  (o.1 = false -> o.2 = q) /\
  (o.1 = true ->
     Queue.size o.2 = S (Queue.size q) /\
     QueueOps.at_ index o.2 = Some track /\
     (forall i, (i < index)%Z -> QueueOps.at_ i o.2 = QueueOps.at_ i q) /\
     (forall i, (index <= i)%Z -> QueueOps.at_ (i + 1) o.2 = QueueOps.at_ i q) /\
     current o.2 = current q /\
     previous o.2 = previous q /\
     loopMode o.2 = loopMode q).
Proof.
  cbn zeta. unfold QueueOps.insert, Queue.size.
  destruct (Z.ltb_spec index 0) as [Hneg|Hpos]; cbn [orb].
  { split_and!; [split; [lia|done] | done | done]. }
  destruct (Z.ltb_spec (Z.of_nat (length (tracks q))) index) as [Hbig|Hle]; cbn [fst snd].
  { split_and!; [split; [lia|done] | done | done]. }
  split_and!; [split; [done|lia] | done |]. intros _.
  set (k := Z.to_nat index).
  assert (Hk : k <= length (tracks q)) by lia.
  assert (Htake : length (take k (tracks q)) = k) by (rewrite length_take; lia).
  split_and!; try reflexivity.
  - cbn. rewrite length_app, Htake. cbn. rewrite length_drop. lia.
  - rewrite at_lookup by done. fold k. cbn.
    rewrite lookup_app_r by lia. by rewrite Htake, Nat.sub_diag.
  - intros i Hi. destruct (Z.ltb_spec i 0) as [Hi0|Hi0].
    { by rewrite !at_negative. }
    rewrite !at_lookup by done. cbn.
    rewrite lookup_app_l by lia. apply lookup_take_lt. lia.
  - intros i Hi. rewrite !at_lookup by lia. cbn.
    rewrite lookup_app_r by lia. rewrite Htake.
    replace (Z.to_nat (i + 1) - k) with (S (Z.to_nat i - k)) by lia.
    change ((track :: drop k (tracks q)) !! S (Z.to_nat i - k))
      with (drop k (tracks q) !! (Z.to_nat i - k)).
    rewrite lookup_drop. f_equal. lia.
Qed.

(** X2.  Inserting a track at an index in range and removing the track at
    that index gives back the track and the queue; removing a track and
    inserting it at the same index gives back the queue. *)
Theorem queue_insert_remove (index : Z) (track : Track) (q : Queue.t) :
  (0 <= index <= Z.of_nat (Queue.size q))%Z ->
  Queue.remove index (QueueOps.insert index track q).2 = (Some track, q) /\
  (forall removed q',
     Queue.remove index q = (Some removed, q') ->
     QueueOps.insert index removed q' = (true, q)).
Proof.
  unfold Queue.size. intros Hi. split.
  - unfold QueueOps.insert.
    destruct (Z.ltb_spec index 0); [lia|].
    destruct (Z.ltb_spec (Z.of_nat (length (tracks q))) index); [lia|].
    cbn [orb snd]. unfold Queue.remove. cbn [tracks QueueOps.withTracks].
    set (k := Z.to_nat index).
    assert (Htake : length (take k (tracks q)) = k) by (rewrite length_take; lia).
    rewrite length_app, Htake. cbn [length]. rewrite length_drop.
    destruct (Z.ltb_spec index 0); [lia|].
    destruct (Z.leb_spec (Z.of_nat (k + S (length (tracks q) - k))) index); [lia|].
    cbn [orb]. f_equal.
    + rewrite lookup_app_r by lia. by rewrite Htake, Nat.sub_diag.
    + rewrite <- Htake at 1. rewrite delete_middle, take_drop. by destruct q.
  - intros removed q'. unfold Queue.remove.
    destruct (Z.ltb_spec index 0); [lia|].
    destruct (Z.leb_spec (Z.of_nat (length (tracks q))) index); cbn [orb]; [done|].
    intros [= Hx <-]. unfold QueueOps.insert. cbn [tracks].
    set (k := Z.to_nat index) in *.
    assert (Hlen : length (delete k (tracks q)) = length (tracks q) - 1).
    { rewrite length_delete; [lia|]. by rewrite Hx. }
    destruct (Z.ltb_spec index 0); [lia|].
    destruct (Z.ltb_spec (Z.of_nat (length (delete k (tracks q)))) index); [lia|].
    cbn [orb]. f_equal. unfold QueueOps.withTracks. cbn [tracks].
    rewrite (insert_delete_middle _ _ _ Hx). by destruct q.
Qed.

Lemma queue_insert_remove_witness :
  Queue.remove 1 (QueueOps.insert 1 (sampleTrack "n1" "New") editQueue).2
  = (Some (sampleTrack "n1" "New"), editQueue).
Proof.
  apply (queue_insert_remove 1 (sampleTrack "n1" "New") editQueue).
  vm_compute. split; discriminate.
Defined.

(** X3.  [move(from, to)] succeeds exactly when both indices are in range;
    otherwise the queue is left as it is.  On success the queue holds the
    same tracks, the moved track is at [to], and the other tracks keep
    their order. *)
Theorem queue_move_spec (from to : Z) (q : Queue.t) :
  let o := QueueOps.move from to q in
  (o.1 = true <->
     (0 <= from < Z.of_nat (Queue.size q))%Z /\ (0 <= to < Z.of_nat (Queue.size q))%Z) /\
  (o.1 = false -> o.2 = q) /\
  (o.1 = true ->
     tracks o.2 ≡ₚ tracks q /\
     QueueOps.at_ to o.2 = QueueOps.at_ from q /\
     is_Some (QueueOps.at_ from q) /\
     delete (Z.to_nat to) (tracks o.2) = delete (Z.to_nat from) (tracks q) /\
     current o.2 = current q /\
     previous o.2 = previous q /\
     loopMode o.2 = loopMode q).
Proof.
  cbn zeta. unfold QueueOps.move.
  destruct (QueueOps.outOfRange from q) eqn:Hf; cbn [orb].
  { apply outOfRange_true in Hf. split_and!; [split; [done|lia] | done | done]. }
  destruct (QueueOps.outOfRange to q) eqn:Ht.
  { apply outOfRange_true in Ht. split_and!; [split; [done|lia] | done | done]. }
  apply outOfRange_false in Hf, Ht. unfold Queue.size in Hf, Ht.
  destruct (lookup_lt_is_Some_2 (tracks q) (Z.to_nat from)) as [x Hx]; [lia|].
  rewrite Hx. cbn [fst snd].
  split_and!; [done | done |]. intros _.
  set (rest := delete (Z.to_nat from) (tracks q)).
  assert (Hrest : length rest = length (tracks q) - 1).
  { unfold rest. rewrite length_delete; [lia|]. by rewrite Hx. }
  assert (Htake : length (take (Z.to_nat to) rest) = Z.to_nat to)
    by (rewrite length_take; lia).
  cbn [tracks current previous loopMode QueueOps.withTracks].
  split_and!; try reflexivity.
  - rewrite <- Permutation_middle, take_drop. symmetry.
    by apply delete_Permutation.
  - rewrite !at_lookup by lia. cbn [tracks QueueOps.withTracks].
    rewrite lookup_app_r by lia. by rewrite Htake, Nat.sub_diag.
  - rewrite at_lookup by lia. by rewrite Hx.
  - rewrite <- Htake at 1. by rewrite delete_middle, take_drop.
Qed.

(** X4.  [swap(index1, index2)] succeeds exactly when both indices are in
    range; otherwise the queue is left as it is.  On success the two tracks
    have changed places, every other track is where it was, and a second
    call with the same indices gives back the queue. *)
Theorem queue_swap_spec (index1 index2 : Z) (q : Queue.t) :
  let o := QueueOps.swap index1 index2 q in
  (o.1 = true <->
     (0 <= index1 < Z.of_nat (Queue.size q))%Z /\
     (0 <= index2 < Z.of_nat (Queue.size q))%Z) /\
  (o.1 = false -> o.2 = q) /\
  (o.1 = true ->
     tracks o.2 ≡ₚ tracks q /\
     QueueOps.at_ index1 o.2 = QueueOps.at_ index2 q /\
     QueueOps.at_ index2 o.2 = QueueOps.at_ index1 q /\
     (forall i, i <> index1 -> i <> index2 -> QueueOps.at_ i o.2 = QueueOps.at_ i q) /\
     QueueOps.swap index1 index2 o.2 = (true, q)).
Proof.
  cbn zeta.
  destruct (QueueOps.outOfRange index1 q) eqn:H1.
  { replace (QueueOps.swap index1 index2 q) with (false, q)
      by (unfold QueueOps.swap; by rewrite H1).
    apply outOfRange_true in H1. split_and!; [split; [done|lia] | done | done]. }
  destruct (QueueOps.outOfRange index2 q) eqn:H2.
  { replace (QueueOps.swap index1 index2 q) with (false, q)
      by (unfold QueueOps.swap; by rewrite H1, H2).
    apply outOfRange_true in H2. split_and!; [split; [done|lia] | done | done]. }
  set (q' := QueueOps.withTracks (swap (tracks q) (Z.to_nat index1) (Z.to_nat index2)) q).
  replace (QueueOps.swap index1 index2 q) with (true, q')
    by (unfold QueueOps.swap; by rewrite H1, H2).
  cbn [fst snd].
  split_and!; [by rewrite <- !outOfRange_false | done |]. intros _.
  assert (H1' : QueueOps.outOfRange index1 q' = false).
  { apply outOfRange_false. apply outOfRange_false in H1.
    unfold q', Queue.size in *. cbn. by rewrite swap_length. }
  assert (H2' : QueueOps.outOfRange index2 q' = false).
  { apply outOfRange_false. apply outOfRange_false in H2.
    unfold q', Queue.size in *. cbn. by rewrite swap_length. }
  apply outOfRange_false in H1, H2. unfold Queue.size in H1, H2.
  set (i := Z.to_nat index1) in *. set (j := Z.to_nat index2) in *.
  assert (Hi : i < length (tracks q)) by lia.
  assert (Hj : j < length (tracks q)) by lia.
  assert (Hlook : forall k,
    tracks q' !! k = if decide (k = j) then tracks q !! i
                     else if decide (k = i) then tracks q !! j else tracks q !! k).
  { intros k. unfold q'. cbn. by apply swap_lookup. }
  split_and!.
  - unfold q'. cbn. apply swap_perm.
  - rewrite !at_lookup by lia. fold i j. rewrite Hlook.
    destruct (decide (i = j)) as [->|]; [done|]. by rewrite decide_True.
  - rewrite !at_lookup by lia. fold i j. rewrite Hlook. by rewrite decide_True.
  - intros k Hk1 Hk2. destruct (Z.ltb_spec k 0) as [Hk0|Hk0].
    { by rewrite !at_negative. }
    rewrite !at_lookup by done. rewrite Hlook.
    rewrite !decide_False by lia. done.
  - unfold QueueOps.swap. rewrite H1', H2'. cbn [orb]. f_equal.
    fold i j. unfold QueueOps.withTracks.
    cbn [tracks current previous loopMode QueueOps.withTracks q'].
    replace (swap (swap (tracks q) i j) i j) with (tracks q); [by destruct q|].
    apply list_eq. intros k.
    rewrite swap_lookup by (by rewrite swap_length).
    rewrite !swap_lookup by done.
    clear. clearbody i j. repeat case_decide; subst; congruence.
Qed.

(** X5.  [shuffle()] keeps the tracks of the queue, whatever the random
    generator gives: the array after the call is a permutation of the array
    before it, the other fields are kept, and the generator is asked once
    per track but the first. *)
Theorem queue_shuffle_permutation (r : Rng) (q : Queue.t) :
  let o := Queue.shuffle r q in
  tracks o.1 ≡ₚ tracks q /\
  Queue.size o.1 = Queue.size q /\
  current o.1 = current q /\
  previous o.1 = previous q /\
  loopMode o.1 = loopMode q /\
  calls o.2 = calls r + (Queue.size q - 1).
Proof.
  cbn zeta. unfold Queue.shuffle, Queue.size.
  pose proof (fisherYates_perm (length (tracks q) - 1) r (tracks q)) as Hp.
  assert (Hc : forall i r ts, calls (fisherYates i r ts).2 = calls r + i).
  { clear. induction i as [|i IH]; intros r ts; cbn [fisherYates]; [cbn; lia|].
    unfold randomIndex. rewrite IH. cbn. lia. }
  specialize (Hc (length (tracks q) - 1) r (tracks q)).
  destruct (fisherYates _ r (tracks q)) as [ts r']. cbn in *.
  split_and!; try done. by rewrite Hp.
Qed.

(** ** Removing duplicates and filtering *)

Lemma keepUnseen_spec seen ts :
  NoDup (identifiers (QueueOps.keepUnseen seen ts)) /\
  QueueOps.keepUnseen seen ts `sublist_of` ts /\
  (forall t, t ∈ QueueOps.keepUnseen seen ts -> identifier (info t) ∉ seen) /\
  (forall t, t ∈ ts ->
     identifier (info t) ∈ seen \/
     identifier (info t) ∈ identifiers (QueueOps.keepUnseen seen ts)) /\
  (forall t, t ∈ QueueOps.keepUnseen seen ts ->
     List.find (fun x => String.eqb (identifier (info x)) (identifier (info t))) ts
     = Some t).
Proof.
  revert seen. induction ts as [|a ts IH]; intros seen; cbn [QueueOps.keepUnseen].
  { split_and!; [constructor | done | by intros t ?%elem_of_nil
                | by intros t ?%elem_of_nil | by intros t ?%elem_of_nil]. }
  case_bool_decide as Ha.
  - destruct (IH seen) as (Hnd & Hsub & Hfresh & Hall & Hfirst).
    split_and!; [done | by apply sublist_cons | done | |].
    + intros t [->|Ht]%elem_of_cons; [by left | by apply Hall].
    + intros t Ht. cbn [List.find].
      destruct (String.eqb_spec (identifier (info a)) (identifier (info t))) as [E|E].
      * exfalso. apply (Hfresh t Ht). by rewrite <- E.
      * by apply Hfirst.
  - destruct (IH ({[identifier (info a)]} ∪ seen)) as (Hnd & Hsub & Hfresh & Hall & Hfirst).
    split_and!.
    + unfold identifiers. cbn [fmap list_fmap]. constructor; [|done].
      intros (t & Heq & Ht)%list_elem_of_fmap. apply (Hfresh t Ht).
      rewrite <- Heq. apply elem_of_union_l. by apply elem_of_singleton.
    + by apply sublist_skip.
    + intros t [->|Ht]%elem_of_cons; [done|].
      specialize (Hfresh t Ht). intros Hin. apply Hfresh. by apply elem_of_union_r.
    + intros t [->|Ht]%elem_of_cons.
      * right. unfold identifiers. cbn. left.
      * destruct (Hall t Ht) as [[Hin|Hin]%elem_of_union|Hin].
        -- right. apply elem_of_singleton in Hin. rewrite Hin.
           unfold identifiers. cbn. left.
        -- by left.
        -- right. unfold identifiers. cbn. by right.
    + intros t [->|Ht]%elem_of_cons; cbn [List.find].
      * by rewrite String.eqb_refl.
      * destruct (String.eqb_spec (identifier (info a)) (identifier (info t))) as [E|E].
        -- exfalso. apply (Hfresh t Ht). rewrite <- E.
           apply elem_of_union_l. by apply elem_of_singleton.
        -- by apply Hfirst.
Qed.

Lemma keepUnseen_id seen ts :
  NoDup (identifiers ts) ->
  (forall t, t ∈ ts -> identifier (info t) ∉ seen) ->
  QueueOps.keepUnseen seen ts = ts.
Proof.
  revert seen. induction ts as [|a ts IH]; intros seen Hnd Hfresh; [done|].
  cbn [QueueOps.keepUnseen]. unfold identifiers in Hnd. cbn in Hnd.
  apply NoDup_cons in Hnd as [Ha Hnd].
  rewrite bool_decide_eq_false_2 by (apply Hfresh; left).
  f_equal. apply IH; [done|]. intros t Ht.
  assert (identifier (info t) ∉ seen) by (apply Hfresh; by right).
  assert (identifier (info t) <> identifier (info a)).
  { intros E. apply Ha. rewrite <- E.
    by apply (list_elem_of_fmap_2 (fun t => identifier (info t))). }
  intros [Hin%elem_of_singleton|Hin]%elem_of_union; done.
Qed.

(** X6.  [removeDuplicates()] keeps, of the tracks with the same identifier,
    the first one: afterwards the identifiers are pairwise different, the
    tracks kept are in their old order, every identifier of the queue is
    still there, and the number returned is the number of tracks taken out.
    A second call takes nothing out. *)
Theorem queue_removeDuplicates_spec (q : Queue.t) :
  let o := QueueOps.removeDuplicates q in
  NoDup (identifiers (tracks o.2)) /\
  tracks o.2 `sublist_of` tracks q /\
  (forall t, t ∈ tracks q -> identifier (info t) ∈ identifiers (tracks o.2)) /\
  (forall t, t ∈ tracks o.2 ->
     List.find (fun x => String.eqb (identifier (info x)) (identifier (info t)))
       (tracks q) = Some t) /\
  o.1 + Queue.size o.2 = Queue.size q /\
  current o.2 = current q /\ previous o.2 = previous q /\ loopMode o.2 = loopMode q /\
  QueueOps.removeDuplicates o.2 = (0, o.2).
Proof.
  cbn zeta. unfold QueueOps.removeDuplicates at 1 2 3 4 5 6 7 8 9 10.
  cbn [fst snd tracks current previous loopMode QueueOps.withTracks]. unfold Queue.size.
  destruct (keepUnseen_spec ∅ (tracks q)) as (Hnd & Hsub & Hfresh & Hall & Hfirst).
  split_and!; try done.
  - intros t Ht. destruct (Hall t Ht) as [Hin|Hin]; [|done].
    by apply elem_of_empty in Hin.
  - cbn [tracks QueueOps.withTracks]. apply sublist_length in Hsub. lia.
  - unfold QueueOps.removeDuplicates.
    cbn [fst snd tracks current previous loopMode QueueOps.withTracks].
    rewrite (keepUnseen_id ∅ (QueueOps.keepUnseen ∅ (tracks q)));
      [|done|intros t _; apply not_elem_of_empty].
    by rewrite Nat.sub_diag.
Qed.

Lemma filter_negb_filter {A} (p : A -> bool) (l : list A) :
  List.filter p (List.filter (fun x => negb (p x)) l) = [].
Proof.
  induction l as [|a l IH]; [done|]. cbn [List.filter].
  destruct (p a) eqn:Hp; cbn [negb]; [done|].
  cbn [List.filter]. by rewrite Hp.
Qed.

Lemma filter_sublist {A} (p : A -> bool) (l : list A) : List.filter p l `sublist_of` l.
Proof.
  induction l as [|a l IH]; [done|]. cbn [List.filter].
  destruct (p a); [by apply sublist_skip | by apply sublist_cons].
Qed.

Lemma includes_empty s : includes s EmptyString = true.
Proof. unfold includes. by destruct s. Qed.

(** X7.  [removeByAuthor(author)] takes out exactly the tracks that
    [filterByAuthor(author)] lists: afterwards that list is empty, the
    number returned is its former length, and the tracks left are in their
    old order.  With the empty string as author every track is taken out. *)
Theorem queue_removeByAuthor_spec (name : string) (q : Queue.t) :
  let o := QueueOps.removeByAuthor name q in
  QueueOps.filterByAuthor name o.2 = [] /\
  o.1 = length (QueueOps.filterByAuthor name q) /\
  o.1 + Queue.size o.2 = Queue.size q /\
  tracks o.2 `sublist_of` tracks q /\
  (forall t, t ∈ tracks q ->
     t ∈ tracks o.2 \/ t ∈ QueueOps.filterByAuthor name q) /\
  current o.2 = current q /\ previous o.2 = previous q /\ loopMode o.2 = loopMode q /\
  (name = EmptyString -> tracks o.2 = []).
Proof.
  cbn zeta. unfold QueueOps.removeByAuthor, QueueOps.filterByAuthor, Queue.size.
  cbn [fst snd tracks current previous loopMode QueueOps.withTracks].
  set (p := fun t : Track => includes (toLowerCase (author (info t))) (toLowerCase name)).
  change (fun t : Track => negb (includes (toLowerCase (author (info t))) (toLowerCase name)))
    with (fun t => negb (p t)).
  pose proof (List.filter_length p (tracks q)) as Hlen.
  split_and!; try done.
  - apply filter_negb_filter.
  - lia.
  - lia.
  - apply filter_sublist.
  - intros t Ht. rewrite !list_elem_of_In, !List.filter_In, <- !list_elem_of_In.
    destruct (p t); cbn; tauto.
  - intros ->. clear Hlen. induction (tracks q) as [|a l IH]; [done|].
    cbn [List.filter]. unfold p at 1. cbn [toLowerCase].
    by rewrite includes_empty.
Qed.

(** ** Polling *)

(** X8.  [skipTo(index)] with an index out of range returns null and leaves
    the queue as it is.  With an index in range the tracks before it are
    dropped and the queue is polled: while a track loops, the current track
    is returned and stays current; otherwise the track at [index] is
    returned and becomes current, the old current track becomes the
    previous one and, under the queue loop, goes to the end of the queue. *)
Theorem queue_skipTo_spec (index : Z) (q : Queue.t) :
  let o := QueueOps.skipTo index q in
  ((index < 0 \/ Z.of_nat (Queue.size q) <= index)%Z -> o = (None, q)) /\
  ((0 <= index < Z.of_nat (Queue.size q))%Z ->
     loopMode o.2 = loopMode q /\
     match loopMode q, current q with
     | LoopTrack, Some c =>
         o.1 = Some c /\ current o.2 = Some c /\ previous o.2 = previous q /\
         tracks o.2 = drop (Z.to_nat index) (tracks q)
     | mode, cur =>
         o.1 = QueueOps.at_ index q /\ is_Some o.1 /\
         current o.2 = o.1 /\ previous o.2 = cur /\
         tracks o.2 =
           drop (S (Z.to_nat index)) (tracks q)
           ++ match mode with LoopQueue => option_list cur | _ => [] end
     end).
Proof.
  cbn zeta. unfold QueueOps.skipTo. split.
  - intros H. apply outOfRange_true in H. by rewrite H.
  - intros H. pose proof H as Hr. apply outOfRange_false in H. rewrite H.
    unfold Queue.size in Hr.
    destruct (lookup_lt_is_Some_2 (tracks q) (Z.to_nat index)) as [x Hx]; [lia|].
    assert (Hd : drop (Z.to_nat index) (tracks q) = x :: drop (S (Z.to_nat index)) (tracks q)).
    { by apply drop_S. }
    rewrite at_lookup by lia. rewrite Hx.
    unfold Queue.poll. cbn [tracks current previous loopMode QueueOps.withTracks].
    rewrite Hd.
    destruct (loopMode q) eqn:Hm, (current q) as [c|] eqn:Hc; cbn;
      rewrite ?app_nil_r; eauto 10.
Qed.

Lemma pollMany_no_loop ts cur prev :
  exists c p,
    pollMany (length ts)
      {| tracks := ts; current := cur; previous := prev; loopMode := LoopNone |}
    = (Some <$> ts,
       {| tracks := []; current := c; previous := p; loopMode := LoopNone |}).
Proof.
  revert cur prev. induction ts as [|a ts IH]; intros cur prev.
  { by exists cur, prev. }
  destruct (IH (Some a) cur) as (c & p & Hrun). exists c, p.
  change (length (a :: ts)) with (S (length ts)). cbn [pollMany].
  change (Queue.poll {| tracks := a :: ts; current := cur; previous := prev;
                        loopMode := LoopNone |})
    with (Some a, {| tracks := ts; current := Some a; previous := cur;
                     loopMode := LoopNone |}).
  cbn iota beta. by rewrite Hrun.
Qed.

(** X9.  [peek()] returns the track that the next [poll()] returns.  With no
    loop, as many calls of [poll()] as there are tracks return the tracks in
    the order of the queue and leave the queue empty, and the call after
    them returns null. *)
Theorem queue_poll_fifo (q : Queue.t) :
  (Queue.poll q).1 = QueueOps.peek q /\
  (loopMode q = LoopNone ->
     let o := pollMany (Queue.size q) q in
     o.1 = Some <$> tracks q /\
     tracks o.2 = [] /\
     (Queue.poll o.2).1 = None).
Proof.
  split.
  { unfold Queue.poll, QueueOps.peek. by destruct (loopMode q), (current q). }
  cbn zeta. unfold Queue.size. destruct q as [ts cur prev mode]. cbn [tracks loopMode].
  intros ->. destruct (pollMany_no_loop ts cur prev) as (c & p & ->). done.
Qed.

(** ** Invariants of the node *)

Section Holds.
Context (I : Node.t -> Prop) (P : Node.Effect -> Prop).











End Holds.




Section Budget.
Context (bound : nat).

























End Budget.


(** ** The cache of the server information *)

Ltac fetchInfo_unfold :=
  unfold Node.fetchInfo, Node.fetchWithTimeout, Node.emitAndRethrow, Node.emit,
    Node.result, Node.after, Node.effects;
  unfold mbind, mret, Node.node_bind, Node.node_ret, Node.bind, Node.tryCatch,
    Node.ret, Node.throw, Node.get, Node.put, Node.modify, Node.effect.

(** The loop over plugins that ends has read them all. *)
Lemma pluginsRead_plugins info :
  pluginsError info = None -> pluginsRead info = plugins info.
Proof.
  unfold pluginsError, pluginsRead, plugins.
  destruct (pluginList info) as [l|]; [|done]. cbn [default from_option id].
  induction l as [|[p|] l IH]; cbn [hasNull pluginsBefore]; [done| |done].
  intros H. rewrite IH by done. done.
Qed.

(** The request of [getInfo] that succeeds has filled the caches. *)
Lemma fetchInfo_Ok net now n info :
  Node.result (Node.fetchInfo net now n) = Ok info ->
  pluginsError info = None /\
  Node.fetchInfo net now n
  = (Ok info, Node.setInfo info now n, [Node.Fetch (infoRequest n)]).
Proof.
  fetchInfo_unfold. fold (infoRequest n).
  destruct (net (infoRequest n)) as [r| |m]; cbn [app fst snd]; [|done..].
  destruct (ok r); cbn [negb fst snd]; [|done].
  destruct (jsonInfo r) as [| |i]; cbn [app fst snd]; [done..|].
  destruct (pluginsError i) eqn:He; cbn [app fst snd]; [done|]. by intros [= <-].
Qed.

(** The request of [getInfo] that fails has announced its error; it has
    written the caches when the answer was a body that cannot be used. *)
Lemma fetchInfo_Err net now n e :
  Node.result (Node.fetchInfo net now n) = Err e ->
  Node.effects (Node.fetchInfo net now n)
  = [Node.Fetch (infoRequest n); Node.Emit (Node.EvError (Node.id n) e)] /\
  Node.after (Node.fetchInfo net now n)
  = match net (infoRequest n) with
    | Responded r =>
        if ok r then
          match jsonInfo r with
          | InfoNotJson => n
          | InfoNull => Node.clearInfo now n
          | InfoObject info => Node.setInfo info now n
          end
        else n
    | _ => n
    end /\
  (forall r info,
     net (infoRequest n) = Responded r -> ok r = true ->
     jsonInfo r = InfoObject info -> pluginsError info = Some e).
Proof.
  intros He. split_and!.
  - revert He. fetchInfo_unfold. fold (infoRequest n).
    destruct (net (infoRequest n)) as [r| |m]; cbn; [|by intros [= <-]..].
    destruct (ok r); cbn; [|by intros [= <-]].
    destruct (jsonInfo r) as [| |i]; cbn; [by intros [= <-]..|].
    destruct (pluginsError i); cbn; [|done]. by intros [= <-].
  - revert He. fetchInfo_unfold. fold (infoRequest n).
    destruct (net (infoRequest n)) as [r| |m]; cbn; [|done..].
    destruct (ok r); cbn; [|done].
    destruct (jsonInfo r) as [| |i]; cbn; [done..|].
    by destruct (pluginsError i).
  - intros r info Hr Hok Hi. revert He. fetchInfo_unfold. fold (infoRequest n).
    rewrite Hr. cbn. rewrite Hok. cbn. rewrite Hi. cbn.
    destruct (pluginsError info); cbn; [|done]. by intros [= <-].
Qed.

(** A forced [getInfo] on a connected node is its request. *)
Lemma getInfo_forced net now n :
  Node.connected n = true ->
  Node.getInfo net now true n = Node.fetchInfo net now n.
Proof.
  intros Hc. unfold Node.getInfo.
  unfold mbind, Node.node_bind, Node.bind, Node.get. rewrite Hc. cbn [negb andb].
  destruct (Node.lavalinkInfo n); by destruct (Node.fetchInfo net now n) as [[[] ?] ?].
Qed.

Lemma getInfo_disconnected net now force n :
  Node.connected n = false ->
  Node.getInfo net now force n = (Err (Node.notConnectedError n), n, []).
Proof.
  intros Hc. unfold Node.getInfo.
  unfold mbind, Node.node_bind, Node.bind, Node.get, Node.throw. by rewrite Hc.
Qed.

(** A forced [getInfo] that succeeds has made the request and filled the
    caches. *)
Lemma getInfo_forced_Ok net now n info :
  Node.result (Node.getInfo net now true n) = Ok info ->
  Node.connected n = true /\
  Node.getInfo net now true n
  = (Ok info, Node.setInfo info now n, [Node.Fetch (infoRequest n)]).
Proof.
  destruct (Node.connected n) eqn:Hc.
  - rewrite getInfo_forced by done. intros H. split; [done|].
    by apply fetchInfo_Ok.
  - by rewrite getInfo_disconnected.
Qed.

Lemma getInfo_forced_plugins net now n info :
  Node.result (Node.getInfo net now true n) = Ok info ->
  pluginsRead info = plugins info.
Proof.
  destruct (Node.connected n) eqn:Hc.
  - rewrite getInfo_forced by done. intros H.
    by apply pluginsRead_plugins, (fetchInfo_Ok net now n).
  - by rewrite getInfo_disconnected.
Qed.

Lemma getInfo_fetches net now force n :
  Node.connected n = true ->
  (force = true \/ Node.lavalinkInfo n = None \/
   (Node.INFO_CACHE_TTL <= now - Node.infoFetchTime n)%N) ->
  existsb Node.isFetch (Node.effects (Node.getInfo net now force n)) = true.
Proof.
  intros Hc Hwhy. unfold Node.getInfo. apply fetches_get. rewrite Hc. cbn [negb].
  assert (Hf : existsb Node.isFetch (Node.effects (Node.fetchInfo net now n)) = true).
  { unfold Node.fetchInfo. apply fetches_get.
    apply fetches_tryCatch, fetches_bind, fetches_fetch. }
  destruct (Node.lavalinkInfo n) as [info|]; [|done].
  destruct force; [done|]. cbn [negb andb].
  destruct (N.ltb_spec (now - Node.infoFetchTime n) Node.INFO_CACHE_TTL); [|done].
  destruct Hwhy as [?|[?|?]]; [done|done|lia].
Qed.

(** X11.  After a forced [getInfo] that succeeded at the time [now0], a
    [getInfo] that is not forced returns the same information without any
    request and leaves the node as it is, as long as less than five minutes
    have gone by; from five minutes on, and whenever it is forced, it makes
    a request. *)
Theorem getInfo_cache (net : Net) (now0 : N) (n : Node.t) (info : LavalinkInfo) :
  Node.result (Node.getInfo net now0 true n) = Ok info ->
  let n1 := Node.after (Node.getInfo net now0 true n) in
  forall (net' : Net) (now1 : N),
    ((now1 - now0 < 300000)%N ->
       Node.getInfo net' now1 false n1 = (Ok info, n1, [])) /\
    ((300000 <= now1 - now0)%N ->
       existsb Node.isFetch (Node.effects (Node.getInfo net' now1 false n1)) = true) /\
    existsb Node.isFetch (Node.effects (Node.getInfo net' now1 true n1)) = true.
Proof.
  intros H. apply getInfo_forced_Ok in H as [Hc Hrun]. rewrite Hrun.
  cbn zeta. unfold Node.after. cbn [fst snd]. intros net' now1.
  assert (Hc1 : Node.connected (Node.setInfo info now0 n) = true) by done.
  split_and!.
  - intros Hlt. unfold Node.getInfo.
    unfold mbind, Node.node_bind, Node.bind, Node.get, Node.ret. rewrite Hc1.
    cbn [negb andb Node.lavalinkInfo Node.infoFetchTime Node.setInfo].
    destruct (N.ltb_spec (now1 - now0) Node.INFO_CACHE_TTL) as [_|Hge]; [done|].
    unfold Node.INFO_CACHE_TTL in Hge. lia.
  - intros Hge. apply getInfo_fetches; [done|]. right. right. exact Hge.
  - apply getInfo_fetches; [done|]. by left.
Qed.

Lemma getInfo_cache_witness :
  Node.getInfo netDown 1000 false
    (Node.after (Node.getInfo netOk 0 true openNode))
  = (Ok sampleInfo, Node.after (Node.getInfo netOk 0 true openNode), []).
Proof.
  refine (proj1 (getInfo_cache netOk 0 openNode sampleInfo _ netDown 1000) _).
  - vm_compute. reflexivity.
  - vm_compute. reflexivity.
Defined.

(** X12.  A [getInfo] that throws.  On a node that is not connected it
    throws the error of its guard and has done nothing.  On a connected
    node it has made its request and announced, by the [error] event, the
    error that it throws.  The node is then as it was, unless the answer
    was a 2xx answer whose JSON body cannot be used: the body is assigned
    to the cached information and the time to the time of the last
    request, and the plugin cache is cleared, before the loop over the
    plugins throws.  This is so for the body [null], for a body without an
    array of plugins, and for an array of plugins that holds a [null]: the
    plugins before the [null] are then in the plugin cache. *)
Theorem getInfo_failure (net : Net) (now : N) (force : bool) (n : Node.t)
    (e : JsError) :
  Node.result (Node.getInfo net now force n) = Err e ->
  let o := Node.getInfo net now force n in
  (Node.connected n = false -> o = (Err (Node.notConnectedError n), n, [])) /\
  (Node.connected n = true ->
     Node.effects o
     = [Node.Fetch (infoRequest n); Node.Emit (Node.EvError (Node.id n) e)] /\
     (forall r,
        net (infoRequest n) = Responded r -> ok r = true -> jsonInfo r = InfoNull ->
        Node.after o = Node.clearInfo now n /\
        Node.lavalinkInfo (Node.after o) = None /\
        Node.infoFetchTime (Node.after o) = now /\
        Node.pluginCache (Node.after o) = ∅) /\
     (forall r info,
        net (infoRequest n) = Responded r -> ok r = true ->
        jsonInfo r = InfoObject info ->
        pluginsError info = Some e /\
        Node.after o = Node.setInfo info now n /\
        Node.lavalinkInfo (Node.after o) = Some info /\
        Node.infoFetchTime (Node.after o) = now /\
        Node.pluginCache (Node.after o) = Node.buildPluginCache (pluginsRead info)) /\
     ((forall r, net (infoRequest n) = Responded r ->
                 ok r = false \/ jsonInfo r = InfoNotJson) ->
      Node.after o = n)).
Proof.
  cbn zeta. destruct (Node.connected n) eqn:Hc.
  - assert (Hcases :
      Node.getInfo net now force n = Node.fetchInfo net now n \/
      exists info, Node.getInfo net now force n = (Ok info, n, [])).
    { unfold Node.getInfo.
      unfold mbind, Node.node_bind, Node.bind, Node.get, Node.ret. rewrite Hc.
      cbn [negb]. destruct (Node.lavalinkInfo n) as [info|].
      - destruct (negb force && _); [right; by exists info|left].
        by destruct (Node.fetchInfo net now n) as [[[] ?] ?].
      - left. by destruct (Node.fetchInfo net now n) as [[[] ?] ?]. }
    destruct Hcases as [->|[info ->]]; [|discriminate].
    intros He. destruct (fetchInfo_Err net now n e He) as (Heff & Hafter & Hlist).
    split; [done|]. intros _. rewrite Hafter. split_and!; [done|..].
    + intros r -> -> ->. done.
    + intros r info Hr Hok Hi. pose proof (Hlist r info Hr Hok Hi) as Herr.
      rewrite Hr, Hok, Hi. by split_and!.
    + intros Hother. destruct (net (infoRequest n)) as [r| |m]; [|done..].
      destruct (Hother r eq_refl) as [->| ->]; [done|]. by destruct (ok r).
  - rewrite getInfo_disconnected by done. intros [= <-]. by split_and!.
Qed.

Lemma getInfo_failure_witness :
  Node.after (Node.getInfo netNull 400000 false
                (Node.after (Node.getInfo netOk 0 true openNode)))
  = Node.clearInfo 400000 (Node.after (Node.getInfo netOk 0 true openNode)).
Proof.
  refine (proj1 (proj1 (proj2 (proj2 (getInfo_failure netNull 400000 false
                   (Node.after (Node.getInfo netOk 0 true openNode))
                   (PlainError "Cannot read properties of null (reading 'plugins')")
                   _) _)) _ eq_refl _ _)).
  - vm_compute. reflexivity.
  - vm_compute. reflexivity.
  - vm_compute. reflexivity.
  - vm_compute. reflexivity.
Defined.

Example null_plugin_keeps_prefix :
  let o := Node.getInfo netBroken 1000 true openNode in
  Node.result o = Err (PlainError "Cannot read properties of null (reading 'name')") /\
  Node.lavalinkInfo (Node.after o) = Some brokenInfo /\
  Node.result (Node.hasPlugin netDown 1000 "lyrics" false (Node.after o)) = Ok true /\
  Node.result (Node.hasPlugin netDown 1000 "sponsorblock" false (Node.after o)) = Ok false.
Proof. vm_compute. done. Qed.

(** The cache that a failure empties: after a refresh that is answered by
    the body [null], the node has forgotten the plugins that it knew. *)
Example null_body_forgets_plugins :
  let n1 := Node.after (Node.getInfo netPlugins 0 true openNode) in
  let n2 := Node.after (Node.getInfo netNull 1000 true n1) in
  Node.result (Node.hasPlugin netDown 1000 "lyrics" false n1) = Ok true /\
  Node.lavalinkInfo n2 = None /\
  Node.pluginCache n2 = ∅ /\
  Node.infoFetchTime n2 = 1000%N.
Proof. vm_compute. done. Qed.

(** ** The plugin cache *)

Lemma buildPluginCache_lookup_from (m : gmap string PluginInfo) ps name :
  foldl (fun m p => <[pl_name p := p]> m) m ps !! name
  = match last (pluginsNamed name ps) with
    | Some p => Some p
    | None => m !! name
    end.
Proof.
  revert m. induction ps as [|p ps IH]; intros m; [done|].
  cbn [foldl]. rewrite IH. unfold pluginsNamed. rewrite filter_cons.
  destruct (decide (pl_name p = name)) as [<-|Hne].
  - destruct (filter _ ps) as [|p' l] eqn:El; cbn.
    + by rewrite lookup_insert_eq.
    + destruct (last (p' :: l)) eqn:E; [done|]. by apply last_None in E.
  - destruct (last (filter _ ps)); [done|]. by rewrite lookup_insert_ne.
Qed.

Lemma buildPluginCache_lookup ps name :
  Node.buildPluginCache ps !! name = last (pluginsNamed name ps).
Proof.
  unfold Node.buildPluginCache. rewrite buildPluginCache_lookup_from.
  by destruct (last _).
Qed.

Lemma buildPluginCache_has ps name :
  is_Some (Node.buildPluginCache ps !! name) <-> name ∈ pl_name <$> ps.
Proof.
  rewrite buildPluginCache_lookup, last_is_Some. unfold pluginsNamed.
  rewrite list_elem_of_fmap. split.
  - intros Hne. destruct (filter _ ps) as [|p l] eqn:El; [done|].
    assert (Hp : p ∈ filter (fun p => pl_name p = name) ps) by (rewrite El; left).
    apply list_elem_of_filter in Hp as [Hp1 Hp2]. eauto.
  - intros (p & -> & Hp) El.
    assert (Hin : p ∈ filter (fun q => pl_name q = pl_name p) ps)
      by (by apply list_elem_of_filter).
    rewrite El in Hin. by apply elem_of_nil in Hin.
Qed.

Lemma buildPluginCache_size ps : ps <> [] -> 0 < base.size (Node.buildPluginCache ps).
Proof.
  intros Hne. destruct ps as [|p ps]; [done|].
  destruct (buildPluginCache_has (p :: ps) (pl_name p)) as [_ Hin].
  destruct Hin as [q Hq]; [left|].
  destruct (decide (base.size (Node.buildPluginCache (p :: ps)) = 0)) as [H0|]; [|lia].
  apply map_size_empty_iff in H0. rewrite H0 in Hq. by rewrite lookup_empty in Hq.
Qed.

(** [hasPlugin] and [getPluginInfo] on a node whose caches were filled at
    [now0] from [info]. *)
Lemma plugin_lookups_run net' now0 now1 name n info :
  Node.connected n = true ->
  pluginsRead info = plugins info ->
  plugins info <> [] \/ (now1 - now0 < 300000)%N ->
  let n1 := Node.setInfo info now0 n in
  Node.hasPlugin net' now1 name false n1
  = (Ok (bool_decide (name ∈ pl_name <$> plugins info)), n1, []) /\
  Node.getPluginInfo net' now1 name false n1
  = (Ok (last (pluginsNamed name (plugins info))), n1, []).
Proof.
  intros Hc Hread Hwhy n1.
  assert (Hcache : Node.pluginCache n1 = Node.buildPluginCache (plugins info)).
  { unfold n1. cbn [Node.pluginCache Node.setInfo]. by rewrite Hread. }
  assert (Hlook : Node.pluginCache n1 !! name = last (pluginsNamed name (plugins info))).
  { rewrite Hcache. apply buildPluginCache_lookup. }
  assert (Hhas : bool_decide (is_Some (Node.pluginCache n1 !! name))
                 = bool_decide (name ∈ pl_name <$> plugins info)).
  { rewrite Hcache. apply bool_decide_ext, buildPluginCache_has. }
  unfold Node.hasPlugin, Node.getPluginInfo.
  unfold mbind, mret, Node.node_bind, Node.node_ret, Node.bind, Node.get, Node.ret.
  cbn [negb andb].
  destruct (Nat.ltb_spec 0 (base.size (Node.pluginCache n1))) as [Hsize|Hsize].
  { by rewrite Hhas, Hlook. }
  destruct Hwhy as [Hne|Hlt].
  { apply buildPluginCache_size in Hne. rewrite Hcache in Hsize. lia. }
  assert (Hhit : Node.getInfo net' now1 false n1 = (Ok info, n1, [])).
  { unfold Node.getInfo.
    unfold mbind, Node.node_bind, Node.bind, Node.get, Node.ret.
    change (Node.connected n1) with (Node.connected n). rewrite Hc.
    cbn [negb andb Node.lavalinkInfo Node.infoFetchTime Node.setInfo n1].
    destruct (N.ltb_spec (now1 - now0) Node.INFO_CACHE_TTL) as [_|Hge]; [done|].
    unfold Node.INFO_CACHE_TTL in Hge. lia. }
  rewrite Hhit. cbn [app]. by rewrite Hhas, Hlook.
Qed.

(** X13.  After a forced [getInfo] that succeeded, [hasPlugin] tells whether
    the list of plugins received has a plugin of that name, and
    [getPluginInfo] returns the last plugin of that name in the list, null
    when there is none.  Neither makes a request, as long as the list has a
    plugin or less than five minutes have gone by. *)
Theorem plugins_after_refresh (net : Net) (now0 : N) (n : Node.t)
    (info : LavalinkInfo) :
  Node.result (Node.getInfo net now0 true n) = Ok info ->
  let n1 := Node.after (Node.getInfo net now0 true n) in
  forall (net' : Net) (now1 : N) (name : string),
    plugins info <> [] \/ (now1 - now0 < 300000)%N ->
    Node.hasPlugin net' now1 name false n1
    = (Ok (bool_decide (name ∈ pl_name <$> plugins info)), n1, []) /\
    Node.getPluginInfo net' now1 name false n1
    = (Ok (last (pluginsNamed name (plugins info))), n1, []).
Proof.
  intros H. pose proof (getInfo_forced_plugins _ _ _ _ H) as Hread.
  apply getInfo_forced_Ok in H as [Hc Hrun]. rewrite Hrun.
  cbn zeta. unfold Node.after. cbn [fst snd].
  intros net' now1 name Hwhy. by apply plugin_lookups_run.
Qed.

Lemma plugins_after_refresh_witness :
  Node.getPluginInfo netDown 900000 "lyrics" false
    (Node.after (Node.getInfo netPlugins 0 true openNode))
  = (Ok (Some {| pl_name := "lyrics"; pl_version := "2.0.0" |}),
     Node.after (Node.getInfo netPlugins 0 true openNode), []).
Proof.
  refine (proj2 (plugins_after_refresh netPlugins 0 openNode pluginInfo _
                   netDown 900000 "lyrics"%string _)).
  - vm_compute. reflexivity.
  - left. discriminate.
Defined.

(** X14.  [pluginRequest] for a plugin that the node is known not to have
    makes no request: after a forced [getInfo] that succeeded, a plugin
    request under a name that is not in the list received throws the error
    that names the plugin and the node, with no event, as long as the list
    has a plugin or less than five minutes have gone by. *)
Theorem pluginRequest_not_installed (net : Net) (now0 : N) (n : Node.t)
    (info : LavalinkInfo) :
  Node.result (Node.getInfo net now0 true n) = Ok info ->
  let n1 := Node.after (Node.getInfo net now0 true n) in
  forall (net' : Net) (now1 : N) (name endpoint method : string)
    (body : option string),
    plugins info <> [] \/ (now1 - now0 < 300000)%N ->
    name ∉ pl_name <$> plugins info ->
    Node.pluginRequest net' now1 name endpoint method body n1
    = (Err (PlainError ("Plugin " ++ dquote ++ name ++ dquote
                        ++ " is not installed on node " ++ Node.id n)%string),
       n1, []).
Proof.
  intros H. pose proof (getInfo_forced_plugins _ _ _ _ H) as Hread.
  apply getInfo_forced_Ok in H as [Hc Hrun]. rewrite Hrun.
  cbn zeta. unfold Node.after. cbn [fst snd].
  intros net' now1 name endpoint method body Hwhy Hout.
  destruct (plugin_lookups_run net' now0 now1 name n info Hc Hread Hwhy) as [Hhas _].
  cbn zeta in Hhas. rewrite bool_decide_eq_false_2 in Hhas by done.
  unfold Node.pluginRequest.
  unfold mbind at 1. unfold Node.node_bind, Node.bind at 1. unfold Node.get at 1.
  change (Node.connected (Node.setInfo info now0 n)) with (Node.connected n).
  rewrite Hc. cbn [negb].
  unfold mbind at 1. unfold Node.node_bind, Node.bind at 1.
  rewrite Hhas. cbn [negb]. unfold Node.throw. cbn [app].
  reflexivity.
Qed.

Lemma pluginRequest_not_installed_witness :
  Node.pluginRequest netDown 900000 "sponsors" "/v4/sponsors" "GET" None
    (Node.after (Node.getInfo netPlugins 0 true openNode))
  = (Err (PlainError ("Plugin " ++ dquote ++ "sponsors" ++ dquote
                      ++ " is not installed on node " ++ Node.id openNode)%string),
     Node.after (Node.getInfo netPlugins 0 true openNode), []).
Proof.
  refine (pluginRequest_not_installed netPlugins 0 openNode pluginInfo _
            netDown 900000 "sponsors"%string "/v4/sponsors"%string "GET"%string
            None _ _).
  - vm_compute. reflexivity.
  - left. discriminate.
  - intros Hin. vm_compute in Hin.
    repeat (apply elem_of_cons in Hin as [Hin|Hin]; [discriminate Hin|]).
    by apply elem_of_nil in Hin.
Defined.

(** ** Destroying a player of the node *)

(** X15.  [destroyPlayer] on a node with a session makes one DELETE request
    and leaves the node as it is.  An answer with a status from 200 to 299
    or with the status 404 ends the call without an error and without an
    event.  Any other answer throws: the error gives the status and the
    message of the body, or [Unknown error] when the body is not JSON or has
    no message; when the body is [null], reading its message throws a
    [TypeError], and that is the error of the call.  A request that times
    out throws the time-out error.  An error thrown is logged and announced
    by the [error] event exactly when its message does not contain 404. *)
Theorem destroyPlayer_outcomes (net : Net) (guildId : string) (n : Node.t)
    (sid : string) :
  Node.sessionId n = Some sid -> sid <> EmptyString ->
  let req := destroyRequest n sid guildId in
  let o := Node.destroyPlayer net guildId n in
  Node.after o = n /\
  (forall r, net req = Responded r -> ok r = true \/ status r = 404 ->
     o = (Ok tt, n, [Node.Fetch req])) /\
  (forall r, net req = Responded r -> ok r = false -> status r <> 404 ->
     let failed message :=
       PlainError ("[" ++ pretty (status r) ++ "] Failed to destroy player: "
                   ++ message)%string in
     Node.result o
     = Err match jsonMessage r with
           | ErrorNotJson => failed "Unknown error"%string
           | ErrorNull =>
               PlainError "Cannot read properties of null (reading 'message')"
           | ErrorObject None | ErrorObject (Some EmptyString) =>
               failed "Unknown error"%string
           | ErrorObject (Some message) => failed message
           end) /\
  (net req = AbortError ->
     Node.result o = Err (PlainError "Request timeout after 5000ms")) /\
  (forall e, Node.result o = Err e ->
     Node.effects o
     = Node.Fetch req
       :: if includes (errorMessage e) "404" then []
          else [Node.ConsoleError e; Node.Emit (Node.EvError (Node.id n) e)]).
Proof.
  intros Hsid Hne. cbn zeta.
  unfold Node.destroyPlayer, Node.fetchWithTimeout, Node.emit, Node.errorBodyMessage.
  unfold mbind, mret, Node.node_bind, Node.node_ret, Node.bind, Node.tryCatch,
    Node.ret, Node.throw, Node.get, Node.put, Node.modify, Node.effect,
    Node.result, Node.after, Node.effects.
  rewrite Hsid. replace (truthy (Some sid)) with true by (by destruct sid).
  cbn [negb]. fold (destroyRequest n sid guildId).
  destruct (net (destroyRequest n sid guildId)) as [r| |m] eqn:Hnet; cbn [app fst snd].
  - destruct (ok r) eqn:Hok; cbn [negb andb].
    { split_and!; try done. intros r' [= <-]. congruence. }
    destruct (Nat.eqb_spec (status r) 404) as [H404|H404]; cbn [negb app fst snd].
    { split_and!; try done. intros r' [= <-]. congruence. }
    destruct (jsonMessage r) as [| |[[|c message]|]] eqn:Hbody;
      cbn [negb app fst snd truthy from_option id];
      match goal with
      | |- context [includes ?m "404"] => destruct (includes m "404") eqn:Hinc
      end; cbn [negb app fst snd].
    all: split_and!; try done.
    all: try (intros r' [= <-] [?|?]; congruence).
    all: try (intros e [= <-]; by rewrite Hinc).
    all: try (intros r' [= <-] _ _; by rewrite Hbody).
  - change (includes
              (errorMessage
                 (PlainError ("Request timeout after "
                              +:+ pretty (timeout (destroyRequest n sid guildId))
                              +:+ "ms"))) "404")
      with false.
    cbn [negb app fst snd]. split_and!; try done.
    intros e [= <-]. reflexivity.
  - destruct (includes (errorMessage (PlainError m)) "404") eqn:Hinc;
      cbn [negb app fst snd]; (split_and!; try done);
      intros e [= <-]; by rewrite Hinc.
Qed.

Lemma destroyPlayer_outcomes_witness :
  Node.destroyPlayer netNotFound sampleGuild readyNode
  = (Ok tt, readyNode,
     [Node.Fetch (destroyRequest readyNode "session-123" sampleGuild)]).
Proof.
  refine (proj1 (proj2 (destroyPlayer_outcomes netNotFound sampleGuild readyNode
                          "session-123"%string _ _)) _ _ _).
  - vm_compute. reflexivity.
  - discriminate.
  - reflexivity.
  - right. reflexivity.
Defined.

(** ** The socket: open, ready, close *)

(** What [onOpen] does after its four assignments leaves alone every field
    that the update of the information caches leaves alone. *)
Lemma onOpen_field {X} (f : Node.t -> X) net now n :
  (forall info t m, f (Node.setInfo info t m) = f m) ->
  (forall t m, f (Node.clearInfo t m) = f m) ->
  f (Node.after (Node.onOpen net now n))
  = f (Node.set_reconnectAttempts 0
         (Node.set_connectionState Node.CONNECTED
            (Node.set_connected true
               (match Node.ws n with
                | Some _ => Node.set_ws (Some Node.WS_OPEN) n
                | None => n
                end)))).
Proof.
  intros Hf Hf'. unfold Node.onOpen. rewrite !after_modify_bind.
  match goal with |- f (Node.after (?k ?s)) = _ => assert (Hk : keeps f k) end.
  { apply keeps_bind; [apply keeps_get|]. intros n0.
    apply keeps_bind; [apply keeps_emit|]. intros _.
    apply keeps_bind.
    - destruct (_ && _); [|apply keeps_mret].
      apply keeps_tryCatch; [apply keeps_send|intros; apply keeps_emit].
    - intros _. apply keeps_tryCatch; [|intros; apply keeps_emit].
      by apply keeps_discoverPlugins. }
  by rewrite Hk.
Qed.

(** X16.  The socket's [open] event makes the node connected, whatever the
    discovery of the plugins does, but not ready unless the node has kept a
    session; the [ready] frame that follows makes it ready and gives it the
    session of the frame, and then, the session not being the empty string,
    the guard of every REST operation lets the call through. *)
Theorem open_then_ready (net : Net) (now : N) (n : Node.t) (sid : string)
    (resumed : bool) :
  let n1 := Node.after (Node.onOpen net now n) in
  let n2 := Node.after (Node.onMessage (Node.FrameReady sid resumed) n1) in
  Node.connected n1 = true /\
  Node.connectionState n1 = Node.CONNECTED /\
  Node.sessionId n1 = Node.sessionId n /\
  Node.isReady n1 = bool_decide (is_Some (Node.sessionId n)) /\
  Node.isReady n2 = true /\
  Node.sessionId n2 = Some sid /\
  Node.connectionState n2 = Node.CONNECTED /\
  (sid <> EmptyString -> forall op, Node.guardPasses op n2 = true).
Proof.
  cbn zeta.
  assert (Hc : Node.connected (Node.after (Node.onOpen net now n)) = true).
  { rewrite (onOpen_field Node.connected) by done. by destruct (Node.ws n). }
  assert (Hs : Node.connectionState (Node.after (Node.onOpen net now n)) = Node.CONNECTED).
  { rewrite (onOpen_field Node.connectionState) by done. by destruct (Node.ws n). }
  assert (Hi : Node.sessionId (Node.after (Node.onOpen net now n)) = Node.sessionId n).
  { rewrite (onOpen_field Node.sessionId) by done. by destruct (Node.ws n). }
  set (n1 := Node.after (Node.onOpen net now n)) in *.
  change (Node.after (Node.onMessage (Node.FrameReady sid resumed) n1))
    with (Node.set_sessionId (Some sid) n1).
  unfold Node.isReady.
  change (Node.connected (Node.set_sessionId (Some sid) n1)) with (Node.connected n1).
  change (Node.connectionState (Node.set_sessionId (Some sid) n1))
    with (Node.connectionState n1).
  rewrite Hc, Hi. split_and!; try done.
  - by destruct (Node.sessionId n).
  - intros Hne op. destruct op; cbn [Node.guardPasses]; try done.
    all: change (Node.sessionId (Node.set_sessionId (Some sid) n1)) with (Some sid);
      by destruct sid.
Qed.

(** X17.  When the budget of reconnection attempts is used up, the socket's
    [close] event announces the disconnection and then the error that the
    maximum is reached, and nothing else: no timer is set and no
    reconnection is announced, with the close code 1000 as with any other.
    The number of attempts and a timer that is pending are left as they
    are, and the node stays in the state of reconnecting if it was in it. *)
Theorem close_gives_up (n : Node.t) (code : nat) (reason : string) (u : Q) :
  Node.maxReconnectAttempts n <= Node.reconnectAttempts n ->
  let o := Node.onClose code reason u n in
  Node.effects o
  = [Node.Emit (Node.EvDisconnect (Node.id n) reason code);
     Node.Emit (Node.EvError (Node.id n)
                  (PlainError ("Max reconnection attempts ("
                               ++ pretty (Node.maxReconnectAttempts n)
                               ++ ") reached")%string))] /\
  Node.reconnectAttempts (Node.after o) = Node.reconnectAttempts n /\
  Node.reconnectTimeout (Node.after o) = Node.reconnectTimeout n /\
  Node.connected (Node.after o) = false /\
  Node.ws (Node.after o) = None /\
  Node.connectionState (Node.after o)
  = match Node.connectionState n with
    | Node.RECONNECTING => Node.RECONNECTING
    | _ => Node.DISCONNECTED
    end.
Proof.
  intros Hmax. cbn zeta. node_run. cbn -[Nat.ltb Nat.leb].
  destruct (Nat.ltb_spec (Node.reconnectAttempts n) (Node.maxReconnectAttempts n));
    [lia|].
  destruct (Nat.leb_spec (Node.maxReconnectAttempts n) (Node.reconnectAttempts n));
    [|lia].
  rewrite andb_false_r.
  destruct (negb (truthy (Node.resumeKey n)) || (code =? 1000)),
    (Node.connectionState n) eqn:Hs; cbn; by split_and!.
Qed.

Lemma close_gives_up_witness :
  Node.effects (Node.onClose 1006 "gone" 0 (Node.set_reconnectAttempts 5 readyNode))
  = [Node.Emit (Node.EvDisconnect "node-a" "gone" 1006);
     Node.Emit (Node.EvError "node-a"
                  (PlainError "Max reconnection attempts (5) reached"))].
Proof.
  refine (proj1 (close_gives_up (Node.set_reconnectAttempts 5 readyNode)
                   1006 "gone"%string 0 _)).
  vm_compute. constructor.
Defined.

(** The node after an unexpected close of its socket, with an attempt left. *)
Lemma onClose_backoff n code reason u :
  code <> 1000 ->
  Node.reconnectAttempts n < Node.maxReconnectAttempts n ->
  truthy (Node.clientId n) = true ->
  let n1 := Node.after (Node.onClose code reason u n) in
  Node.ws n1 = None /\
  Node.connectionState n1 = Node.RECONNECTING /\
  is_Some (Node.reconnectTimeout n1) /\
  Node.clientId n1 = Node.clientId n /\
  Node.resumeKey n1 = Node.resumeKey n /\
  Node.wsUrl n1 = Node.wsUrl n.
Proof.
  intros Hcode Hlt Hcid. cbn zeta. node_run. cbn -[Nat.ltb Nat.leb Nat.eqb].
  apply Nat.eqb_neq in Hcode. rewrite Hcode.
  destruct (Nat.ltb_spec (Node.reconnectAttempts n) (Node.maxReconnectAttempts n));
    [|lia].
  rewrite orb_false_r. cbn [negb andb].
  destruct (negb (truthy (Node.resumeKey n))), (Node.connectionState n);
    cbn -[Qmin Qmult Qplus inject_Z Z.pow]; rewrite Hcid;
    destruct (Node.reconnectTimeout n);
    cbn -[Qmin Qmult Qplus inject_Z Z.pow]; eauto 10.
Qed.

(** X18.  [disconnect()] on a node that holds no socket returns at once.
    This is the case while the node waits to reconnect after an unexpected
    close: the call then leaves the node reconnecting with its timer
    pending, and when the timer goes off the node opens a new socket. *)
Theorem disconnect_during_backoff (n : Node.t) (code : nat) (reason : string)
    (u : Q) :
  code <> 1000 ->
  Node.reconnectAttempts n < Node.maxReconnectAttempts n ->
  truthy (Node.clientId n) = true ->
  let n1 := Node.after (Node.onClose code reason u n) in
  Node.connectionState n1 = Node.RECONNECTING /\
  is_Some (Node.reconnectTimeout n1) /\
  forall closeError,
    Node.disconnect closeError n1 = (Ok tt, n1, []) /\
    forall u',
      let o := Node.handle (Node.TimerFires None u') n1 in
      (exists header, Node.effects o = [Node.WsNew (Node.wsUrl n) header]) /\
      Node.connectionState (Node.after o) = Node.CONNECTING /\
      Node.ws (Node.after o) = Some Node.WS_CONNECTING.
Proof.
  intros Hcode Hlt Hcid.
  destruct (onClose_backoff n code reason u Hcode Hlt Hcid)
    as (Hws & Hstate & [d Htimer] & Hcid1 & Hkey & Hurl).
  cbn zeta in *. set (n1 := Node.after (Node.onClose code reason u n)) in *.
  split_and!; [done | by eexists |]. intros closeError. split.
  - unfold Node.disconnect.
    unfold mbind, mret, Node.node_bind, Node.node_ret, Node.bind, Node.get, Node.ret.
    by rewrite Hws.
  - intros u'. unfold Node.handle, Node.onReconnectTimer, Node.connect.
    unfold mbind, mret, Node.node_bind, Node.node_ret, Node.bind, Node.get, Node.ret,
      Node.modify, Node.effect, Node.after, Node.effects.
    rewrite Htimer, Hstate, Hws, Hurl. cbn. rewrite Hstate. cbn. eauto.
Qed.

Lemma disconnect_during_backoff_witness :
  Node.disconnect None (Node.after (Node.onClose 1006 "gone" (1 # 2) readyNode))
  = (Ok tt, Node.after (Node.onClose 1006 "gone" (1 # 2) readyNode), []).
Proof.
  refine (proj1 (proj2 (proj2 (disconnect_during_backoff readyNode 1006 "gone"%string
                                 (1 # 2) _ _ _)) None)).
  - discriminate.
  - vm_compute. repeat constructor.
  - reflexivity.
Defined.

(** ** Playback: the checks before the request, and the update after it *)

Ltac player_unfold :=
  unfold mbind, mret, Player.player_bind, Player.player_ret, Player.bind,
    Player.tryCatch, Player.ret, Player.throw, Player.get, Player.modify,
    Player.effect.

Lemma checks_fail {A} (k : Player.M A) node p :
  Player.destroyed p = false -> Node.isReady node = false ->
  (Player.checkDestroyed ;; Player.checkNodeReady node ;; k) p
  = (Err (nodeNotReadyError node), p, []).
Proof.
  intros Hd Hr. unfold Player.checkDestroyed, Player.checkNodeReady, Player.createError.
  player_unfold. by rewrite Hd, Hr.
Qed.

Lemma checks_pass {A} (k : Player.M A) node p :
  Player.destroyed p = false -> Node.isReady node = true ->
  (Player.checkDestroyed ;; Player.checkNodeReady node ;; k) p = k p.
Proof.
  intros Hd Hr. unfold Player.checkDestroyed, Player.checkNodeReady, Player.createError.
  player_unfold. rewrite Hd, Hr. cbn. by destruct (k p) as [[[] ?] ?].
Qed.

(** X19.  The playback operations of a player that is not destroyed ([play],
    [stop], [pause], [resume], [seek], [setVolume], [setFilters],
    [clearFilters]) first ask whether the node is ready, that is connected
    and with a session: when it is not they throw [NODE_NOT_READY], make no
    request, emit nothing and leave the player as it is. *)
Theorem playback_needs_ready_node (net : Net) (node : Node.t) (op : Player.Op)
    (p : Player.t) :
  playback op = true ->
  Player.destroyed p = false ->
  Node.isReady node = false ->
  Player.run net node op p = (Err (nodeNotReadyError node), p, []).
Proof.
  intros Hop Hd Hr.
  destruct op; try discriminate Hop; cbn [Player.run]; unfold Player.void;
    unfold Player.play, Player.stop, Player.resume, Player.pause, Player.seek,
      Player.setVolume, Player.setFilters, Player.clearFilters;
    unfold mbind at 1, Player.player_bind at 1, Player.bind at 1;
    by rewrite checks_fail.
Qed.

Lemma playback_needs_ready_node_witness :
  Player.run netOk openNode (Player.OpSetVolume 50) samplePlayer
  = (Err (nodeNotReadyError openNode), samplePlayer, []).
Proof.
  apply (playback_needs_ready_node netOk openNode (Player.OpSetVolume 50) samplePlayer);
    reflexivity.
Defined.

Lemma Qred_inject_Z (k : Z) : Qred (inject_Z k) = inject_Z k.
Proof.
  unfold Qred, inject_Z.
  pose proof (Z.ggcd_gcd k 1) as Hg.
  pose proof (Z.ggcd_correct_divisors k 1) as Hd.
  destruct (Z.ggcd k 1) as [g [r1 r2]]. cbn [fst snd] in *.
  rewrite Z.gcd_1_r in Hg. subst g. destruct Hd as [H1 H2].
  rewrite Z.mul_1_l in H1, H2. by subst.
Qed.

(** The integers among the rationals. *)
Lemma isInteger_spec (x : Q) :
  isInteger x = true <-> exists k : Z, (x == inject_Z k)%Q.
Proof.
  unfold isInteger. rewrite Pos.eqb_eq. split.
  - intros Hden. exists (Qnum (Qred x)).
    rewrite <- (Qred_correct x) at 1.
    destruct (Qred x) as [a b]. cbn in *. by subst.
  - intros [k Hk]. apply Qred_complete in Hk. rewrite Hk.
    by rewrite Qred_inject_Z.
Qed.

Lemma isValidVolume_spec (v : Q) :
  ValidationUtils.isValidVolume v = true <->
  exists k : Z, (0 <= k <= 1000)%Z /\ (v == inject_Z k)%Q.
Proof.
  unfold ValidationUtils.isValidVolume.
  rewrite !andb_true_iff, isInteger_spec, !Qle_bool_iff. split.
  - intros [[[k Hk] H0] H1]. exists k. split; [|done].
    rewrite Hk in H0, H1.
    change 0%Q with (inject_Z 0) in H0. change 1000%Q with (inject_Z 1000) in H1.
    rewrite <- Zle_Qle in H0, H1. lia.
  - intros (k & [H0 H1] & Hk). split_and!; [by exists k | |]; rewrite Hk.
    + change 0%Q with (inject_Z 0). by rewrite <- Zle_Qle.
    + change 1000%Q with (inject_Z 1000). by rewrite <- Zle_Qle.
Qed.

Lemma isValidPosition_spec (x : Q) :
  ValidationUtils.isValidPosition x = true <->
  exists k : Z, (0 <= k)%Z /\ (x == inject_Z k)%Q.
Proof.
  unfold ValidationUtils.isValidPosition.
  rewrite !andb_true_iff, isInteger_spec, !Qle_bool_iff. split.
  - intros [[k Hk] H0]. exists k. split; [|done].
    rewrite Hk in H0. change 0%Q with (inject_Z 0) in H0.
    by rewrite <- Zle_Qle in H0.
  - intros (k & H0 & Hk). split; [by exists k|]. rewrite Hk.
    change 0%Q with (inject_Z 0). by rewrite <- Zle_Qle.
Qed.

(** X20.  [setVolume] takes the integers from 0 to 1000 and [seek] the
    integers from 0 on.  With any other number, on a player that is not
    destroyed and whose node is ready, [setVolume] throws [INVALID_VOLUME]
    and [seek] throws [INVALID_POSITION]; [seek] throws [NO_TRACK_PLAYING]
    when the player has no track, whatever the position, and
    [INVALID_POSITION] when the track cannot be sought in.  In all these
    cases no request is made, nothing is emitted and the player is left as
    it is. *)
Theorem volume_and_position_checks (net : Net) (node : Node.t) (p : Player.t) :
  Player.destroyed p = false ->
  Node.isReady node = true ->
  (forall v,
     ValidationUtils.isValidVolume v = true <->
     exists k : Z, (0 <= k <= 1000)%Z /\ (v == inject_Z k)%Q) /\
  (forall pos,
     ValidationUtils.isValidPosition pos = true <->
     exists k : Z, (0 <= k)%Z /\ (pos == inject_Z k)%Q) /\
  (forall v,
     (forall k : Z, (0 <= k <= 1000)%Z -> ~ (v == inject_Z k)%Q) ->
     exists message,
       Player.setVolume net node v p = (Err (RiasError INVALID_VOLUME message), p, [])) /\
  (forall pos,
     Player.track p = None ->
     Player.seek net node pos p
     = (Err (RiasError NO_TRACK_PLAYING "No track is currently playing"), p, [])) /\
  (forall pos tr,
     Player.track p = Some tr ->
     (forall k : Z, (0 <= k)%Z -> ~ (pos == inject_Z k)%Q) ->
     exists message,
       Player.seek net node pos p = (Err (RiasError INVALID_POSITION message), p, [])) /\
  (forall pos tr,
     Player.track p = Some tr ->
     isSeekable (info tr) = false ->
     exists message,
       Player.seek net node pos p = (Err (RiasError INVALID_POSITION message), p, [])).
Proof.
  intros Hd Hr. split_and!.
  - apply isValidVolume_spec.
  - apply isValidPosition_spec.
  - intros v Hv. unfold Player.setVolume. rewrite checks_pass by done.
    destruct (ValidationUtils.isValidVolume v) eqn:Hvalid.
    { apply isValidVolume_spec in Hvalid as (k & Hk & Heq). by destruct (Hv k Hk). }
    cbn [negb]. unfold Player.invalidNumber, Player.createError, Player.throw. eauto.
  - intros pos Ht. unfold Player.seek. rewrite checks_pass by done.
    player_unfold. by rewrite Ht.
  - intros pos tr Ht Hpos. unfold Player.seek. rewrite checks_pass by done.
    player_unfold. rewrite Ht.
    destruct (ValidationUtils.isValidPosition pos) eqn:Hvalid.
    { apply isValidPosition_spec in Hvalid as (k & Hk & Heq). by destruct (Hpos k Hk). }
    cbn [negb]. unfold Player.invalidNumber, Player.createError, Player.throw. eauto.
  - intros pos tr Ht Hseek. unfold Player.seek. rewrite checks_pass by done.
    player_unfold. rewrite Ht, Hseek.
    destruct (ValidationUtils.isValidPosition pos); cbn [negb];
      unfold Player.invalidNumber, Player.createError, Player.throw; eauto.
Qed.

Lemma volume_and_position_checks_witness :
  Player.seek netOk readyNode 10 samplePlayer
  = (Err (RiasError NO_TRACK_PLAYING "No track is currently playing"), samplePlayer, []).
Proof.
  refine (proj1 (proj2 (proj2 (proj2
            (volume_and_position_checks netOk readyNode samplePlayer _ _))))
            10%Q _); reflexivity.
Defined.

Lemma patch_commits net node payload update p :
  Player.patch net node payload update p
  = commits (Node.updatePlayer net (Player.guildId p) payload false node) update p.
Proof.
  unfold Player.patch, commits, Player.onNode, Player.emitAndRethrow, Player.emit,
    Node.result, Node.effects.
  player_unfold.
  destruct (Node.updatePlayer net (Player.guildId p) payload false node)
    as [[[[]|e] n'] eff]; cbn; by rewrite ?app_nil_r.
Qed.

(** X21.  [pause], [resume], [setVolume], [seek], [stop] and [setFilters], on
    a player that is not destroyed and whose node is ready and with
    arguments that pass the checks, make one call of the node's
    [updatePlayer] and change the player only when the call has succeeded:
    then the one field of the operation is set ([paused], [volume],
    [position], or [track] and [playing]); when the call has failed the
    player is as before, the error is announced by the player's [error]
    event and thrown again. *)
Theorem playback_commits (net : Net) (node : Node.t) (p : Player.t) :
  Player.destroyed p = false ->
  Node.isReady node = true ->
  let call payload := Node.updatePlayer net (Player.guildId p) payload false node in
  (forall state,
     Player.pause net node state p
     = commits (call (pausedPayload state)) (Player.set_paused state) p) /\
  Player.resume net node p
  = commits (call (pausedPayload false)) (Player.set_paused false) p /\
  (forall v, ValidationUtils.isValidVolume v = true ->
     Player.setVolume net node v p
     = commits (call (volumePayload v)) (Player.set_volume v) p) /\
  (forall pos tr,
     Player.track p = Some tr ->
     ValidationUtils.isValidPosition pos = true ->
     isSeekable (info tr) = true ->
     Player.seek net node pos p
     = commits (call (positionPayload pos)) (Player.set_position pos) p) /\
  Player.stop net node p
  = commits (call stopPayload)
      (fun p => Player.set_playing false (Player.set_track None p)) p /\
  (forall f,
     Player.setFilters net node f p
     = commits (call (filtersPayload f)) (fun p => p) p).
Proof.
  intros Hd Hr. cbn zeta. split_and!.
  - intros state. unfold Player.pause. rewrite checks_pass by done.
    apply patch_commits.
  - unfold Player.resume, Player.pause. rewrite checks_pass by done.
    apply patch_commits.
  - intros v Hv. unfold Player.setVolume. rewrite checks_pass by done.
    rewrite Hv. apply patch_commits.
  - intros pos tr Ht Hpos Hseek. unfold Player.seek. rewrite checks_pass by done.
    unfold mbind at 1, Player.player_bind at 1, Player.bind at 1, Player.get at 1.
    rewrite Ht, Hpos, Hseek. cbn [negb]. rewrite patch_commits.
    by destruct (commits _ _ p) as [[[] ?] ?].
  - unfold Player.stop. rewrite checks_pass by done. apply patch_commits.
  - intros f. unfold Player.setFilters. rewrite checks_pass by done.
    apply patch_commits.
Qed.

Lemma playback_commits_witness :
  Player.volume (Player.after (Player.setVolume netOk readyNode 50 samplePlayer)) = 50%Q /\
  Player.setVolume netDown readyNode 50 samplePlayer
  = commits (Node.updatePlayer netDown sampleGuild (volumePayload 50) false readyNode)
      (Player.set_volume 50) samplePlayer /\
  Player.after (Player.setVolume netDown readyNode 50 samplePlayer) = samplePlayer.
Proof.
  destruct (playback_commits netDown readyNode samplePlayer) as (_ & _ & Hv & _);
    [reflexivity|reflexivity|].
  destruct (playback_commits netOk readyNode samplePlayer) as (_ & _ & Hv' & _);
    [reflexivity|reflexivity|].
  split_and!.
  - rewrite (Hv' 50%Q) by reflexivity. vm_compute. reflexivity.
  - apply (Hv 50%Q). reflexivity.
  - rewrite (Hv 50%Q) by reflexivity. vm_compute. reflexivity.
Defined.

(** ** Going to the next track *)

Lemma play_track net node tr p :
  Player.destroyed p = false ->
  Player.play net node (playTrack tr) p
  = if Node.isReady node
    then commits (Node.updatePlayer net (Player.guildId p) (trackPayload tr) false node)
           (Player.set_playing true) p
    else (Err (nodeNotReadyError node), p, []).
Proof.
  intros Hd. unfold Player.play. destruct (Node.isReady node) eqn:Hr.
  - rewrite checks_pass by done.
    unfold commits, Player.onNode, Player.emitAndRethrow, Player.emit,
      Node.result, Node.effects.
    player_unfold. cbn.
    destruct (Node.updatePlayer net (Player.guildId p) _ false node)
      as [[[[]|e] n'] eff]; cbn; by rewrite ?app_nil_r.
  - by rewrite checks_fail.
Qed.

Lemma commits_queue c f p :
  (forall q, Player.queue (f q) = Player.queue q) ->
  Player.queue (Player.after (commits c f p)) = Player.queue p.
Proof.
  intros Hf. unfold commits, Player.after. by destruct (Node.result c); cbn.
Qed.

Lemma poll_nonempty q :
  Queue.isEmpty q = false -> is_Some (Queue.poll q).1.
Proof.
  unfold Queue.isEmpty, Queue.poll. intros Hne.
  destruct (Queue.tracks q) as [|a ts]; [done|].
  destruct (Queue.loopMode q), (Queue.current q); cbn; eauto.
Qed.

(** X22.  [skip()] on a player that is not destroyed.  With an empty queue
    it is [stop()], followed by the [queueEnd] event and the value false
    when [stop()] has succeeded; when the node is not ready it throws
    [NODE_NOT_READY] and nothing is emitted.  With a queue that is not empty
    the queue is polled first, whatever happens next, and the track polled
    is played: the value is true when [play] has succeeded and the error of
    [play] is thrown otherwise, so that a node that is not ready costs the
    queue a track. *)
Theorem skip_spec (net : Net) (node : Node.t) (p : Player.t) :
  Player.destroyed p = false ->
  let o := Player.skip net node p in
  (Queue.isEmpty (Player.queue p) = true ->
     o = match Player.stop net node p with
         | (Ok _, p1, eff) => (Ok false, p1, eff ++ [Player.Emit Player.EvQueueEnd])
         | (Err e, p1, eff) => (Err e, p1, eff)
         end /\
     (Node.isReady node = false -> o = (Err (nodeNotReadyError node), p, []))) /\
  (Queue.isEmpty (Player.queue p) = false ->
     exists tr,
       (Queue.poll (Player.queue p)).1 = Some tr /\
       o = returning true (Player.play net node (playTrack tr) (polled p)) /\
       Player.queue (Player.after o) = (Queue.poll (Player.queue p)).2 /\
       (Node.isReady node = false ->
          o = (Err (nodeNotReadyError node), polled p, []))).
Proof.
  intros Hd. cbn zeta. split.
  - intros Hempty.
    assert (Hrun : Player.skip net node p
                   = match Player.stop net node p with
                     | (Ok _, p1, eff) =>
                         (Ok false, p1, eff ++ [Player.Emit Player.EvQueueEnd])
                     | (Err e, p1, eff) => (Err e, p1, eff)
                     end).
    { unfold Player.skip, Player.checkDestroyed, Player.emit. player_unfold.
      rewrite Hd. cbn. rewrite Hempty.
      destruct (Player.stop net node p) as [[[[]|e] p1] eff]; cbn;
        by rewrite ?app_nil_r. }
    split; [done|]. intros Hr. rewrite Hrun.
    unfold Player.stop. by rewrite checks_fail.
  - intros Hne. destruct (poll_nonempty _ Hne) as [tr Htr]. exists tr.
    assert (Hrun : Player.skip net node p
                   = returning true (Player.play net node (playTrack tr) (polled p))).
    { unfold Player.skip, Player.checkDestroyed, returning, polled. player_unfold.
      rewrite Hd. cbn. rewrite Hne.
      destruct (Queue.poll (Player.queue p)) as [next q'] eqn:Hpoll.
      cbn in Htr. subst next. cbn.
      fold (playTrack tr).
      destruct (Player.play net node (playTrack tr) (Player.set_queue q' p))
        as [[[[]|e] p1] eff]; cbn; by rewrite ?app_nil_r. }
    assert (Hd1 : Player.destroyed (polled p) = false) by done.
    split_and!; [done | done | |].
    + rewrite Hrun, play_track by done. destruct (Node.isReady node).
      * unfold Player.after, returning.
        pose proof (commits_queue
                      (Node.updatePlayer net (Player.guildId (polled p))
                         (trackPayload tr) false node)
                      (Player.set_playing true) (polled p)) as Hq.
        unfold Player.after in Hq.
        destruct (commits _ _ (polled p)) as [[[[]|e] p1] eff]; cbn in *;
          by rewrite Hq.
      * done.
    + intros Hr. by rewrite Hrun, play_track, Hr.
Qed.

Lemma skip_spec_witness :
  Player.skip netOk openNode queuedPlayer
  = (Err (nodeNotReadyError openNode), polled queuedPlayer, []) /\
  Queue.size (Player.queue queuedPlayer) = 2 /\
  Queue.size (Player.queue (polled queuedPlayer)) = 1.
Proof.
  destruct (skip_spec netOk openNode queuedPlayer) as [_ Hskip]; [reflexivity|].
  destruct Hskip as (tr & _ & _ & _ & Hlost); [reflexivity|].
  split; [by apply Hlost|]. by vm_compute.
Defined.

(** ** The listeners on the node *)

Lemma playNext_run net node p :
  Player.destroyed p = false ->
  Player.playNext net node p
  = match (Queue.poll (Player.queue p)).1 with
    | None => (Ok tt, polled p, [Player.Emit Player.EvQueueEnd])
    | Some tr =>
        match Player.play net node (playTrack tr) (polled p) with
        | (Ok _, p1, eff) => (Ok tt, p1, eff)
        | (Err e, p1, eff) => (Ok tt, p1, eff ++ [Player.Emit (Player.EvError e)])
        end
    end.
Proof.
  intros Hd. unfold Player.playNext, polled, Player.emit. player_unfold.
  destruct (Queue.poll (Player.queue p)) as [[tr|] q']; cbn; [|done].
  fold (playTrack tr).
  by destruct (Player.play net node (playTrack tr) (Player.set_queue q' p))
    as [[[[]|e] p1] eff].
Qed.

(** X23.  The end of a track.  On a [TrackEndEvent] of its guild that names
    a track and a reason, a player that is not destroyed stops playing and
    emits [trackEnd].  Unless [autoplay] is on and the reason is [finished]
    or [loadFailed], that is all, and the queue is left alone.  Otherwise
    the queue is polled once: when it gives no track the player emits
    [queueEnd]; when it gives one, the track is played, and an error of
    [play] is announced by the [error] event and not thrown, twice when it
    is the node's request that has failed. *)
Theorem trackEnd_autoplay (net : Net) (node : Node.t) (payload : Player.EventPayload)
    (p : Player.t) (tr : Track) (reason : string) :
  Player.destroyed p = false ->
  Player.ev_guildId payload = Player.guildId p ->
  Player.ev_type payload = "TrackEndEvent"%string ->
  Player.ev_track payload = Some tr ->
  Player.ev_reason payload = Some reason ->
  reason <> EmptyString ->
  let o := Player.onEvent net node payload p in
  let stopped := Player.set_playing false p in
  let ended := Player.Forward (Player.TrackEnd tr reason) in
  (Player.autoplay p = false \/
   (reason <> "finished"%string /\ reason <> "loadFailed"%string) ->
     o = (stopped, [ended])) /\
  (Player.autoplay p = true ->
   reason = "finished"%string \/ reason = "loadFailed"%string ->
     Player.queue o.1 = (Queue.poll (Player.queue p)).2 /\
     match (Queue.poll (Player.queue p)).1 with
     | None =>
         o = (polled stopped, [ended; Player.Does (Player.Emit Player.EvQueueEnd)])
     | Some next =>
         if Node.isReady node then
           let c := Node.updatePlayer net (Player.guildId p) (trackPayload next)
                      false node in
           o.2 = ended
                 :: (Player.Does <$>
                       (Player.OnNode <$> Node.effects c)
                       ++ match Node.result c with
                          | Ok _ => []
                          | Err e => [Player.Emit (Player.EvError e);
                                      Player.Emit (Player.EvError e)]
                          end) /\
           Player.playing o.1 = match Node.result c with
                                | Ok _ => true
                                | Err _ => false
                                end
         else
           o = (polled stopped,
                [ended; Player.Does (Player.Emit (Player.EvError (nodeNotReadyError node)))])
     end).
Proof.
  intros Hd Hg Ht Htr Hreason Hne. cbn zeta.
  assert (Htruthy : truthy (Some reason) = true) by (by destruct reason).
  assert (Hrun :
    Player.onEvent net node payload p
    = if Player.autoplay p
         && (String.eqb reason "finished" || String.eqb reason "loadFailed")
      then
        let '(_, p2, eff) := Player.playNext net node (Player.set_playing false p) in
        (p2, Player.Forward (Player.TrackEnd tr reason) :: (Player.Does <$> eff))
      else (Player.set_playing false p, [Player.Forward (Player.TrackEnd tr reason)])).
  { unfold Player.onEvent. rewrite Hg, String.eqb_refl, Hd, Ht, Htr, Hreason, Htruthy.
    reflexivity. }
  rewrite Hrun. clear Hrun. split.
  - intros [Hauto|[H1 H2]].
    + by rewrite Hauto.
    + apply String.eqb_neq in H1, H2. rewrite H1, H2. by rewrite andb_false_r.
  - intros Hauto Hwhy. rewrite Hauto.
    replace (String.eqb reason "finished" || String.eqb reason "loadFailed") with true
      by (by destruct Hwhy as [->| ->]).
    cbn [andb].
    assert (Hd1 : Player.destroyed (Player.set_playing false p) = false) by done.
    rewrite playNext_run by done.
    change (Player.queue (Player.set_playing false p)) with (Player.queue p).
    destruct (Queue.poll (Player.queue p)) as [[next|] q'] eqn:Hpoll; cbn [fst snd].
    + rewrite play_track by done.
      change (Player.guildId (polled (Player.set_playing false p)))
        with (Player.guildId p).
      destruct (Node.isReady node).
      * unfold commits.
        destruct (Node.result _) as [[]|e] eqn:Hres; cbn.
        -- unfold polled. cbn. rewrite Hpoll. cbn. by rewrite app_nil_r.
        -- unfold polled. cbn. rewrite Hpoll. cbn.
           split_and!; [done| |done].
           by rewrite <- app_assoc.
      * unfold polled. cbn. by rewrite Hpoll.
    + unfold polled. cbn. by rewrite Hpoll.
Qed.

Lemma trackEnd_autoplay_witness :
  Player.onEvent netOk readyNode (trackEndPayload "replaced") queuedPlayer
  = (Player.set_playing false queuedPlayer,
     [Player.Forward (Player.TrackEnd (sampleTrack "z9" "Zed") "replaced")]).
Proof.
  refine (proj1 (trackEnd_autoplay netOk readyNode (trackEndPayload "replaced")
                   queuedPlayer (sampleTrack "z9" "Zed") "replaced"%string
                   _ _ _ _ _ _) _); try reflexivity.
  - discriminate.
  - right. split; discriminate.
Defined.

(** X24.  What the listeners leave alone.  A frame of another guild, and
    any frame on a player that is destroyed, changes nothing and emits
    nothing, for the [event] frames as for the [playerUpdate] frames; so
    does an [event] frame of a type that the player does not know.  A
    [playerUpdate] frame of the guild sets the position and the connection
    of the player from the frame and nothing else. *)
Theorem listeners_guard (net : Net) (node : Node.t) (p : Player.t) :
  (forall payload,
     Player.ev_guildId payload <> Player.guildId p \/ Player.destroyed p = true ->
     Player.onEvent net node payload p = (p, [])) /\
  (forall guild state,
     guild <> Player.guildId p \/ Player.destroyed p = true ->
     Player.onPlayerUpdate guild state p = (p, [])) /\
  (forall payload,
     Player.ev_type payload
       ∉ ["TrackStartEvent"; "TrackEndEvent"; "TrackStuckEvent";
          "TrackExceptionEvent"; "WebSocketClosedEvent"]%string ->
     Player.onEvent net node payload p = (p, [])) /\
  (forall state,
     Player.destroyed p = false ->
     Player.onPlayerUpdate (Player.guildId p) state p
     = (Player.set_connected (Player.ps_connected state)
          (Player.set_position (Player.ps_position state) p),
        [Player.Forward (Player.PlayerUpdate state)])).
Proof.
  split_and!.
  - intros payload [H|H]; unfold Player.onEvent.
    + apply String.eqb_neq in H. by rewrite H.
    + rewrite H. by destruct (negb _).
  - intros guild state [H|H]; unfold Player.onPlayerUpdate.
    + apply String.eqb_neq in H. by rewrite H.
    + rewrite H. by destruct (negb _).
  - intros payload Hty. unfold Player.onEvent.
    destruct (negb _); [done|]. destruct (Player.destroyed p); [done|].
    repeat match goal with
    | |- context [String.eqb (Player.ev_type payload) ?s] =>
        destruct (String.eqb_spec (Player.ev_type payload) s) as [Heq|_];
        [exfalso; apply Hty; rewrite Heq; elem_here|]
    end.
    done.
  - intros state Hd. unfold Player.onPlayerUpdate.
    by rewrite String.eqb_refl, Hd.
Qed.

(** ** The registry of the players *)

(** The node that the selection gives is one of the eligible nodes. *)
Lemma getOptimalNode_eligible r region node :
  Rias.getOptimalNode r region = Some node -> node ∈ Rias.eligible r.
Proof.
  unfold Rias.getOptimalNode.
  destruct (Rias.eligible r) as [|a [|b l]] eqn:El; [done| |].
  { intros [= ->]. left. }
  set (ns := a :: b :: l).
  unfold Rias.selectRegionalNode, Rias.selectLeastPlayersNode,
    Rias.selectLeastLoadNode, Rias.selectPriorityNode, Rias.selectLoadBalancedNode.
  destruct (Rias.nodeSelectionStrategy r); try apply head_sort_elem.
  destruct (negb (truthy region)); [apply head_sort_elem|].
  destruct (filter _ ns) as [|c rest] eqn:Ef; [apply head_sort_elem|].
  intros H%head_sort_elem. rewrite <- Ef in H.
  by apply list_elem_of_filter in H as [_ H].
Qed.

Lemma eligible_ready r node :
  node ∈ Rias.eligible r ->
  node ∈ Rias.nodes r /\ Node.connected node = true /\ Node.isReady node = true.
Proof.
  unfold Rias.eligible. intros [H1 H2]%list_elem_of_filter.
  by apply andb_true_iff in H1 as [? ?].
Qed.

(** X25.  [create(guildId, region)] gets the player of the guild or makes
    it.  A call that throws leaves the registry as it is.  A call that
    returns has the player in the registry under the guild, leaves the
    players of the other guilds alone, and a second call, with any region,
    returns the same player and changes nothing.  A player that was there
    is returned as it is, with no look at the nodes; a player that is made
    is a new player on a node of the cluster that is connected and ready,
    and when no such node is there the call throws [NO_AVAILABLE_NODES]. *)
Theorem create_get_or_create (guildId : string) (region : option string)
    (r : Rias.t) :
  let o := Rias.create guildId region r in
  (forall e, o.1 = Err e -> o.2 = r) /\
  (forall player, o.1 = Ok player ->
     Rias.get o.2 guildId = Some player /\
     (forall g, g <> guildId -> Rias.get o.2 g = Rias.get r g) /\
     (forall region', Rias.create guildId region' o.2 = (Ok player, o.2)) /\
     match Rias.get r guildId with
     | Some existing => player = existing /\ o.2 = r
     | None =>
         exists node,
           node ∈ Rias.nodes r /\
           Node.connected node = true /\ Node.isReady node = true /\
           player = Player.create guildId (Node.id node)
     end) /\
  (Rias.shuttingDown r = false ->
   ValidationUtils.isValidGuildId guildId = true ->
   match Rias.get r guildId with
   | Some existing => o = (Ok existing, r)
   | None =>
       Rias.eligible r = [] ->
       o = (Err (RiasError NO_AVAILABLE_NODES
                   "No available nodes. Please ensure at least one node is connected."),
            r)
   end).
Proof.
  cbn zeta. unfold Rias.create, Rias.get.
  destruct (Rias.shuttingDown r) eqn:Hs; [by split_and!|].
  destruct (ValidationUtils.isValidGuildId guildId) eqn:Hv; cbn [negb];
    [|by split_and!].
  destruct (Rias.players r !! guildId) as [existing|] eqn:Hget.
  - split_and!; [done| |done]. cbn [fst snd]. intros player [= <-].
    rewrite ?Hs, ?Hv, ?Hget. by split_and!.
  - destruct (Rias.getOptimalNode r region) as [node|] eqn:Hnode.
    + split_and!; [done| |].
      * cbn [fst snd]. intros player [= <-]. cbn [Rias.players Rias.set_players].
        split_and!.
        -- by rewrite lookup_insert_eq.
        -- intros g Hg. by rewrite lookup_insert_ne.
        -- intros region'.
           change (Rias.shuttingDown (Rias.set_players _ r))
             with (Rias.shuttingDown r).
           rewrite Hs. by rewrite lookup_insert_eq.
        -- apply getOptimalNode_eligible, eligible_ready in Hnode.
           exists node. by destruct Hnode as (? & ? & ?).
      * intros _ _ Hnone. unfold Rias.getOptimalNode in Hnode.
        by rewrite Hnone in Hnode.
    + by split_and!.
Qed.

Lemma create_get_or_create_witness :
  Rias.create sampleGuild (Some "eu"%string) clusterWithPlayer
  = (Ok samplePlayer, clusterWithPlayer).
Proof.
  refine (proj2 (proj2 (create_get_or_create sampleGuild (Some "eu"%string)
                          clusterWithPlayer)) _ _); reflexivity.
Defined.

(** ** The packets of the gateway *)

(** X26.  A packet of the gateway reaches no player but the one of its
    guild.  When the player registered for a guild is not the same after a
    packet, the packet is a [VOICE_SERVER_UPDATE] or a [VOICE_STATE_UPDATE]
    with the fields of its kind, its [guild_id] is that guild, and, for a
    [VOICE_STATE_UPDATE], its [user_id] is the client's own: the voice state
    of another user changes no player.  The nodes of the cluster and its
    other fields are never changed. *)
Theorem packet_reaches_own_player (net : Net) (packet : Rias.Packet) (r : Rias.t) :
  let r' := Rias.deliverPacket net packet r in
  Rias.nodes r' = Rias.nodes r /\
  Rias.clientId r' = Rias.clientId r /\
  Rias.shuttingDown r' = Rias.shuttingDown r /\
  forall g,
    Rias.get r' g <> Rias.get r g ->
    exists kind d,
      Rias.pk_t packet = Some kind /\ Rias.pk_d packet = Some d /\
      Rias.d_guild_id d = Rias.JString g /\
      is_Some (Rias.get r g) /\
      ((kind = "VOICE_SERVER_UPDATE"%string /\ Rias.isVoiceServerUpdate d = true) \/
       (kind = "VOICE_STATE_UPDATE"%string /\ Rias.isVoiceStateUpdate d = true /\
        Rias.d_user_id d = Rias.JString (Rias.clientId r))).
Proof.
  cbn zeta. unfold Rias.deliverPacket.
  destruct (Rias.onRawPacket packet r) as [[guild input]|] eqn:Hraw; [|by split_and!].
  destruct (Rias.players r !! guild) as [player|] eqn:Hplayer; [|by split_and!].
  destruct (Rias.getNode r (Player.nodeId player)) as [node|]; [|by split_and!].
  split_and!; [done|done|done|]. intros g Hchanged.
  unfold Rias.get in *. cbn [Rias.players Rias.set_players] in Hchanged.
  destruct (decide (g = guild)) as [->|Hg];
    [|by rewrite lookup_insert_ne in Hchanged].
  clear Hchanged. unfold Rias.onRawPacket in Hraw.
  destruct (Rias.pk_t packet) as [kind|]; [|done]. exists kind.
  destruct (negb (truthy (Some kind)) || _) eqn:Hkind; [done|].
  destruct (Rias.pk_d packet) as [d|]; [|done]. exists d.
  destruct (Rias.d_guild_id d) as [| |guild'|] eqn:Hguild; try done.
  destruct (Rias.players r !! guild') as [player'|] eqn:Hplayer'; [|done].
  destruct (String.eqb_spec kind "VOICE_SERVER_UPDATE") as [Hk1|Hk1]; cbn [andb] in Hraw.
  - rewrite ?Hk1 in Hraw. rewrite Hk1.
    destruct (Rias.isVoiceServerUpdate d) eqn:Hsv; cbn in Hraw; [|done].
    injection Hraw as <- _. rewrite Hplayer. split_and!; eauto.
  - destruct (String.eqb_spec kind "VOICE_STATE_UPDATE") as [Hk2|Hk2]; cbn [andb] in Hraw;
      [|done].
    rewrite Hk2.
    destruct (Rias.isVoiceStateUpdate d) eqn:Hst; [|done].
    destruct (String.eqb_spec (Rias.stringOf (Rias.d_user_id d)) (Rias.clientId r))
      as [Huser|Huser]; cbn [negb] in Hraw; [|done].
    injection Hraw as <- _. rewrite Hplayer. split_and!; eauto.
    right. split_and!; [done|done|].
    unfold Rias.isVoiceStateUpdate in Hst.
    destruct (Rias.d_user_id d); cbn in *; try by rewrite ?andb_false_r in Hst.
    by rewrite Huser.
Qed.

Example server_packet_delivered :
  Player.voiceServer
    <$> Rias.get (Rias.deliverPacket netOk serverPacket clusterWithPlayer) sampleGuild
  = Some (Some {| vs_token := "token-1"; vs_guild_id := sampleGuild;
                  vs_endpoint := Some "voice.example:443"%string |}).
Proof. vm_compute. reflexivity. Qed.

(** ** Playing a track *)

(** X27.  [play(options)] on a player that is not destroyed and whose node
    is ready.  When a position, an end time or a volume of the options does
    not pass its check, the call throws [INVALID_POSITION] or
    [INVALID_VOLUME] before anything is assigned or requested.  Otherwise
    the volume and the pause of the options are assigned to the player
    first and the request is made after: when the request fails the player
    keeps what was assigned, the error is announced and thrown again, and
    [playing] is left as it was; when it succeeds [playing] becomes true.
    The track of the player is not set by [play]. *)
Theorem play_assigns_before_request (net : Net) (node : Node.t)
    (options : Player.PlayOptions) (p : Player.t) :
  Player.destroyed p = false ->
  Node.isReady node = true ->
  let o := Player.play net node options p in
  (optionsValid options = false ->
     exists code message,
       o = (Err (RiasError code message), p, []) /\
       (code = INVALID_POSITION \/ code = INVALID_VOLUME)) /\
  (optionsValid options = true ->
     o = commits
           (Node.updatePlayer net (Player.guildId p) (playPayload options)
              (default false (Player.o_noReplace options)) node)
           (Player.set_playing true) (assigned options p) /\
     Player.track (Player.after o) = Player.track p /\
     Player.volume (Player.after o) = default (Player.volume p) (Player.o_volume options) /\
     Player.paused (Player.after o) = default (Player.paused p) (Player.o_paused options)).
Proof.
  intros Hd Hr. cbn zeta. unfold Player.play. rewrite checks_pass by done.
  unfold optionsValid, playPayload, assigned, commits, Player.invalidNumber,
    Player.createError, Player.onNode, Player.emitAndRethrow, Player.emit,
    Player.after, Node.result, Node.effects.
  player_unfold.
  destruct options as [tr pos endTime vol paused noReplace]. cbn [Player.o_track
    Player.o_position Player.o_endTime Player.o_volume Player.o_paused
    Player.o_noReplace from_option].
  destruct pos as [pos|], endTime as [endTime|], vol as [vol|], paused as [paused|];
    cbn [from_option];
    repeat match goal with
    | |- context [ValidationUtils.isValidPosition ?x] =>
        destruct (ValidationUtils.isValidPosition x)
    | |- context [ValidationUtils.isValidVolume ?x] =>
        destruct (ValidationUtils.isValidVolume x)
    end;
    cbn [negb andb];
    (split;
     [ first [ discriminate
             | intros _; cbn; eexists _, _; split; [reflexivity|auto] ]
     | first [ discriminate | intros _ ] ]).
  all: cbn;
    match goal with
    | |- context [Node.updatePlayer ?a ?b ?c ?d ?e] =>
        destruct (Node.updatePlayer a b c d e) as [[[[]|err] n'] eff]
    end; cbn; rewrite ?app_nil_r; by split_and!.
Qed.

Lemma play_assigns_before_request_witness :
  Player.volume (Player.after (Player.play netDown readyNode quietOptions samplePlayer))
  = 30%Q /\
  Player.paused (Player.after (Player.play netDown readyNode quietOptions samplePlayer))
  = true.
Proof.
  destruct (play_assigns_before_request netDown readyNode quietOptions samplePlayer)
    as [_ H]; [reflexivity|reflexivity|].
  destruct H as (_ & _ & Hv & Hp); [reflexivity|].
  split; [exact Hv|exact Hp].
Defined.
